(** * Professional Communication Assistant: a shallow embedding of [app.py]

    The script polishes a draft through a hosted language model, diffs the
    polished text against the draft sentence by sentence, classifies every
    changed sentence with a second model call and renders the polished text
    with one background colour per category.

    Python strings are sequences of Unicode code points: a character is a
    code point in [N], a [str] is a list of them.  Dictionaries are stdpp
    [gmap]s.  The standard-library calls the script relies on ([str.strip],
    [re.split], [difflib.SequenceMatcher]) are embedded from CPython's
    definitions; the two collaborators (Streamlit and the Gemini client) are
    an event trace and an oracle. *)

From Stdlib Require Import NArith Ascii String DecimalString.
From stdpp Require Import gmap list sorting strings.

Local Open Scope list_scope.
Local Open Scope nat_scope.

(** ** Strings *)

Definition char := N.
Definition str := list char.

(** An ASCII literal as a Python string. *)
Definition py (x : string) : str := N_of_ascii <$> list_ascii_of_string x.

(** [Py_UNICODE_ISSPACE]: the characters [str.strip()] removes and the
    regular-expression class [\s] matches on [str] patterns. *)
Definition is_space (c : char) : bool :=
  ((9 <=? c) && (c <=? 13) || (28 <=? c) && (c <=? 32)
   || (c =? 133) || (c =? 160) || (c =? 5760)
   || (8192 <=? c) && (c <=? 8202)
   || (c =? 8232) || (c =? 8233) || (c =? 8239) || (c =? 8287)
   || (c =? 12288))%N.

(** The character class [[.!?]]. *)
Definition is_term (c : char) : bool := ((c =? 46) || (c =? 33) || (c =? 63))%N.

Fixpoint lstrip (t : str) : str :=
  match t with
  | c :: t' => if is_space c then lstrip t' else t
  | [] => []
  end.

Definition rstrip (t : str) : str := rev (lstrip (rev t)).

(** [str.strip()] *)
Definition strip (t : str) : str := rstrip (lstrip t).

(** [sep.join(l)] *)
Fixpoint join (sep : str) (l : list str) : str :=
  match l with
  | [] => []
  | [x] => x
  | x :: l' => x ++ sep ++ join sep l'
  end.

(** ** Sentence splitting *)

(** Adds a character in front of the segment under construction. *)
Definition push (c : char) (r : list str) : list str :=
  match r with
  | s :: r' => (c :: s) :: r'
  | [] => [[c]]
  end.

(** [re.split(r'(?<=[.!?])\s+', t)], scanning [t] from the left.  [in_sep]
    says that the scan is inside a match of [\s+] (which is greedy and takes
    the whole run of whitespace); [prev] says that the character before the
    current one is in [[.!?]], which is what the look-behind asks for at the
    start of a match.  The head of the result is the segment the scan is
    in; a match closes it, and the text after the last match is the last
    segment (empty when the text ends with a match). *)
Fixpoint re_split (in_sep prev : bool) (t : str) : list str :=
  match t with
  | [] => [[]]
  | c :: t' =>
      if is_space c then
        if in_sep then re_split true false t'
        else if prev then [] :: re_split true false t'
        else push c (re_split false false t')
      else push c (re_split false (is_term c) t')
  end.

(** [split_sentences(text)] *)
Definition split_sentences (text : str) : list str :=
  re_split false false (strip text).

(** ** [difflib.SequenceMatcher]

    The script builds [difflib.SequenceMatcher(None, a, b)] and reads
    [get_opcodes()].  The definitions below follow CPython's
    [Lib/difflib.py] with [isjunk = None] and [autojunk = True], the values
    the call uses.  Indices are natural numbers; the one place where the
    library reads a key that can be [-1] is the dictionary [j2len], whose
    keys are integers here. *)

Module difflib.
Section SequenceMatcher.
Context `{Countable A}.

(** [Match(a, b, size)] *)
Definition Match : Type := nat * nat * nat.

Inductive tag := replace | delete | insert | equal.

(** [(tag, i1, i2, j1, j2)] *)
Record opcode := Opcode { op_tag : tag; i1 : nat; i2 : nat; j1 : nat; j2 : nat }.

Record SequenceMatcher := {
  seq_a : list A;
  seq_b : list A;
  b2j : gmap A (list nat);
  bjunk : gset A;
  bpopular : gset A
}.

(** The first loop of [__chain_b]:
    [for i, elt in enumerate(b): b2j.setdefault(elt, []).append(i)]. *)
Definition index_elements (b : list A) : gmap A (list nat) :=
  fold_left (λ b2j '(i, elt), <[elt := default [] (b2j !! elt) ++ [i]]> b2j)
            (imap pair b) ∅.

(** [set_seqs(a, b)] followed by [__chain_b()].  With [isjunk = None] no
    element is junk; with [autojunk] and at least 200 elements, the
    elements that occur more than [n // 100 + 1] times are popular and
    leave [b2j]. *)
Definition new (a b : list A) : SequenceMatcher :=
  let b2j := index_elements b in
  let n := length b in
  if bool_decide (200 ≤ n) then
    let ntest := n / 100 + 1 in
    let popular : gset A := dom (filter (λ p, ntest < length p.2) b2j) in
    {| seq_a := a; seq_b := b; b2j := filter (λ p, p.1 ∉ popular) b2j;
       bjunk := ∅; bpopular := popular |}
  else
    {| seq_a := a; seq_b := b; b2j := b2j; bjunk := ∅; bpopular := ∅ |}.

(** The inner loop of [find_longest_match] for one [i]: [js] is
    [b2j.get(a[i], nothing)]; an index below [blo] is skipped
    ([continue]), the first one at or above [bhi] ends the loop
    ([break]).  [i-k+1] is written [i+1-k]: [k <= i+1], as the match of
    length [k] ends at [i] (lemma [scan_row_bounds] below). *)
Fixpoint scan_row (i blo bhi : nat) (j2len : gmap Z nat) (js : list nat)
    (newj2len : gmap Z nat) (best : Match) : gmap Z nat * Match :=
  match js with
  | [] => (newj2len, best)
  | j :: js' =>
      if j <? blo then scan_row i blo bhi j2len js' newj2len best
      else if bhi <=? j then (newj2len, best)
      else
        let k := default 0 (j2len !! (Z.of_nat j - 1)%Z) + 1 in
        let newj2len := <[Z.of_nat j := k]> newj2len in
        let best := if best.2 <? k then (i + 1 - k, j + 1 - k, k) else best in
        scan_row i blo bhi j2len js' newj2len best
  end.

(** [x[i] == y[j]] followed by a test of [y[j]]; an index out of range
    (which the loop guards exclude) ends the loop. *)
Definition same_at (P : A → bool) (a b : list A) (i j : nat) : bool :=
  match a !! i, b !! j with
  | Some x, Some y => P y && bool_decide (x = y)
  | _, _ => false
  end.

(** [while besti > alo and bestj > blo and P(b[bestj-1]) and
    a[besti-1] == b[bestj-1]: besti, bestj, bestsize = besti-1, bestj-1,
    bestsize+1] *)
Fixpoint extend_left (P : A → bool) (a b : list A) (alo blo : nat)
    (besti bestj bestsize : nat) : Match :=
  match besti with
  | S i' =>
      if (alo <? besti) && (blo <? bestj) && same_at P a b i' (bestj - 1)
      then extend_left P a b alo blo i' (bestj - 1) (bestsize + 1)
      else (besti, bestj, bestsize)
  | 0 => (besti, bestj, bestsize)
  end.

(** [while besti+bestsize < ahi and bestj+bestsize < bhi and
    P(b[bestj+bestsize]) and a[besti+bestsize] == b[bestj+bestsize]:
    bestsize += 1]; [n] bounds the number of iterations by
    [ahi - (besti+bestsize)]. *)
Fixpoint extend_right (n : nat) (P : A → bool) (a b : list A) (ahi bhi : nat)
    (besti bestj bestsize : nat) : Match :=
  match n with
  | S n' =>
      if (besti + bestsize <? ahi) && (bestj + bestsize <? bhi)
         && same_at P a b (besti + bestsize) (bestj + bestsize)
      then extend_right n' P a b ahi bhi besti bestj (bestsize + 1)
      else (besti, bestj, bestsize)
  | 0 => (besti, bestj, bestsize)
  end.

Definition extend (P : A → bool) (a b : list A) (alo ahi blo bhi : nat)
    (best : Match) : Match :=
  let '(besti, bestj, bestsize) := best in
  let '(besti, bestj, bestsize) := extend_left P a b alo blo besti bestj bestsize in
  extend_right (ahi - (besti + bestsize)) P a b ahi bhi besti bestj bestsize.

(** One iteration of [for i in range(alo, ahi)]. *)
Definition scan_step (self : SequenceMatcher) (blo bhi : nat)
    (st : gmap Z nat * Match) (i : nat) : gmap Z nat * Match :=
  let js := match seq_a self !! i with
            | Some x => default [] (b2j self !! x)
            | None => []
            end in
  scan_row i blo bhi st.1 js ∅ st.2.

Definition find_longest_match (self : SequenceMatcher)
    (alo ahi blo bhi : nat) : Match :=
  let isbjunk x := bool_decide (x ∈ bjunk self) in
  let a := seq_a self in
  let b := seq_b self in
  let best :=
    (fold_left (scan_step self blo bhi) (seq alo (ahi - alo)) (∅, (alo, blo, 0))).2 in
  let best := extend (λ x, negb (isbjunk x)) a b alo ahi blo bhi best in
  extend isbjunk a b alo ahi blo bhi best.

(** [(alo, ahi, blo, bhi)] *)
Definition rect : Type := nat * nat * nat * nat.

(** The [while queue:] loop of [get_matching_blocks].  [queue] is used as
    a stack: the head of the list is the last element of the Python list,
    the one [queue.pop()] takes.  [None] is a loop that has not ended
    within [fuel] iterations. *)
Fixpoint matching_loop (self : SequenceMatcher) (fuel : nat)
    (queue : list rect) (matching_blocks : list Match) : option (list Match) :=
  match queue with
  | [] => Some matching_blocks
  | (alo, ahi, blo, bhi) :: queue =>
      match fuel with
      | 0 => None
      | S fuel =>
          let '(i, j, k) := find_longest_match self alo ahi blo bhi in
          if k =? 0 then matching_loop self fuel queue matching_blocks
          else
            let matching_blocks := matching_blocks ++ [(i, j, k)] in
            let queue :=
              if (alo <? i) && (blo <? j) then (alo, i, blo, j) :: queue
              else queue in
            let queue :=
              if (i + k <? ahi) && (j + k <? bhi) then (i + k, ahi, j + k, bhi) :: queue
              else queue in
            matching_loop self fuel queue matching_blocks
      end
  end.

(** The order of Python tuples. *)
Definition Match_le (x y : Match) : Prop :=
  let '(xi, xj, xk) := x in
  let '(yi, yj, yk) := y in
  xi < yi ∨ (xi = yi ∧ (xj < yj ∨ (xj = yj ∧ xk ≤ yk))).

#[global] Instance Match_le_dec x y : Decision (Match_le x y).
Proof. destruct x as [[??]?], y as [[??]?]; simpl; apply _. Defined.

(** The loop that merges adjacent blocks; the state is
    [(i1, j1, k1)] and [non_adjacent]. *)
Definition collapse_step (st : Match * list Match) (m : Match)
    : Match * list Match :=
  let '((i1, j1, k1), non_adjacent) := st in
  let '(i2, j2, k2) := m in
  if bool_decide (i1 + k1 = i2) && bool_decide (j1 + k1 = j2)
  then ((i1, j1, k1 + k2), non_adjacent)
  else ((i2, j2, k2), if k1 =? 0 then non_adjacent else non_adjacent ++ [(i1, j1, k1)]).

(** [get_matching_blocks()]: the loop, [matching_blocks.sort()], the merge
    of adjacent blocks and the sentinel.  Every iteration of the loop that
    finds a block takes at least one element of [a] out of the rectangles
    still to compare, so [2 * la + 1] iterations are enough (lemma
    [get_matching_blocks_chain] below). *)
Definition get_matching_blocks (self : SequenceMatcher) : option (list Match) :=
  let la := length (seq_a self) in
  let lb := length (seq_b self) in
  matching_blocks ← matching_loop self (2 * la + 1) [(0, la, 0, lb)] [];
  let matching_blocks := merge_sort Match_le matching_blocks in
  let '((i1, j1, k1), non_adjacent) :=
    fold_left collapse_step matching_blocks ((0, 0, 0), []) in
  let non_adjacent :=
    if k1 =? 0 then non_adjacent else non_adjacent ++ [(i1, j1, k1)] in
  Some (non_adjacent ++ [(la, lb, 0)]).

(** One iteration of the loop of [get_opcodes]; the state is [(i, j)] and
    [answer]. *)
Definition opcode_step (st : nat * nat * list opcode) (m : Match)
    : nat * nat * list opcode :=
  let '(i, j, answer) := st in
  let '(ai, bj, size) := m in
  let answer :=
    if (i <? ai) && (j <? bj) then answer ++ [Opcode replace i ai j bj]
    else if i <? ai then answer ++ [Opcode delete i ai j bj]
    else if j <? bj then answer ++ [Opcode insert i ai j bj]
    else answer in
  let '(i, j) := (ai + size, bj + size) in
  let answer :=
    if size =? 0 then answer else answer ++ [Opcode equal ai i bj j] in
  (i, j, answer).

Definition get_opcodes (self : SequenceMatcher) : option (list opcode) :=
  blocks ← get_matching_blocks self;
  Some (fold_left opcode_step blocks (0, 0, [])).2.

End SequenceMatcher.

Arguments SequenceMatcher A {_ _}.
End difflib.

(** ** The script *)

(** [l[j1:j2]] for [0 <= j1 <= j2]. *)
Definition slice {A} (l : list A) (j1 j2 : nat) : list A :=
  take (j2 - j1) (drop j1 l).

(** The loop over [matcher.get_opcodes()]: every opcode whose tag is not
    ["equal"] extends [changed_sentences] with [polished_sentences[j1:j2]]. *)
Definition extend_changed (polished_sentences : list str)
    (changed_sentences : list str) (op : difflib.opcode) : list str :=
  match difflib.op_tag op with
  | difflib.equal => changed_sentences
  | _ => changed_sentences ++ slice polished_sentences (difflib.j1 op) (difflib.j2 op)
  end.

Definition changed_of_opcodes (polished_sentences : list str)
    (opcodes : list difflib.opcode) : list str :=
  fold_left (extend_changed polished_sentences) opcodes [].

(** Step 2 of the workflow, from the two sentence sequences. *)
Definition changed_sentences (orig_sentences polished_sentences : list str)
    : option (list str) :=
  opcodes ← difflib.get_opcodes (difflib.new orig_sentences polished_sentences);
  Some (changed_of_opcodes polished_sentences opcodes).

Definition quote : str := [34%N].
Definition lines (l : list str) : str := join [10%N] l.

(** The [highlights] dictionary of [highlight_sentences]. *)
Definition highlights : gmap str str :=
  list_to_map
    [ (py "grammar", py "background-color:#ffcccc;");
      (py "spelling", py "background-color:#cce5ff;");
      (py "tone", py "background-color:#fff3cd;");
      (py "formatting", py "background-color:#d5f5e3;");
      (py "other", py "background-color:#e8d4f8;") ].

(** [f"<span style='{style}'>{sent}</span>"] *)
Definition span (style sent : str) : str :=
  py "<span style='" ++ style ++ py "'>" ++ sent ++ py "</span>".

(** The truth value of a string: every string but the empty one. *)
Definition truthy (x : str) : bool :=
  match x with
  | [] => false
  | _ :: _ => true
  end.

(** One iteration of the loop of [highlight_sentences]: the string that is
    appended to [output].  [categories.get] gives [None] for a missing key,
    and [if category:] fails on [None] and on an empty string. *)
Definition highlight_one (categories : gmap str str) (sent : str) : str :=
  match categories !! strip sent with
  | Some category =>
      if truthy category then
        let style := default [] (highlights !! category) in
        span style sent
      else sent
  | None => sent
  end.

(** The list [output] of [highlight_sentences]. *)
Definition highlight_output (polished_sentences : list str)
    (categories : gmap str str) : list str :=
  highlight_one categories <$> polished_sentences.

Definition highlight_sentences (polished_sentences : list str)
    (categories : gmap str str) : str :=
  join (py " ") (highlight_output polished_sentences categories).

(** The list the classifier checks its answer against. *)
Definition category_names : list str :=
  [py "grammar"; py "spelling"; py "tone"; py "formatting"; py "other"].

(** What the script does to the outside, in the order it does it: the
    calls to Streamlit ([with_column] is the entry of [with col1:] or
    [with col2:]), to the Gemini client, and to the model. *)
Inductive event :=
  | st_error (body : str)
  | st_stop
  | genai_configure (api_key : str)
  | GenerativeModel (model_name : str)
  | st_set_page_config (page_title layout : str)
  | st_title (body : str)
  | st_selectbox (label : str) (options : list str)
  | st_columns (spec : nat)
  | with_column (index : nat)
  | st_text_area (label : str) (height : nat)
  | st_button (label : str)
  | st_warning (body : str)
  | st_spinner (text : str)
  | generate_content (prompt : str) (max_output_tokens : nat)
  | st_markdown (body : str) (unsafe_allow_html : bool).

(** How a run ends early: [st.stop()], or an exception out of the model
    call, which the script does not catch. *)
Inductive halt := StopException | GenerationFailure.

(** A run of the script: the events so far go in, the events so far and
    either a value or the reason of the halt come out. *)
Definition script (A : Type) : Type := list event → list event * (halt + A)%type.

#[global] Instance script_ret : MRet script := λ A x tr, (tr, inr x).
#[global] Instance script_bind : MBind script := λ A B f m tr,
  match m tr with
  | (tr', inr x) => f x tr'
  | (tr', inl h) => (tr', inl h)
  end.
Definition emit (e : event) : script unit := λ tr, (tr ++ [e], inr ()).
Definition raise {A} (h : halt) : script A := λ tr, (tr, inl h).

Definition styles : list str :=
  [py "Professional"; py "Friendly"; py "Light-hearted"; py "Concise";
   py "Empathetic"].

Definition height : nat := 400.

(** The polish prompt, an f-string over [style_choice] and [user_input]. *)
Definition polish_prompt (style_choice user_input : str) : str :=
  lines
    [ [];
      [];
      py "Instructions:";
      py "1. Rewrite the draft in the style the user selected (" ++ style_choice
        ++ py ").";
      py "2. Only change or polish sentences from the original draft that have grammar, spelling, tone, formatting, or other issues.";
      py "3. Wrap the entire original sentence that was changed with:";
      py "   <grammar>...</grammar>, <spelling>...</spelling>, <tone>...</tone>, <formatting>...</formatting>, or <other>...</other> as appropriate.";
      py "4. Do NOT add new sentences, repeat sentences, extra commentary, or explanations.";
      py "Draft:";
      user_input;
      [] ].

(** The classification prompt, an f-string over [sent]. *)
Definition classify_prompt (sent : str) : str :=
  lines
    [ [];
      py "Classify the type of fix made to this sentence compared to the original draft.";
      [];
      py "Sentence: " ++ quote ++ sent ++ quote;
      [];
      py "Categories: grammar, spelling, tone, formatting, other";
      py "Return only one category name.";
      [] ].

(** [f"{n}"] for a natural number. *)
Definition format_nat (n : nat) : str := py (NilEmpty.string_of_uint (Nat.to_uint n)).

(** The panel, an f-string over [height] and [polished_html]. *)
Definition box_html (polished_html : str) : str :=
  lines
    [ [];
      py "            <div style=" ++ quote;
      py "                padding:15px;";
      py "                border-radius:5px;";
      py "                min-height:" ++ format_nat height ++ py "px;";
      py "                white-space: pre-wrap;";
      py "                font-family: 'Courier New', monospace;";
      py "                color:black;";
      py "            " ++ quote ++ py ">";
      py "                " ++ polished_html;
      py "            </div>";
      py "            " ].

Definition legend : str :=
  lines
    [ py "### " ++ [128273%N] ++ py " Highlight Legend";
      py "- <span style='background-color:#ffcccc;'>Red</span>: Grammar fixes  ";
      py "- <span style='background-color:#cce5ff;'>Blue</span>: Spelling fixes  ";
      py "- <span style='background-color:#fff3cd;'>Yellow</span>: Tone/style adjustments  ";
      py "- <span style='background-color:#d5f5e3;'>Green</span>: Formatting fixes  ";
      py "- <span style='background-color:#e8d4f8;'>Purple</span>: Other fixes" ].

Section App.
(** [str.lower], whose Unicode case table is not reproduced here. *)
Variable lower : str → str.

(** The model: [response.text] of [model.generate_content], given
    everything the script has done up to and including the call; [None]
    when the call or the access raises. *)
Variable response_text : list event → option str.

(** What the user and the environment supply to one run. *)
Variable GEMINI_API_KEY : option str.
Variable style_choice : str.
Variable user_input : str.
Variable button : bool.

Definition gemini_generate (prompt : str) (max_output_tokens : nat) : script str :=
  λ tr,
    let tr := tr ++ [generate_content prompt max_output_tokens] in
    match response_text tr with
    | Some text => (tr, inr (strip text))
    | None => (tr, inl GenerationFailure)
    end.

(** Lines 121 to 123: from the answer of [gemini_generate] to the
    category that is stored. *)
Definition validate (answer : str) : str :=
  let category := lower answer in
  if bool_decide (category ∈ category_names) then category else py "other".

(** Step 3: the loop over [changed_sentences], which fills [categories]. *)
Fixpoint classify (changed_sentences : list str) (categories : gmap str str)
    : script (gmap str str) :=
  match changed_sentences with
  | [] => mret categories
  | sent :: rest =>
      answer ← gemini_generate (classify_prompt sent) 5;
      classify rest (<[strip sent := validate answer]> categories)
  end.

(** The body of [else:] under [if st.button("Polish"):].  The diff always
    returns (lemma [get_opcodes_tiles] below), so the branch [None] is never
    taken. *)
Definition polish : script unit :=
  emit (st_spinner (py "Polishing your text..."));;
  polished_text ← gemini_generate (polish_prompt style_choice user_input) 600;
  let orig_sentences := split_sentences user_input in
  let polished_sentences := split_sentences polished_text in
  match changed_sentences orig_sentences polished_sentences with
  | None => raise GenerationFailure
  | Some changed =>
      categories ← classify changed ∅;
      let polished_html := highlight_sentences polished_sentences categories in
      emit (with_column 2);;
      emit (st_markdown (box_html polished_html) true);;
      emit (st_markdown (py "---") false);;
      emit (st_markdown legend true)
  end.

(** The whole script, top to bottom. *)
Definition app_py : script unit :=
  match GEMINI_API_KEY with
  | Some ((_ :: _) as key) =>
      emit (genai_configure key);;
      emit (GenerativeModel (py "gemini-1.5-flash"));;
      emit (st_set_page_config (py "Professional Communication Assistant") (py "wide"));;
      emit (st_title ([128172%N] ++ py " Professional Communication Assistant"));;
      emit (st_selectbox (py "Choose polishing style:") styles);;
      emit (st_columns 2);;
      emit (with_column 1);;
      emit (st_text_area ([9997%N; 65039%N] ++ py " Your Draft") height);;
      emit (st_button (py "Polish"));;
      if button then
        if bool_decide (strip user_input = [])
        then emit (st_warning (py "Please enter some text first."))
        else polish
      else mret ()
  | _ =>
      emit (st_error ([9888%N; 65039%N]
        ++ py " Gemini API key not found. Please set GEMINI_API_KEY as an environment variable."));;
      emit st_stop;;
      raise StopException
  end.

(** The events of a run and how it ended. *)
Definition run : list event * (halt + unit) := app_py [].

End App.

Definition is_generate_content (e : event) : bool :=
  match e with generate_content _ _ => true | _ => false end.

Definition is_st_markdown (e : event) : bool :=
  match e with st_markdown _ _ => true | _ => false end.

(** The model calls of a trace. *)
Definition llm_calls (tr : list event) : list event :=
  List.filter is_generate_content tr.

(** A case-folding function that agrees with [str.lower] on ASCII text. *)
Definition ascii_lower (x : str) : str :=
  (λ c, if (65 <=? c) && (c <=? 90) then c + 32 else c)%N <$> x.

(** A model that answers every call with the same text. *)
Definition constant_model (text : str) : list event → option str :=
  λ _, Some text.

(** ** Vocabulary of the statements *)

Import difflib.

(** A run of whitespace. *)
Definition blank (w : str) : Prop := Forall (λ c, is_space c = true) w.

(** [segs[0] + seps[0] + segs[1] + ... ]: the segments with a separator
    between two neighbours. *)
Fixpoint interleave (segs seps : list str) : str :=
  match segs, seps with
  | s :: segs', w :: seps' => s ++ w ++ interleave segs' seps'
  | s :: _, [] => s
  | [], _ => []
  end.

(** No character of [[.!?]] is immediately followed by whitespace. *)
Fixpoint no_break (s : str) : bool :=
  match s with
  | c :: s' =>
      match s' with
      | d :: _ => negb (is_term c && is_space d) && no_break s'
      | [] => true
      end
  | [] => true
  end.

(** The last character is one of [[.!?]]. *)
Definition ends_term (s : str) : Prop :=
  ∃ s' c, s = s' ++ [c] ∧ is_term c = true.

(** The first character, if any, is not whitespace. *)
Definition starts_ok (s : str) : Prop :=
  match s with
  | c :: _ => is_space c = false
  | [] => True
  end.

(** Neither the first nor the last character is whitespace. *)
Definition trimmed (s : str) : Prop := starts_ok s ∧ starts_ok (rev s).

(** The characters that are not whitespace, in order. *)
Definition content (s : str) : str := List.filter (λ c, negb (is_space c)) s.

(** A block lies inside a rectangle of the comparison. *)
Definition inside (r : rect) (m : Match) : Prop :=
  let '(alo, ahi, blo, bhi) := r in
  let '(i, j, k) := m in
  alo ≤ i ∧ i + k ≤ ahi ∧ blo ≤ j ∧ j + k ≤ bhi.

(** What [j2len] holds once the rows [alo .. i-1] are done: lengths of
    matches that end in row [i-1] and stay inside the rectangle. *)
Definition j2len_ok (alo blo bhi i : nat) (j2len : gmap Z nat) : Prop :=
  ∀ z v, j2len !! z = Some v →
    ∃ j, z = Z.of_nat j ∧ blo ≤ j < bhi ∧ 1 ≤ v ∧ v ≤ i - alo ∧ v ≤ j + 1 - blo.

(** The work list of [get_matching_blocks] seen as a timeline: what is
    still to compare and what has been matched, from the start of both
    sequences to their end. *)
Inductive item := Pending (r : rect) | Found (m : Match).

Definition extent (it : item) : rect :=
  match it with
  | Pending r => r
  | Found (i, j, k) => (i, i + k, j, j + k)
  end.

(** [x] ends, in both sequences, where [y] starts or earlier. *)
Definition before (x y : rect) : Prop :=
  let '(_, xahi, _, xbhi) := x in
  let '(yalo, _, yblo, _) := y in
  xahi ≤ yalo ∧ xbhi ≤ yblo.

Definition item_before (x y : item) : Prop := before (extent x) (extent y).

Definition contains (r x : rect) : Prop :=
  let '(alo, ahi, blo, bhi) := r in
  let '(xalo, xahi, xblo, xbhi) := x in
  alo ≤ xalo ∧ xalo ≤ xahi ∧ xahi ≤ ahi ∧ blo ≤ xblo ∧ xblo ≤ xbhi ∧ xbhi ≤ bhi.

(** An item lies inside the two sequences; a matched block is not empty. *)
Definition item_ok (la lb : nat) (it : item) : Prop :=
  contains (0, la, 0, lb) (extent it)
  ∧ match it with Found (_, _, k) => 0 < k | Pending _ => True end.

Definition pending (it : item) : option rect :=
  match it with Pending r => Some r | Found _ => None end.

Definition found (it : item) : option Match :=
  match it with Found m => Some m | Pending _ => None end.

Record timeline (la lb : nat) (L : list item) (queue : list rect)
    (blocks : list Match) : Prop := {
  tl_sorted : StronglySorted item_before L;
  tl_ok : Forall (item_ok la lb) L;
  tl_queue : omap pending L ≡ₚ queue;
  tl_blocks : omap found L ≡ₚ blocks
}.

(** A bound on the iterations the work list still needs. *)
Definition rect_work (r : rect) : nat :=
  let '(alo, ahi, _, _) := r in 2 * (ahi - alo) + 1.

Definition work (queue : list rect) : nat := sum_list_with rect_work queue.

Definition opt {X} (c : bool) (x : X) : list X := if c then [x] else [].

(** What one iteration puts in place of the rectangle it took. *)
Definition subdivide (r : rect) (m : Match) : list item :=
  let '(alo, ahi, blo, bhi) := r in
  let '(i, j, k) := m in
  (Pending <$> opt ((alo <? i) && (blo <? j)) (alo, i, blo, j))
  ++ [Found m]
  ++ (Pending <$> opt ((i + k <? ahi) && (j + k <? bhi)) (i + k, ahi, j + k, bhi)).

Definition block_before (x y : Match) : Prop := item_before (Found x) (Found y).

(** A block of the final list: inside the two sequences and not empty. *)
Definition block_ok (la lb : nat) (m : Match) : Prop := item_ok la lb (Found m).

(** The block the merging loop holds, unless it is the dummy it starts with. *)
Definition live (cur : Match) : list Match := if cur.2 =? 0 then [] else [cur].

(** Read from the position [(i, j)], the blocks go forward in both
    sequences: each starts where the one before it ends, or later. *)
Fixpoint monotone (i j : nat) (blocks : list Match) : Prop :=
  match blocks with
  | [] => True
  | (ai, bj, size) :: rest =>
      i ≤ ai ∧ j ≤ bj ∧ monotone (ai + size) (bj + size) rest
  end.

(** The opcodes lead from [(i, j)] to [(i', j')] without a gap and without
    an overlap, in both sequences. *)
Fixpoint tiles (i j : nat) (ops : list opcode) (i' j' : nat) : Prop :=
  match ops with
  | [] => i = i' ∧ j = j'
  | op :: rest =>
      i1 op = i ∧ j1 op = j ∧ i ≤ i2 op ∧ j ≤ j2 op
      ∧ tiles (i2 op) (j2 op) rest i' j'
  end.

(** The position [p] of the second sequence lies in the span [j1:j2] of
    the opcode. *)
Definition covers (p : nat) (op : opcode) : bool :=
  (j1 op <=? p) && (p <? j2 op).

Definition is_equal (op : opcode) : bool :=
  match op_tag op with equal => true | _ => false end.

(** [p] lies in the span of an opcode tagged ["equal"]. *)
Definition in_equal_span (ops : list opcode) (p : nat) : bool :=
  existsb (λ op, is_equal op && covers p op) ops.

(** [p] lies in the span of an opcode with another tag. *)
Definition in_changed_span (ops : list opcode) (p : nat) : bool :=
  existsb (λ op, negb (is_equal op) && covers p op) ops.

(** The positions [j1 .. j2-1] of the opcode. *)
Definition b_span (op : opcode) : list nat := seq (j1 op) (j2 op - j1 op).

(** The elements of [l] whose position, counted from [p], passes [keep];
    order and repetitions are those of [l]. *)
Fixpoint select_from {X} (keep : nat → bool) (p : nat) (l : list X) : list X :=
  match l with
  | [] => []
  | x :: l' =>
      if keep p then x :: select_from keep (S p) l'
      else select_from keep (S p) l'
  end.

Definition select {X} (keep : nat → bool) (l : list X) : list X :=
  select_from keep 0 l.

(** What [__chain_b] leaves in [b2j]: under an element, its positions in
    [b], in increasing order. *)
Definition b2j_ok {A} `{Countable A} (b : list A) (m : gmap A (list nat)) : Prop :=
  ∀ x js, m !! x = Some js →
    StronglySorted lt js ∧ ∀ j, j ∈ js ↔ b !! j = Some x.

(** The element at position [i] of [a] is a key of [b2j]. *)
Definition indexed {A} `{Countable A} (self : SequenceMatcher A) (i : nat) : bool :=
  match seq_a self !! i with
  | Some x => bool_decide (is_Some (b2j self !! x))
  | None => false
  end.

(** The length of the run of positions passing [ok] that ends at [i]. *)
Fixpoint run_length (ok : nat → bool) (i : nat) : nat :=
  match i with
  | 0 => if ok 0 then 1 else 0
  | S i' => if ok i then S (run_length ok i') else 0
  end.

(** The entries of [j2len] for the row [i], when a sequence is compared
    with itself: a match that ends at [(i, j)] is no longer than the runs
    of indexed positions that end at [i] and at [j]. *)
Definition j2len_runs (ok : nat → bool) (i : nat) (m : gmap Z nat) : Prop :=
  ∀ z v, m !! z = Some v →
    ∃ j, z = Z.of_nat j ∧ v ≤ run_length ok j ∧ v ≤ run_length ok i.

(** The state of the search after the rows [0 .. i-1], when a sequence is
    compared with itself: the best match is on the diagonal and is as long
    as the longest run so far. *)
Record row_inv (ok : nat → bool) (i : nat) (st : gmap Z nat * Match) : Prop := {
  row_diag : st.2.1.1 = st.2.1.2;
  row_best : ∀ i', i' < i → run_length ok i' ≤ st.2.2;
  row_j2len : ∀ z v, st.1 !! z = Some v →
    ∃ i0, i = S i0 ∧ ∃ j, z = Z.of_nat j ∧ v ≤ run_length ok j ∧ v ≤ run_length ok i0;
  row_last : ∀ i0, i = S i0 → ok i0 = true →
    st.1 !! Z.of_nat i0 = Some (run_length ok i0)
}.

(** What the script does before it looks at the button, once the key is
    there. *)
Definition setup_events (key : str) : list event :=
  [ genai_configure key;
    GenerativeModel (py "gemini-1.5-flash");
    st_set_page_config (py "Professional Communication Assistant") (py "wide");
    st_title ([128172%N] ++ py " Professional Communication Assistant");
    st_selectbox (py "Choose polishing style:") styles;
    st_columns 2;
    with_column 1;
    st_text_area ([9997%N; 65039%N] ++ py " Your Draft") height;
    st_button (py "Polish") ].

(** The classification requests for a list of sentences, one each. *)
Definition classification_calls (sentences : list str) : list event :=
  (λ sent, generate_content (classify_prompt sent) 5) <$> sentences.

(** The panel and the legend. *)
Definition panel_events (polished_html : str) : list event :=
  [ with_column 2;
    st_markdown (box_html polished_html) true;
    st_markdown (py "---") false;
    st_markdown legend true ].

(** The display colour of each category. *)
Definition category_colors : list (str * str) :=
  [ (py "grammar", py "#ffcccc");
    (py "spelling", py "#cce5ff");
    (py "tone", py "#fff3cd");
    (py "formatting", py "#d5f5e3");
    (py "other", py "#e8d4f8") ].

(** The number of distinct sentences, compared by their trimmed text. *)
Definition distinct (sentences : list str) : nat :=
  length (remove_dups (strip <$> sentences)).

(** A model that answers the polish request with one text and every
    classification request with another. *)
Definition two_answer_model (polished category : str) : list event → option str :=
  λ tr, match last tr with
        | Some (generate_content _ 600) => Some polished
        | _ => Some category
        end.

(** A sentence inside the styling span of a colour. *)
Definition styled (color sent : str) : str :=
  py "<span style='background-color:" ++ color ++ py ";'>" ++ sent ++ py "</span>".

(** A model whose answer depends on how many events came before: one
    text up to a given number of events, another after. *)
Definition switching_model (n : nat) (first second : str) : list event → option str :=
  λ tr, if length tr <=? n then Some first else Some second.

(** The block is a run common to the two sequences: the elements of [a]
    from [i] and those of [b] from [j] agree over its length. *)
Definition matches {A} (a b : list A) (m : Match) : Prop :=
  let '(i, j, k) := m in ∀ d, d < k → a !! (i + d) = b !! (j + d).

(** The entries of [j2len] once [i] rows are done: the length [v] under
    the key [j] is that of a common run that ends at [(i-1, j)]. *)
Definition j2len_matches {A} (a b : list A) (i : nat) (j2len : gmap Z nat) : Prop :=
  ∀ z v, j2len !! z = Some v →
    ∃ j, z = Z.of_nat j ∧ 1 ≤ v ∧ v ≤ i ∧ v ≤ j + 1
      ∧ ∀ d, d < v → a !! (i - 1 - d) = b !! (j - d).

(** The spans of the opcode fit its tag. *)
Definition well_tagged (op : opcode) : Prop :=
  match op_tag op with
  | replace => i1 op < i2 op ∧ j1 op < j2 op
  | delete => i1 op < i2 op ∧ j1 op = j2 op
  | insert => i1 op = i2 op ∧ j1 op < j2 op
  | equal => i1 op < i2 op ∧ i2 op - i1 op = j2 op - j1 op
  end.

(** The two spans of an opcode tagged ["equal"] hold the same elements. *)
Definition equal_ok {A} (a b : list A) (op : opcode) : Prop :=
  is_equal op = true → ∀ d, d < j2 op - j1 op → a !! (i1 op + d) = b !! (j1 op + d).

(** The positions [i1 .. i2-1] of the opcode in the first sequence. *)
Definition a_span (op : opcode) : list nat := seq (i1 op) (i2 op - i1 op).

(** The events of [polish] up to the polish request. *)
Definition polish_call (style_choice user_input : str) : list event :=
  [ st_spinner (py "Polishing your text...");
    generate_content (polish_prompt style_choice user_input) 600 ].

(** A model that answers with one text as long as the script has done at
    most [n] things, and fails after that. *)
Definition failing_after (n : nat) (text : str) : list event → option str :=
  λ tr, if length tr <=? n then Some text else None.

(** ** Strings: [strip] *)

Lemma is_term_not_space c : is_term c = true → is_space c = false.
Proof.
  unfold is_term. intros Hc.
  repeat (apply orb_prop in Hc as [Hc|Hc]); apply N.eqb_eq in Hc; subst; reflexivity.
Qed.

Lemma lstrip_spec t :
  ∃ w, t = w ++ lstrip t ∧ blank w ∧ starts_ok (lstrip t).
Proof.
  induction t as [|c t IH]; simpl.
  - exists []. repeat split; constructor.
  - destruct (is_space c) eqn:Hc.
    + destruct IH as (w & Ht & Hw & Hs). exists (c :: w). repeat split; auto.
      * simpl. congruence.
      * constructor; auto.
    + exists []. repeat split; [constructor | exact Hc].
Qed.

Lemma lstrip_starts_ok t : starts_ok t → lstrip t = t.
Proof. destruct t as [|c t]; simpl; [done|]. by intros ->. Qed.

Lemma starts_ok_app_l s u : s ≠ [] → starts_ok (s ++ u) ↔ starts_ok s.
Proof. destruct s; [done|]. reflexivity. Qed.

Lemma rstrip_spec t :
  ∃ w, t = rstrip t ++ w ∧ blank w ∧ starts_ok (rev (rstrip t)).
Proof.
  unfold rstrip. destruct (lstrip_spec (rev t)) as (w & Ht & Hw & Hs).
  exists (rev w). repeat split.
  - rewrite <- rev_app_distr, <- Ht. by rewrite rev_involutive.
  - unfold blank. by apply Forall_rev.
  - by rewrite rev_involutive.
Qed.

Lemma rstrip_keeps_start t : starts_ok t → starts_ok (rstrip t).
Proof.
  intros Hs. destruct (rstrip_spec t) as (w & Ht & Hw & _).
  destruct (rstrip t) as [|c r] eqn:Hr; [done|].
  rewrite Ht in Hs. exact Hs.
Qed.

(** [strip] removes a run of whitespace on each side and nothing else. *)
Lemma strip_spec text :
  ∃ lead trail, text = lead ++ strip text ++ trail
    ∧ blank lead ∧ blank trail ∧ trimmed (strip text).
Proof.
  unfold strip.
  destruct (lstrip_spec text) as (lead & Ht & Hl & Hs).
  destruct (rstrip_spec (lstrip text)) as (trail & Ht' & Htr & He).
  exists lead, trail. repeat split; auto.
  - rewrite <- Ht'. exact Ht.
  - by apply rstrip_keeps_start.
Qed.

Lemma strip_trimmed s : trimmed s → strip s = s.
Proof.
  intros [Hs He]. unfold strip. rewrite (lstrip_starts_ok _ Hs).
  unfold rstrip. rewrite (lstrip_starts_ok _ He). apply rev_involutive.
Qed.

Lemma trimmed_strip s : strip s = s → trimmed s.
Proof.
  intros Hs. destruct (strip_spec s) as (_ & _ & _ & _ & _ & Ht).
  by rewrite Hs in Ht.
Qed.

Lemma content_app s u : content (s ++ u) = content s ++ content u.
Proof. apply List.filter_app. Qed.

Lemma content_blank w : blank w → content w = [].
Proof.
  induction 1 as [|c w Hc _ IH]; [done|]. simpl. by rewrite Hc.
Qed.

(** ** Sentence splitting: the shape of the result *)

Definition separator (w : str) : Prop := w ≠ [] ∧ blank w.

Lemma re_split_nonempty in_sep prev t :
  ∃ s r, re_split in_sep prev t = s :: r.
Proof.
  revert in_sep prev. induction t as [|c t IH]; intros in_sep prev; simpl; [by eauto|].
  destruct (is_space c).
  - destruct in_sep; [apply IH|]. destruct prev; [by eauto|].
    destruct (IH false false) as (s & r & ->). simpl. eauto.
  - destruct (IH false (is_term c)) as (s & r & ->). simpl. eauto.
Qed.

Lemma interleave_push c s r seps :
  interleave (push c (s :: r)) seps = c :: interleave (s :: r) seps.
Proof. simpl. by destruct seps. Qed.

Lemma push_length c s r : length (push c (s :: r)) = length (s :: r).
Proof. reflexivity. Qed.

(** The scan loses nothing: the text is the segments with the matches of
    [\s+] between them, after the whitespace the scan was still inside. *)
Lemma re_split_interleave t : ∀ in_sep prev,
  ∃ w0 seps,
    t = w0 ++ interleave (re_split in_sep prev t) seps
    ∧ blank w0 ∧ (in_sep = false → w0 = [])
    ∧ length (re_split in_sep prev t) = S (length seps)
    ∧ Forall separator seps.
Proof.
  induction t as [|c t IH]; intros in_sep prev; simpl.
  { exists [], []. repeat split; constructor. }
  destruct (is_space c) eqn:Hc.
  - destruct in_sep.
    + destruct (IH true false) as (w0 & seps & Ht & Hw & _ & Hlen & Hseps).
      exists (c :: w0), seps. repeat split; auto.
      * simpl. by rewrite <- Ht.
      * by constructor.
      * done.
    + destruct prev.
      * destruct (IH true false) as (w0 & seps & Ht & Hw & _ & Hlen & Hseps).
        exists [], ((c :: w0) :: seps). repeat split; auto.
        -- destruct (re_split_nonempty true false t) as (s & r & Hr).
           rewrite Hr in *. simpl in *. congruence.
        -- constructor.
        -- simpl. by rewrite Hlen.
        -- constructor; [|done]. split; [done|]. by constructor.
      * destruct (IH false false) as (w0 & seps & Ht & _ & Hw0 & Hlen & Hseps).
        rewrite (Hw0 eq_refl) in Ht. simpl in Ht.
        destruct (re_split_nonempty false false t) as (s & r & Hr).
        rewrite Hr in *. exists [], seps. repeat split; auto.
        -- rewrite interleave_push. simpl in *. congruence.
        -- constructor.
  - destruct (IH false (is_term c)) as (w0 & seps & Ht & _ & Hw0 & Hlen & Hseps).
    rewrite (Hw0 eq_refl) in Ht. simpl in Ht.
    destruct (re_split_nonempty false (is_term c) t) as (s & r & Hr).
    rewrite Hr in *. exists [], seps. repeat split; auto.
    + rewrite interleave_push. simpl in *. congruence.
    + constructor.
Qed.

(** Every match starts right after a character of [[.!?]]: a segment that
    has a successor ends with one (the head segment may instead be empty,
    when the scan starts right after such a character). *)
Lemma re_split_ends t : ∀ in_sep prev s r,
  re_split in_sep prev t = s :: r →
  (r ≠ [] → ends_term s ∨ (s = [] ∧ prev = true ∧ in_sep = false))
  ∧ ∀ r' x, r = r' ++ [x] → Forall ends_term r'.
Proof.
  assert (Hsnoc : ∀ (r r' : list str) x, r = r' ++ [x] → r ≠ []).
  { intros r r' x ->. by destruct r'. }
  assert (Hpush : ∀ c s, (is_term c = true ∨ ends_term s) → s = [] ∨ ends_term s →
     ends_term (c :: s)).
  { intros c s H1 [->|(s' & d & -> & Hd)].
    - destruct H1 as [H1|(s' & d & Hs & Hd)]; [by exists [], c|].
      by destruct s'.
    - by exists (c :: s'), d. }
  induction t as [|c t IH]; intros in_sep prev s r; simpl.
  { intros [= <- <-]. split; [done|]. intros [|??] ? ?; discriminate. }
  destruct (is_space c) eqn:Hc.
  - destruct in_sep.
    + intros Hr. destruct (IH _ _ _ _ Hr) as [H1 H2]. split; [|done].
      intros Hne. destruct (H1 Hne) as [?|(_ & ? & _)]; [by left|done].
    + destruct prev.
      * intros [= <- <-]. split; [by right|].
        intros r' x Hr.
        destruct (re_split_nonempty true false t) as (s' & r0 & Hr0).
        rewrite Hr0 in Hr. destruct (IH _ _ _ _ Hr0) as [H1 H2].
        destruct r' as [|y r']; [constructor|].
        simpl in Hr. injection Hr as <- ->.
        constructor; [|by eapply H2].
        destruct H1 as [?|(_ & ? & _)]; [by eapply Hsnoc|done|done].
      * destruct (re_split_nonempty false false t) as (s' & r0 & Hr0).
        rewrite Hr0. simpl. intros [= <- <-].
        destruct (IH _ _ _ _ Hr0) as [H1 H2]. split; [|done].
        intros Hne. left. destruct (H1 Hne) as [?|(_ & ? & _)]; [|done].
        apply Hpush; auto.
  - destruct (re_split_nonempty false (is_term c) t) as (s' & r0 & Hr0).
    rewrite Hr0. simpl. intros [= <- <-].
    destruct (IH _ _ _ _ Hr0) as [H1 H2]. split; [|done].
    intros Hne. left. destruct (H1 Hne) as [?|(-> & ? & _)].
    + apply Hpush; auto.
    + by exists [], c.
Qed.

(** [\s+] is greedy: what follows a match does not start with whitespace. *)
Lemma re_split_starts t : ∀ in_sep prev s r,
  re_split in_sep prev t = s :: r →
  (in_sep = true → starts_ok s) ∧ Forall starts_ok r.
Proof.
  induction t as [|c t IH]; intros in_sep prev s r; simpl.
  { intros [= <- <-]. by split. }
  destruct (is_space c) eqn:Hc.
  - destruct in_sep; [apply IH|].
    destruct prev.
    + intros [= <- <-]. split; [done|].
      destruct (re_split_nonempty true false t) as (s' & r0 & Hr0).
      rewrite Hr0. destruct (IH _ _ _ _ Hr0) as [H1 H2].
      constructor; auto.
    + destruct (re_split_nonempty false false t) as (s' & r0 & Hr0).
      rewrite Hr0. simpl. intros [= <- <-].
      destruct (IH _ _ _ _ Hr0) as [_ H2]. by split.
  - destruct (re_split_nonempty false (is_term c) t) as (s' & r0 & Hr0).
    rewrite Hr0. simpl. intros [= <- <-].
    destruct (IH _ _ _ _ Hr0) as [_ H2]. by split.
Qed.

(** The leftmost match is taken each time: no segment contains a place
    where the pattern matches. *)
Lemma re_split_no_break t : ∀ in_sep prev s r,
  re_split in_sep prev t = s :: r →
  (in_sep = false → prev = true → starts_ok s)
  ∧ no_break s = true ∧ Forall (λ x, no_break x = true) r.
Proof.
  induction t as [|c t IH]; intros in_sep prev s r; simpl.
  { intros [= <- <-]. by repeat split. }
  destruct (is_space c) eqn:Hc.
  - destruct in_sep.
    + intros Hr. destruct (IH _ _ _ _ Hr) as (_ & H2 & H3). by repeat split.
    + destruct prev.
      * intros [= <- <-]. repeat split; [done..|].
        destruct (re_split_nonempty true false t) as (s' & r0 & Hr0).
        rewrite Hr0. destruct (IH _ _ _ _ Hr0) as (_ & H2 & H3).
        by constructor.
      * destruct (re_split_nonempty false false t) as (s' & r0 & Hr0).
        rewrite Hr0. simpl. intros [= <- <-].
        destruct (IH _ _ _ _ Hr0) as (_ & H2 & H3). repeat split; [done| |done].
        simpl. destruct s'; [done|].
        assert (is_term c = false) as ->.
        { destruct (is_term c) eqn:E; [|done].
          apply is_term_not_space in E. congruence. }
        done.
  - destruct (re_split_nonempty false (is_term c) t) as (s' & r0 & Hr0).
    rewrite Hr0. simpl. intros [= <- <-].
    destruct (IH _ _ _ _ Hr0) as (H1 & H2 & H3). repeat split; [done| |done].
    simpl. destruct s' as [|d s']; [done|].
    apply andb_true_intro. split; [|done].
    destruct (is_term c) eqn:E; [|done].
    simpl. simpl in H1. by rewrite (H1 eq_refl eq_refl).
Qed.

Lemma interleave_snoc segs : ∀ seps x,
  length segs = length seps →
  ∃ pre, interleave (segs ++ [x]) seps = pre ++ x.
Proof.
  induction segs as [|s segs IH]; intros [|w seps] x Hlen; try discriminate.
  - by exists [].
  - injection Hlen as Hlen. destruct (IH seps x Hlen) as (pre & Hpre).
    exists (s ++ w ++ pre). simpl.
    change (s ++ w ++ interleave (segs ++ [x]) seps = (s ++ w ++ pre) ++ x).
    rewrite Hpre. by rewrite <- !app_assoc.
Qed.

Lemma ends_term_rev s : ends_term s → starts_ok (rev s).
Proof.
  intros (s' & c & -> & Hc). rewrite rev_app_distr. simpl.
  by apply is_term_not_space.
Qed.

Lemma snoc_cases {X} (l : list X) : l = [] ∨ ∃ l' x, l = l' ++ [x].
Proof.
  induction l as [|y l IH] using rev_ind; [by left|]. right. eauto.
Qed.

(** The segments of a stripped text carry no whitespace at either end. *)
Lemma split_sentences_trimmed text : Forall trimmed (split_sentences text).
Proof.
  unfold split_sentences.
  destruct (strip_spec text) as (_ & _ & _ & _ & _ & Hs & He).
  set (t := strip text) in *. clearbody t.
  destruct (re_split_interleave t false false)
    as (w0 & seps & Ht & _ & Hw0 & Hlen & Hseps).
  rewrite (Hw0 eq_refl) in Ht. simpl in Ht.
  destruct (re_split_nonempty false false t) as (s & r & Hr).
  rewrite Hr in *.
  destruct (re_split_ends _ _ _ _ _ Hr) as [Hend1 Hend2].
  destruct (re_split_starts _ _ _ _ _ Hr) as [_ Hst].
  assert (Hlast : ∀ segs x, s :: r = segs ++ [x] → starts_ok (rev x)).
  { intros segs x Hsx. destruct x as [|c x]; [done|].
    destruct (interleave_snoc segs seps (c :: x)) as (pre & Hpre).
    { apply (f_equal length) in Hsx. rewrite length_app in Hsx.
      simpl in *. lia. }
    rewrite Hsx, Hpre in Ht. rewrite Ht, rev_app_distr in He.
    destruct (rev (c :: x)) eqn:Hrev; [done|]. exact He. }
  constructor.
  - split.
    + destruct s; [done|]. rewrite Ht in Hs. simpl in Hs. by destruct seps.
    + destruct r as [|y r]; [by apply (Hlast [])|].
      destruct Hend1 as [H1|(_ & ? & _)]; [done| |done]. by apply ends_term_rev.
  - apply Forall_forall. intros x Hx. split.
    + by eapply Forall_forall in Hst.
    + apply list_elem_of_split in Hx as (r1 & r2 & ->).
      destruct (snoc_cases r2) as [->|(r2' & z & ->)].
      * by apply (Hlast (s :: r1)).
      * apply ends_term_rev.
        specialize (Hend2 (r1 ++ x :: r2') z).
        rewrite <- app_assoc in Hend2. specialize (Hend2 eq_refl).
        apply Forall_app in Hend2 as [_ Hend2]. by inversion Hend2.
Qed.

Lemma no_break_app s u : no_break (s ++ u) = true → no_break s = true ∧ no_break u = true.
Proof.
  induction s as [|c s IH]; [done|]. simpl.
  destruct s as [|d s]; simpl.
  - destruct u; [done|]. intros [_ ?]%andb_prop. done.
  - intros [H1 H2]%andb_prop. destruct (IH H2) as [H3 H4].
    split; [|done]. by apply andb_true_intro.
Qed.

(** Without a place to break at, the text is one segment. *)
Lemma re_split_single t : ∀ prev,
  no_break t = true → (prev = true → starts_ok t) →
  re_split false prev t = [t].
Proof.
  induction t as [|c t IH]; intros prev Hnb Hst; [done|].
  simpl. destruct (is_space c) eqn:Hc.
  - destruct prev.
    + simpl in Hst. rewrite (Hst eq_refl) in Hc. discriminate.
    + rewrite (IH false); [done| |done].
      simpl in Hnb. destruct t; [done|]. by apply andb_prop in Hnb as [_ ?].
  - rewrite (IH (is_term c)); [done| |].
    + simpl in Hnb. destruct t; [done|]. by apply andb_prop in Hnb as [_ ?].
    + intros Hterm. simpl in Hnb. destruct t as [|d t]; [done|].
      apply andb_prop in Hnb as [Hcd _]. rewrite Hterm in Hcd. simpl in Hcd.
      simpl. by destruct (is_space d).
Qed.

Lemma join_interleave sep segs : ∀ seps : list str,
  length segs = S (length seps) →
  join sep segs = interleave segs ((λ _, sep) <$> seps).
Proof.
  induction segs as [|s segs IH]; intros seps Hlen; [done|].
  destruct seps as [|w seps].
  - destruct segs; [done | simpl in Hlen; lia].
  - destruct segs as [|s' segs]; [simpl in Hlen; lia|].
    injection Hlen as Hlen.
    change (s ++ sep ++ join sep (s' :: segs)
            = s ++ sep ++ interleave (s' :: segs) ((λ _, sep) <$> seps)).
    rewrite (IH seps); [done|]. simpl in *. lia.
Qed.

Lemma content_interleave segs : ∀ seps,
  Forall blank seps →
  content (interleave segs seps) = concat (content <$> segs)
  ∨ length segs ≠ S (length seps).
Proof.
  induction segs as [|s segs IH]; intros seps Hseps; [by right|].
  destruct seps as [|w seps].
  - destruct segs; [left|by right]. simpl. by rewrite app_nil_r.
  - inversion_clear Hseps as [|?? Hw Hseps'].
    destruct (IH seps Hseps') as [IH'|Hne]; [left|right; simpl in *; lia].
    change (content (s ++ w ++ interleave segs seps)
            = content s ++ concat (content <$> segs)).
    rewrite !content_app, (content_blank w Hw), IH'. done.
Qed.

(** The segments, with the matched runs of whitespace between them, are the
    trimmed text. *)
Lemma split_sentences_interleave (text : str) :
  ∃ seps,
    strip text = interleave (split_sentences text) seps
    ∧ length (split_sentences text) = S (length seps)
    ∧ Forall separator seps.
Proof.
  unfold split_sentences.
  destruct (re_split_interleave (strip text) false false)
    as (w0 & seps & Ht & _ & Hw0 & Hlen & Hseps).
  rewrite (Hw0 eq_refl) in Ht. by exists seps.
Qed.

(** ** Sentence splitting: the result is the only one of its shape *)

Lemma strip_blank (text : str) : strip text = [] ↔ blank text.
Proof.
  split.
  - intros Hs. destruct (strip_spec text) as (lead & trail & Ht & Hl & Htr & _).
    rewrite Hs in Ht. rewrite Ht. by apply Forall_app.
  - intros Hb. unfold strip.
    assert (lstrip text = []) as ->; [|done].
    induction Hb as [|c w Hc _ IH]; [done|]. simpl. by rewrite Hc.
Qed.

Lemma strip_strip (text : str) : strip (strip text) = strip text.
Proof.
  apply strip_trimmed. by destruct (strip_spec text) as (_ & _ & _ & _ & _ & ?).
Qed.

Lemma split_sentences_no_break (text : str) :
  Forall (λ s, no_break s = true) (split_sentences text).
Proof.
  unfold split_sentences.
  destruct (re_split_nonempty false false (strip text)) as (s & r & Hr).
  rewrite Hr. destruct (re_split_no_break _ _ _ _ _ Hr) as (_ & H2 & H3).
  by constructor.
Qed.

Lemma split_sentences_ends (text : str) :
  Forall ends_term (removelast (split_sentences text)).
Proof.
  unfold split_sentences.
  destruct (re_split_nonempty false false (strip text)) as (s & r & Hr).
  rewrite Hr. destruct (re_split_ends _ _ _ _ _ Hr) as [H1 H2].
  destruct (snoc_cases r) as [->|(r' & x & ->)]; [constructor|].
  rewrite app_comm_cons, removelast_last. constructor.
  - destruct H1 as [?|(_ & ? & _)]; [by destruct r'|done|done].
  - by apply (H2 r' x).
Qed.

Lemma ends_term_nonempty s : ends_term s → s ≠ [].
Proof. intros (s' & c & -> & _). by destruct s'. Qed.

Lemma ends_term_tail c s : s ≠ [] → ends_term (c :: s) → ends_term s.
Proof.
  intros Hs (s' & t & Heq & Ht). destruct s' as [|c' s'].
  - injection Heq as _ ->. done.
  - injection Heq as _ ->. by exists s', t.
Qed.

(** After a match has begun, the rest of its whitespace is skipped. *)
Lemma re_split_skip w rest :
  blank w → starts_ok rest →
  re_split true false (w ++ rest) = re_split false false rest.
Proof.
  intros Hw Hrest. induction Hw as [|c w Hc _ IH]; simpl.
  - destruct rest as [|c rest]; [done|]. simpl in *. by rewrite Hrest.
  - by rewrite Hc.
Qed.

(** A segment without a place to cut at, followed by a separator, comes
    out as it is. *)
Lemma re_split_segment s : ∀ prev w rest,
  no_break s = true → ends_term s → (prev = true → starts_ok s) →
  separator w → starts_ok rest →
  re_split false prev (s ++ w ++ rest) = s :: re_split false false rest.
Proof.
  induction s as [|c s IH]; intros prev w rest Hnb Hend Hst [Hw Hblank] Hrest.
  { by apply ends_term_nonempty in Hend. }
  destruct s as [|d s].
  - destruct Hend as (s' & t & Heq & Ht).
    assert (t = c) as ->.
    { destruct s' as [|x s']; simpl in Heq; [by injection Heq|].
      injection Heq as _ Heq. by destruct s'. }
    pose proof (is_term_not_space c Ht) as Hc.
    simpl. rewrite Hc, Ht.
    inversion Hblank as [|e w' He Hw' Heq']; subst; [done|].
    simpl. rewrite He. rewrite re_split_skip by done. done.
  - assert (Hnb' : no_break (d :: s) = true).
    { simpl in Hnb. by apply andb_prop in Hnb as [_ ?]. }
    assert (Hend' : ends_term (d :: s)) by (by eapply ends_term_tail).
    change ((c :: d :: s) ++ w ++ rest) with (c :: ((d :: s) ++ w ++ rest)).
    cbn [re_split]. destruct (is_space c) eqn:Hc.
    + destruct prev; [simpl in Hst; rewrite (Hst eq_refl) in Hc; done|].
      rewrite (IH false w rest); [done..| |done|done]. by intros [=].
    + rewrite (IH (is_term c) w rest); [done..| |done|done].
      intros Ht. simpl in Hnb. apply andb_prop in Hnb as [Hcd _].
      rewrite Ht in Hcd. simpl in *. by destruct (is_space d).
Qed.

Lemma interleave_starts_ok segs seps :
  length segs = S (length seps) →
  Forall starts_ok segs → Forall ends_term (removelast segs) →
  starts_ok (interleave segs seps).
Proof.
  intros Hlen Hst Hend. destruct segs as [|s segs]; [done|].
  apply Forall_cons in Hst as [Hs _].
  destruct seps as [|w seps]; [exact Hs|].
  destruct s as [|c s]; [|exact Hs].
  destruct segs as [|s' segs]; [simpl in Hlen; lia|]. simpl in Hend.
  apply Forall_cons in Hend as [Hend _]. by apply ends_term_nonempty in Hend.
Qed.

(** [re.split] gives back any list of segments of the right shape. *)
Lemma re_split_interleave_inv segs : ∀ seps,
  length segs = S (length seps) →
  Forall separator seps →
  Forall (λ s, no_break s = true) segs →
  Forall starts_ok segs →
  Forall ends_term (removelast segs) →
  re_split false false (interleave segs seps) = segs.
Proof.
  induction segs as [|s segs IH]; intros seps Hlen Hseps Hnb Hst Hend; [done|].
  apply Forall_cons in Hnb as [Hnb1 Hnb], Hst as [Hst1 Hst].
  destruct seps as [|w seps].
  - destruct segs; [|simpl in Hlen; lia]. simpl. by apply re_split_single.
  - destruct segs as [|s' segs]; [simpl in Hlen; lia|].
    apply Forall_cons in Hseps as [Hw Hseps].
    change (removelast (s :: s' :: segs)) with (s :: removelast (s' :: segs)) in Hend.
    apply Forall_cons in Hend as [Hend1 Hend].
    change (interleave (s :: s' :: segs) (w :: seps))
      with (s ++ w ++ interleave (s' :: segs) seps).
    rewrite re_split_segment; [|done..| |done|].
    + f_equal. apply IH; [simpl in *; lia|done..].
    + by intros [=].
    + apply interleave_starts_ok; [simpl in *; lia|done..].
Qed.

Lemma interleave_trimmed segs seps :
  length segs = S (length seps) →
  Forall (λ s, s ≠ [] ∧ trimmed s) segs →
  trimmed (interleave segs seps) ∧ Forall starts_ok segs.
Proof.
  intros Hlen Hsegs.
  assert (Hst : Forall starts_ok segs).
  { eapply Forall_impl; [exact Hsegs|]. by intros s (_ & ? & _). }
  split; [|done]. split.
  - destruct segs as [|s segs]; [done|].
    apply Forall_cons in Hsegs as [(Hs & Hs1 & _) _].
    destruct s; [done|]. by destruct seps.
  - destruct (snoc_cases segs) as [->|(segs' & x & ->)]; [done|].
    apply Forall_app in Hsegs as [_ Hx].
    apply Forall_cons in Hx as [(Hx & _ & Hx2) _].
    destruct (interleave_snoc segs' seps x) as (pre & Hpre).
    { unfold str in *. rewrite !length_app in Hlen. simpl in Hlen. lia. }
    unfold str in *. rewrite Hpre.
    rewrite rev_app_distr. destruct (rev x) eqn:Hrev; [|exact Hx2].
    apply (f_equal (@rev _)) in Hrev. rewrite rev_involutive in Hrev. done.
Qed.

Lemma split_sentences_interleave_inv segs seps :
  length segs = S (length seps) →
  Forall separator seps →
  Forall (λ s, s ≠ [] ∧ strip s = s ∧ no_break s = true) segs →
  Forall ends_term (removelast segs) →
  split_sentences (interleave segs seps) = segs.
Proof.
  intros Hlen Hseps Hsegs Hend.
  destruct (interleave_trimmed segs seps Hlen) as [Ht Hst].
  { eapply Forall_impl; [exact Hsegs|]. intros s (? & ? & _).
    split; [done|]. by apply trimmed_strip. }
  unfold split_sentences. rewrite (strip_trimmed _ Ht).
  apply re_split_interleave_inv; try done.
  eapply Forall_impl; [exact Hsegs|]. by intros s (_ & _ & ?).
Qed.

Lemma split_sentences_nonempty_segments (text : str) :
  ¬ blank text → Forall (λ s, s ≠ []) (split_sentences text).
Proof.
  intros Hnb.
  destruct (split_sentences_interleave text) as (seps & Ht & Hlen & Hseps).
  pose proof (split_sentences_ends text) as Hend.
  destruct (strip_spec text) as (_ & _ & _ & _ & _ & _ & Htr).
  destruct (snoc_cases (split_sentences text)) as [Hnil|(segs & x & Hx)].
  { rewrite Hnil in Hlen. discriminate. }
  rewrite Hx in *. rewrite removelast_last in Hend. unfold str in *.
  apply Forall_app. split.
  { eapply Forall_impl; [exact Hend|]. apply ends_term_nonempty. }
  constructor; [|done]. intros ->.
  destruct (interleave_snoc segs seps []) as (pre & Hpre).
  { unfold str in *. rewrite !length_app in Hlen. simpl in Hlen. lia. }
  unfold str in *. rewrite Hpre, app_nil_r in Ht.
  destruct (snoc_cases seps) as [->|(seps' & w & ->)].
  - destruct segs; [|rewrite !length_app in Hlen; simpl in Hlen; lia].
    simpl in Hpre. apply Hnb, strip_blank. rewrite Ht. by destruct pre.
  - (* the text would end with the last separator *)
    assert (Hsegs : ∃ segs' y, segs = segs' ++ [y]).
    { destruct (snoc_cases segs) as [->|?]; [|done].
      rewrite !length_app in Hlen. simpl in Hlen. lia. }
    destruct Hsegs as (segs' & y & ->).
    apply Forall_app in Hseps as [_ Hw]. apply Forall_cons in Hw as [[Hw Hwb] _].
    assert (Hend' : ∃ pre', interleave ((segs' ++ [y]) ++ [[]]) (seps' ++ [w])
                            = pre' ++ w).
    { clear -Hlen. revert seps' Hlen.
      induction segs' as [|s segs' IH]; intros seps' Hlen.
      - destruct seps' as [|? [|??]]; simpl in Hlen; try lia.
        exists y. simpl. by rewrite app_nil_r.
      - destruct seps' as [|w' seps'].
        { unfold str in *. rewrite !length_app in Hlen. simpl in Hlen. lia. }
        destruct (IH seps') as (pre' & Hpre').
        { unfold str in *. rewrite !length_app in *. simpl in *. lia. }
        exists (s ++ w' ++ pre').
        change (s ++ w' ++ interleave ((segs' ++ [y]) ++ [[]]) (seps' ++ [w])
                = (s ++ w' ++ pre') ++ w).
        rewrite Hpre'. by rewrite <- !app_assoc. }
    destruct Hend' as (pre' & Hpre'). rewrite Hpre', app_nil_r in Hpre.
    rewrite <- Hpre in Ht. rewrite Ht, rev_app_distr in Htr.
    destruct (snoc_cases w) as [->|(w' & c & ->)]; [done|].
    rewrite rev_app_distr in Htr. simpl in Htr.
    apply Forall_app in Hwb as [_ Hc]. apply Forall_cons in Hc as [Hc _].
    congruence.
Qed.

(** [sep.join(l)]: the elements of [l] with [sep] between two
    neighbours, [len(l) - 1] times in all. *)
Lemma join_replicate (sep : str) (l : list str) :
  join sep l = interleave l (replicate (length l - 1) sep).
Proof.
  destruct l as [|x l]; [done|].
  rewrite (join_interleave sep (x :: l) (replicate (length l) [])).
  - by rewrite fmap_replicate, length_cons, Nat.sub_succ, Nat.sub_0_r.
  - by rewrite length_replicate.
Qed.

(** ** [find_longest_match] stays inside its rectangle *)

Section flm_bounds.
Context `{Countable A}.

Lemma scan_row_bounds i alo ahi blo bhi j2len js : ∀ newj2len best,
  alo ≤ i < ahi →
  j2len_ok alo blo bhi i j2len →
  j2len_ok alo blo bhi (S i) newj2len →
  inside (alo, ahi, blo, bhi) best →
  j2len_ok alo blo bhi (S i) (scan_row i blo bhi j2len js newj2len best).1
  ∧ inside (alo, ahi, blo, bhi) (scan_row i blo bhi j2len js newj2len best).2.
Proof.
  induction js as [|j js IH]; intros newj2len best Hi Hold Hnew Hbest; [done|].
  simpl. destruct (Nat.ltb_spec j blo); [by apply IH|].
  destruct (Nat.leb_spec bhi j); [done|].
  set (k := default 0 (j2len !! (Z.of_nat j - 1)%Z) + 1).
  assert (Hk : 1 ≤ k ∧ k ≤ S i - alo ∧ k ≤ j + 1 - blo).
  { unfold k. destruct (j2len !! (Z.of_nat j - 1)%Z) as [v|] eqn:Hv; simpl.
    - destruct (Hold _ _ Hv) as (j' & Hz & ? & ? & ? & ?). lia.
    - lia. }
  apply IH; [done..| |].
  - intros z v. rewrite lookup_insert. case_decide as Hz.
    + intros [= <-]. exists j. subst z. lia.
    + apply Hnew.
  - destruct best as [[bi bj] bk]. simpl.
    destruct (Nat.ltb_spec bk k); [|done]. simpl. lia.
Qed.

Lemma scan_bounds (self : SequenceMatcher A) alo ahi blo bhi n :
  alo + n ≤ ahi → blo ≤ bhi →
  j2len_ok alo blo bhi (alo + n)
    (fold_left (scan_step self blo bhi) (seq alo n) (∅, (alo, blo, 0))).1
  ∧ inside (alo, ahi, blo, bhi)
    (fold_left (scan_step self blo bhi) (seq alo n) (∅, (alo, blo, 0))).2.
Proof.
  intros Hn Hb. induction n as [|n IH].
  - simpl. split; [|lia]. intros z v. by rewrite lookup_empty.
  - rewrite seq_S, fold_left_app. simpl.
    destruct IH as [IH1 IH2]; [lia|].
    unfold scan_step at 1 3.
    replace (alo + S n) with (S (alo + n)) by lia.
    apply scan_row_bounds; [lia|done| |done].
    intros z v. by rewrite lookup_empty.
Qed.

Lemma extend_left_bounds P (a b : list A) alo blo besti : ∀ bestj bestsize,
  alo ≤ besti → blo ≤ bestj →
  ∃ d, extend_left P a b alo blo besti bestj bestsize
       = (besti - d, bestj - d, bestsize + d)
    ∧ alo + d ≤ besti ∧ blo + d ≤ bestj.
Proof.
  induction besti as [|i IH]; intros bestj bestsize Hi Hj; simpl.
  { exists 0. split; [f_equal; [f_equal|]; lia | lia]. }
  destruct (_ && _) eqn:Hc.
  - apply andb_prop in Hc as [[H1%Nat.ltb_lt H2%Nat.ltb_lt]%andb_prop _].
    destruct (IH (bestj - 1) (bestsize + 1)) as (d & -> & ? & ?); [lia..|].
    exists (S d). split; [f_equal; [f_equal|]; lia | lia].
  - exists 0. split; [f_equal; [f_equal|]; lia | lia].
Qed.

Lemma extend_right_bounds P (a b : list A) ahi bhi besti bestj n : ∀ bestsize,
  besti + bestsize ≤ ahi → bestj + bestsize ≤ bhi →
  ∃ d, extend_right n P a b ahi bhi besti bestj bestsize
       = (besti, bestj, bestsize + d)
    ∧ besti + bestsize + d ≤ ahi ∧ bestj + bestsize + d ≤ bhi.
Proof.
  induction n as [|n IH]; intros bestsize Hi Hj; simpl.
  { exists 0. split; [f_equal; lia | lia]. }
  destruct (_ && _) eqn:Hc.
  - apply andb_prop in Hc as [[H1%Nat.ltb_lt H2%Nat.ltb_lt]%andb_prop _].
    destruct (IH (bestsize + 1)) as (d & -> & ? & ?); [lia..|].
    exists (S d). split; [f_equal; lia | lia].
  - exists 0. split; [f_equal; lia | lia].
Qed.

Lemma extend_inside P (a b : list A) alo ahi blo bhi best :
  inside (alo, ahi, blo, bhi) best →
  inside (alo, ahi, blo, bhi) (extend P a b alo ahi blo bhi best).
Proof.
  destruct best as [[i j] k]. intros (Hi & Hik & Hj & Hjk). unfold extend.
  destruct (extend_left_bounds P a b alo blo i j k) as (d & -> & ? & ?); [done..|].
  destruct (extend_right_bounds P a b ahi bhi (i - d) (j - d)
    (ahi - (i - d + (k + d))) (k + d)) as (e & -> & ? & ?); [lia..|].
  simpl. lia.
Qed.

Lemma find_longest_match_inside (self : SequenceMatcher A) alo ahi blo bhi :
  alo ≤ ahi → blo ≤ bhi →
  inside (alo, ahi, blo, bhi) (find_longest_match self alo ahi blo bhi).
Proof.
  intros Ha Hb. unfold find_longest_match.
  do 2 apply extend_inside.
  apply scan_bounds; [lia|done].
Qed.
End flm_bounds.

(** ** The loop of [get_matching_blocks] ends, with blocks in a chain *)

Lemma before_contains_l r x z : contains r x → before z r → before z x.
Proof.
  destruct r as [[[??]?]?], x as [[[??]?]?], z as [[[??]?]?]. simpl. lia.
Qed.

Lemma before_contains_r r x z : contains r x → before r z → before x z.
Proof.
  destruct r as [[[??]?]?], x as [[[??]?]?], z as [[[??]?]?]. simpl. lia.
Qed.

Lemma contains_trans r x y : contains r x → contains x y → contains r y.
Proof.
  destruct r as [[[??]?]?], x as [[[??]?]?], y as [[[??]?]?]. simpl. lia.
Qed.

(** Replacing one item of a timeline by items that lie inside it. *)
Lemma timeline_replace L1 x L2 mid :
  StronglySorted item_before (L1 ++ x :: L2) →
  StronglySorted item_before mid →
  Forall (λ y, contains (extent x) (extent y)) mid →
  StronglySorted item_before (L1 ++ mid ++ L2).
Proof.
  rewrite !StronglySorted_app, StronglySorted_cons, !Forall_forall.
  intros (H12 & H1 & Hx & H2) Hmid Hin. repeat split; auto.
  - intros y z Hy [Hz|Hz]%elem_of_app.
    + eapply before_contains_l; [by apply Hin|]. apply H12; [done|]. by left.
    + apply H12; [done|]. by right.
  - intros y z Hy Hz. eapply before_contains_r; [by apply Hin|]. by apply Hx.
Qed.

Section matching_loop.
Context `{Countable A}.
Variable self : SequenceMatcher A.

Lemma subdivide_sorted r m :
  inside r m → StronglySorted item_before (subdivide r m).
Proof.
  destruct r as [[[alo ahi] blo] bhi], m as [[i j] k]. simpl. intros ?.
  destruct (_ && _), (_ && _); simpl;
    repeat (constructor; unfold item_before; simpl; try lia).
Qed.

Lemma subdivide_contains r m :
  inside r m → Forall (λ y, contains r (extent y)) (subdivide r m).
Proof.
  destruct r as [[[alo ahi] blo] bhi], m as [[i j] k]. simpl. intros ?.
  destruct (Nat.ltb_spec alo i), (Nat.ltb_spec blo j),
    (Nat.ltb_spec (i + k) ahi), (Nat.ltb_spec (j + k) bhi); simpl;
    repeat (constructor; simpl; try lia).
Qed.

Lemma subdivide_ok r m :
  inside r m → 0 < m.2 →
  Forall (λ y, match y with Found (_, _, k) => 0 < k | Pending _ => True end)
    (subdivide r m).
Proof.
  destruct r as [[[alo ahi] blo] bhi], m as [[i j] k]. simpl. intros ??.
  destruct (_ && _), (_ && _); simpl; repeat (constructor; try done).
Qed.

Lemma subdivide_pending r m :
  let '(alo, ahi, blo, bhi) := r in
  let '(i, j, k) := m in
  omap pending (subdivide r m)
  = opt ((alo <? i) && (blo <? j)) (alo, i, blo, j)
    ++ opt ((i + k <? ahi) && (j + k <? bhi)) (i + k, ahi, j + k, bhi).
Proof.
  destruct r as [[[alo ahi] blo] bhi], m as [[i j] k].
  unfold subdivide. by destruct (_ && _), (_ && _).
Qed.

Lemma subdivide_found r m : omap found (subdivide r m) = [m].
Proof.
  destruct r as [[[alo ahi] blo] bhi], m as [[i j] k].
  unfold subdivide. by destruct (_ && _), (_ && _).
Qed.

Lemma subdivide_work r m queue :
  inside r m → 0 < m.2 →
  work (omap pending (subdivide r m) ++ queue) < work (r :: queue).
Proof.
  destruct r as [[[alo ahi] blo] bhi], m as [[i j] k]. simpl. intros ??.
  unfold work.
  destruct (Nat.ltb_spec alo i), (Nat.ltb_spec blo j),
    (Nat.ltb_spec (i + k) ahi), (Nat.ltb_spec (j + k) bhi); simpl; lia.
Qed.

Lemma matching_loop_timeline la lb fuel : ∀ queue blocks L,
  timeline la lb L queue blocks →
  work queue ≤ fuel →
  ∃ blocks' L',
    matching_loop self fuel queue blocks = Some blocks'
    ∧ timeline la lb L' [] blocks'.
Proof.
  induction fuel as [|fuel IH]; intros queue blocks L HL Hfuel.
  { destruct queue as [|[[[alo ahi] blo] bhi] queue]; [by exists blocks, L|].
    unfold work in Hfuel. simpl in Hfuel. lia. }
  destruct queue as [|r queue]; [by exists blocks, L|].
  destruct HL as [Hsorted Hok Hqueue Hblocks].
  assert (Hr : Pending r ∈ L).
  { assert (Hin : r ∈ omap pending L) by (rewrite Hqueue; left).
    apply list_elem_of_omap in Hin as ([r'|m] & Hin & [= ->]). done. }
  apply list_elem_of_split in Hr as (L1 & L2 & ->).
  rewrite omap_app in Hqueue. rewrite omap_app in Hblocks.
  change (omap pending (Pending r :: L2)) with (r :: omap pending L2) in Hqueue.
  change (omap found (Pending r :: L2)) with (omap found L2) in Hblocks.
  symmetry in Hqueue. apply Permutation_cons_app_inv in Hqueue.
  assert (Hrok : item_ok la lb (Pending r)).
  { rewrite Forall_forall in Hok. apply Hok. set_solver. }
  destruct r as [[[alo ahi] blo] bhi].
  pose proof (find_longest_match_inside self alo ahi blo bhi) as Hin.
  destruct Hrok as [Hc _]. simpl in Hc.
  specialize (Hin ltac:(lia) ltac:(lia)).
  pose proof (subdivide_sorted _ _ Hin) as Hrs.
  pose proof (subdivide_contains _ _ Hin) as Hrc.
  pose proof (subdivide_pending (alo, ahi, blo, bhi)
                (find_longest_match self alo ahi blo bhi)) as Hrp.
  pose proof (subdivide_found (alo, ahi, blo, bhi)
                (find_longest_match self alo ahi blo bhi)) as Hrf.
  pose proof (subdivide_work (alo, ahi, blo, bhi)
                (find_longest_match self alo ahi blo bhi) queue Hin) as Hrw.
  pose proof (subdivide_ok _ _ Hin) as Hro.
  simpl matching_loop.
  destruct (find_longest_match self alo ahi blo bhi) as [[i j] k] eqn:Hflm.
  destruct (Nat.eqb_spec k 0) as [->|Hk].
  - apply (IH queue blocks (L1 ++ L2)).
    + split.
      * apply (timeline_replace L1 _ L2 []) in Hsorted; [done|constructor..].
      * apply Forall_app in Hok as [? Hok]. apply Forall_cons in Hok as [_ ?].
        by apply Forall_app.
      * rewrite omap_app. by symmetry.
      * by rewrite omap_app.
    + unfold work in *. simpl in Hfuel. lia.
  - set (mid := subdivide (alo, ahi, blo, bhi) (i, j, k)) in *.
    simpl in Hrw, Hro. specialize (Hrw ltac:(lia)). specialize (Hro ltac:(lia)).
    eapply (IH _ _ (L1 ++ mid ++ L2)).
    + split.
      * by apply (timeline_replace L1 (Pending (alo, ahi, blo, bhi)) L2 mid).
      * apply Forall_app in Hok as [? Hok]. apply Forall_cons in Hok as [_ ?].
        apply Forall_app. split; [done|]. apply Forall_app. split; [|done].
        rewrite Forall_forall in Hrc, Hro. apply Forall_forall. intros y Hy.
        split; [|by apply Hro].
        eapply contains_trans; [|by apply Hrc]. simpl. lia.
      * rewrite !omap_app, Hrp.
        destruct ((alo <? i) && (blo <? j)), ((i + k <? ahi) && (j + k <? bhi));
          unfold opt; rewrite Hqueue; solve_Permutation.
      * rewrite !omap_app, Hrf. rewrite <- Hblocks. solve_Permutation.
    + rewrite Hrp in Hrw.
      destruct ((alo <? i) && (blo <? j)), ((i + k <? ahi) && (j + k <? bhi));
        simpl in *; unfold work in *; simpl in *; lia.
Qed.
End matching_loop.

(** ** Sorting and merging the blocks *)

#[global] Instance Match_le_trans : Transitive Match_le.
Proof. intros [[??]?] [[??]?] [[??]?]. unfold Match_le. lia. Qed.

#[global] Instance Match_le_total : Total Match_le.
Proof. intros [[??]?] [[??]?]. unfold Match_le. lia. Qed.

#[global] Instance Match_le_antisymm : AntiSymm (=) Match_le.
Proof.
  intros [[i j] k] [[i' j'] k']. unfold Match_le. intros ??.
  assert (i = i' ∧ j = j' ∧ k = k') as (-> & -> & ->) by lia. done.
Qed.

Lemma all_found L :
  omap pending L = [] → L = Found <$> omap found L.
Proof.
  induction L as [|[r|m] L IH]; [done|discriminate|].
  intros HL. change (Found m :: L = Found m :: (Found <$> omap found L)).
  f_equal. by apply IH.
Qed.

Lemma StronglySorted_fmap_inv {X Y} (f : X → Y) (R1 : relation X)
    (R2 : relation Y) l :
  (∀ x y, R2 (f x) (f y) → R1 x y) →
  StronglySorted R2 (f <$> l) → StronglySorted R1 l.
Proof.
  intros Hf. induction l as [|x l IH]; [constructor|].
  rewrite fmap_cons, !StronglySorted_cons, Forall_fmap.
  intros [Hx Hl]. split; [|by apply IH].
  eapply Forall_impl; [exact Hx|]. intros y. apply Hf.
Qed.

(** When the work list is empty, the timeline is the list of blocks. *)
Lemma timeline_done la lb L blocks :
  timeline la lb L [] blocks →
  ∃ F, blocks ≡ₚ F ∧ StronglySorted block_before F ∧ Forall (block_ok la lb) F.
Proof.
  intros [Hsorted Hok Hqueue Hblocks].
  apply Permutation_nil_r in Hqueue. apply all_found in Hqueue.
  exists (omap found L). split; [done|]. rewrite Hqueue in Hsorted, Hok. split.
  - by apply (StronglySorted_fmap_inv Found block_before item_before).
  - rewrite Forall_fmap in Hok. exact Hok.
Qed.

Lemma block_before_le la lb x y :
  block_ok la lb x → block_before x y → Match_le x y.
Proof.
  destruct x as [[i j] k], y as [[i' j'] k'].
  unfold block_ok, block_before, item_ok, item_before. simpl. lia.
Qed.

Lemma StronglySorted_impl_strong {X} (R1 R2 : relation X) (P : X → Prop) l :
  (∀ x y, P x → R1 x y → R2 x y) → Forall P l →
  StronglySorted R1 l → StronglySorted R2 l.
Proof.
  intros HR HP. induction 1 as [|x l Hl IH Hx]; [constructor|].
  apply Forall_cons in HP as [Hpx HP]. constructor; [by apply IH|].
  eapply Forall_impl; [exact Hx|]. intros y. by apply HR.
Qed.

(** [matching_blocks.sort()] puts the blocks in the order of the chain. *)
Lemma sort_chain la lb blocks F :
  blocks ≡ₚ F → StronglySorted block_before F → Forall (block_ok la lb) F →
  merge_sort Match_le blocks = F.
Proof.
  intros Hperm Hsorted Hok.
  apply (StronglySorted_unique Match_le).
  - apply StronglySorted_merge_sort; apply _.
  - eapply StronglySorted_impl_strong; [|exact Hok|exact Hsorted].
    intros x y. apply block_before_le.
  - by rewrite merge_sort_Permutation.
Qed.

Lemma merge_adjacent la lb acc i j k k' rest :
  0 < k →
  StronglySorted block_before (acc ++ (i, j, k) :: (i + k, j + k, k') :: rest) →
  Forall (block_ok la lb) (acc ++ (i, j, k) :: (i + k, j + k, k') :: rest) →
  StronglySorted block_before (acc ++ (i, j, k + k') :: rest)
  ∧ Forall (block_ok la lb) (acc ++ (i, j, k + k') :: rest).
Proof.
  intros Hk. rewrite !StronglySorted_app, !StronglySorted_cons, !Forall_app,
    !Forall_cons, !Forall_forall.
  intros (Hacc & ? & Hcur & Hm & ?) (? & Hokc & Hokm & ?).
  split_and!; auto.
  - intros x y Hx [->|Hy]%elem_of_cons.
    + specialize (Hacc x (i, j, k) Hx ltac:(left)).
      destruct x as [[??]?]. unfold block_before, item_before in *. simpl in *. lia.
    + apply Hacc; [done|]. by do 2 right.
  - intros y Hy. specialize (Hm y Hy).
    destruct y as [[??]?]. unfold block_before, item_before in *. simpl in *. lia.
  - unfold block_ok, item_ok in *. simpl in *. lia.
Qed.

(** The merging loop keeps the chain. *)
Lemma collapse_chain la lb rest : ∀ cur acc cur' acc',
  StronglySorted block_before (acc ++ live cur ++ rest) →
  Forall (block_ok la lb) (acc ++ live cur ++ rest) →
  (cur.2 = 0 → cur = (0, 0, 0) ∧ acc = []) →
  fold_left collapse_step rest (cur, acc) = (cur', acc') →
  StronglySorted block_before (acc' ++ live cur')
  ∧ Forall (block_ok la lb) (acc' ++ live cur').
Proof.
  induction rest as [|[[i2 j2] k2] rest IH];
    intros [[i1 j1] k1] acc cur' acc' Hs Hok Hdummy.
  { simpl. intros [= <- <-]. by rewrite app_nil_r in Hs, Hok. }
  assert (Hk2 : 0 < k2).
  { rewrite !Forall_app, Forall_cons in Hok. destruct Hok as (_ & _ & Hm & _).
    unfold block_ok, item_ok in Hm. simpl in Hm. lia. }
  simpl fold_left.
  destruct (bool_decide (i1 + k1 = i2) && bool_decide (j1 + k1 = j2)) eqn:Hadj.
  - apply andb_prop in Hadj as [<-%bool_decide_eq_true <-%bool_decide_eq_true].
    intros Hfold. eapply IH; [| | |exact Hfold].
    + unfold live in *. simpl in *. destruct (Nat.eqb_spec k1 0) as [->|Hk1].
      * destruct (Hdummy eq_refl) as [[= -> ->] ->]. simpl in *.
        destruct (Nat.eqb_spec k2 0); [lia|done].
      * destruct (Nat.eqb_spec (k1 + k2) 0); [lia|].
        eapply merge_adjacent; [|exact Hs|exact Hok]. lia.
    + unfold live in *. simpl in *. destruct (Nat.eqb_spec k1 0) as [->|Hk1].
      * destruct (Hdummy eq_refl) as [[= -> ->] ->]. simpl in *.
        destruct (Nat.eqb_spec k2 0); [lia|done].
      * destruct (Nat.eqb_spec (k1 + k2) 0); [lia|].
        eapply merge_adjacent; [|exact Hs|exact Hok]. lia.
    + simpl. lia.
  - intros Hfold. eapply IH; [| | |exact Hfold].
    + unfold live in *. simpl in *. destruct (Nat.eqb_spec k2 0); [lia|].
      destruct (k1 =? 0); simpl in *; by rewrite <- ?app_assoc.
    + unfold live in *. simpl in *. destruct (Nat.eqb_spec k2 0); [lia|].
      destruct (k1 =? 0); simpl in *; by rewrite <- ?app_assoc.
    + simpl. lia.
Qed.

(** ** [get_matching_blocks] and [get_opcodes] return, and the opcodes tile *)

Section opcodes.
Context `{Countable A}.
Variable self : SequenceMatcher A.
Let la := length (seq_a self).
Let lb := length (seq_b self).

Lemma get_matching_blocks_chain :
  ∃ blocks,
    get_matching_blocks self = Some (blocks ++ [(la, lb, 0)])
    ∧ StronglySorted block_before blocks
    ∧ Forall (block_ok la lb) blocks.
Proof.
  destruct (matching_loop_timeline self la lb (2 * la + 1) [(0, la, 0, lb)] []
              [Pending (0, la, 0, lb)]) as (blocks & L & Hloop & HL).
  { split; [repeat constructor| |done..].
    repeat constructor; simpl; lia. }
  { unfold work. simpl. lia. }
  destruct (timeline_done _ _ _ _ HL) as (F & Hperm & Hsorted & Hok).
  pose proof (sort_chain _ _ _ _ Hperm Hsorted Hok) as Hsort.
  unfold get_matching_blocks. fold la lb. rewrite Hloop. simpl.
  rewrite Hsort.
  destruct (fold_left collapse_step F (0, 0, 0, [])) as [[[i1 j1] k1] acc] eqn:Hfold.
  destruct (collapse_chain la lb F (0, 0, 0) [] _ _ ltac:(done) ltac:(done)
              ltac:(done) Hfold) as [Hs' Hok'].
  exists (acc ++ live (i1, j1, k1)). split; [|split; [exact Hs'|exact Hok']].
  unfold live. simpl. destruct (k1 =? 0); by rewrite ?app_nil_r.
Qed.

Lemma chain_monotone blocks : ∀ i j,
  StronglySorted block_before blocks →
  Forall (λ m : Match, i ≤ m.1.1 ∧ j ≤ m.1.2) blocks →
  monotone i j blocks.
Proof.
  induction blocks as [|[[ai bj] size] blocks IH]; intros i j Hs Hlo; [done|].
  apply StronglySorted_cons in Hs as [Hhd Hs].
  apply Forall_cons in Hlo as [Hm _]. simpl in *.
  split_and!; [lia..|]. apply IH; [done|].
  eapply Forall_impl; [exact Hhd|]. intros [[??]?].
  unfold block_before, item_before. simpl. lia.
Qed.

Lemma tiles_snoc ops : ∀ i0 j0 i j op,
  tiles i0 j0 ops i j →
  i1 op = i → j1 op = j → i ≤ i2 op → j ≤ j2 op →
  tiles i0 j0 (ops ++ [op]) (i2 op) (j2 op).
Proof.
  induction ops as [|o ops IH]; intros i0 j0 i j op; simpl.
  - intros [-> ->] ????. done.
  - intros (? & ? & ? & ? & Ht) ????. split_and!; [done..|]. by eapply IH.
Qed.

Lemma opcode_step_tiles i j answer ai bj size :
  tiles 0 0 answer i j → i ≤ ai → j ≤ bj →
  ∃ answer',
    opcode_step (i, j, answer) (ai, bj, size) = (ai + size, bj + size, answer')
    ∧ tiles 0 0 answer' (ai + size) (bj + size).
Proof.
  intros Ht Hi Hj. unfold opcode_step.
  set (answer1 := if (i <? ai) && (j <? bj) then _ else _).
  assert (Ht1 : tiles 0 0 answer1 ai bj).
  { unfold answer1.
    destruct (Nat.ltb_spec i ai), (Nat.ltb_spec j bj); simpl.
    - by apply (tiles_snoc answer 0 0 i j (Opcode replace i ai j bj)); simpl; try lia.
    - assert (j = bj) as <- by lia.
      by apply (tiles_snoc answer 0 0 i j (Opcode delete i ai j j)); simpl; try lia.
    - assert (i = ai) as <- by lia.
      by apply (tiles_snoc answer 0 0 i j (Opcode insert i i j bj)); simpl; try lia.
    - by assert (i = ai ∧ j = bj) as [<- <-] by lia. }
  clearbody answer1. eexists. split; [reflexivity|].
  destruct (size =? 0) eqn:Hsize.
  - apply Nat.eqb_eq in Hsize as ->. by rewrite !Nat.add_0_r.
  - by apply (tiles_snoc answer1 0 0 ai bj
      (Opcode equal ai (ai + size) bj (bj + size))); simpl; try lia.
Qed.

Lemma opcodes_tiles blocks : ∀ i j answer,
  monotone i j blocks → tiles 0 0 answer i j →
  ∃ i' j' answer',
    fold_left opcode_step blocks (i, j, answer) = (i', j', answer')
    ∧ tiles 0 0 answer' i' j'.
Proof.
  induction blocks as [|[[ai bj] size] blocks IH]; intros i j answer Hm Ht.
  { by exists i, j, answer. }
  destruct Hm as (Hi & Hj & Hm).
  destruct (opcode_step_tiles i j answer ai bj size Ht Hi Hj) as (answer' & Hstep & Ht').
  cbn [fold_left]. rewrite Hstep. by apply IH.
Qed.

(** [get_opcodes] returns, and its opcodes tile both sequences from
    start to end. *)
Lemma get_opcodes_tiles :
  ∃ ops, get_opcodes self = Some ops ∧ tiles 0 0 ops la lb.
Proof.
  destruct get_matching_blocks_chain as (blocks & Hblocks & Hsorted & Hok).
  unfold get_opcodes. rewrite Hblocks.
  change (∃ ops, Some (fold_left opcode_step (blocks ++ [(la, lb, 0)]) (0, 0, [])).2
                 = Some ops ∧ tiles 0 0 ops la lb).
  rewrite fold_left_app.
  destruct (opcodes_tiles blocks 0 0 []) as (i & j & answer & Hfold & Ht);
    [|done|].
  { apply chain_monotone; [done|]. apply Forall_forall. intros; lia. }
  unfold Match in *. rewrite Hfold.
  assert (Hend : i ≤ la ∧ j ≤ lb).
  { clear Hblocks. revert Hfold. generalize (@nil opcode).
    assert (Hstart : 0 ≤ la ∧ 0 ≤ lb) by lia. revert Hstart.
    generalize 0 at 1 3 as i0. generalize 0 at 1 2 as j0.
    induction blocks as [|[[ai bj] size] blocks IH]; intros j0 i0 Hstart answer0.
    - simpl. intros [= <- <- _]. done.
    - cbn [fold_left opcode_step].
      apply StronglySorted_cons in Hsorted as [_ Hsorted].
      apply Forall_cons in Hok as [Hm Hok].
      apply IH; [done..|].
      unfold block_ok, item_ok in Hm. simpl in Hm. lia. }
  destruct (opcode_step_tiles i j answer la lb 0 Ht) as (ops & Hstep & Hops);
    [lia..|].
  cbn [fold_left]. rewrite Hstep. rewrite !Nat.add_0_r in Hops. by exists ops.
Qed.
End opcodes.

(** ** From the tiling to the changed sentences *)

Lemma select_from_app {X} keep (l1 l2 : list X) : ∀ p,
  select_from keep p (l1 ++ l2)
  = select_from keep p l1 ++ select_from keep (p + length l1) l2.
Proof.
  induction l1 as [|x l1 IH]; intros p; simpl.
  - by rewrite Nat.add_0_r.
  - rewrite IH. replace (S p + length l1) with (p + S (length l1)) by lia.
    by destruct (keep p).
Qed.

Lemma select_from_ext {X} keep keep' (l : list X) : ∀ p,
  (∀ q, p ≤ q < p + length l → keep q = keep' q) →
  select_from keep p l = select_from keep' p l.
Proof.
  induction l as [|x l IH]; intros p Hq; [done|]. simpl.
  rewrite (Hq p) by (simpl; lia). rewrite (IH (S p)); [done|].
  intros q ?. apply Hq. simpl. lia.
Qed.

Lemma select_from_all {X} (l : list X) p : select_from (λ _, true) p l = l.
Proof. revert p. induction l as [|x l IH]; intros p; simpl; by rewrite ?IH. Qed.

Lemma select_from_none {X} (l : list X) p : select_from (λ _, false) p l = [].
Proof. revert p. induction l as [|x l IH]; intros p; simpl; by rewrite ?IH. Qed.

Lemma slice_split {X} (l : list X) j j2 j' :
  j ≤ j2 → j2 ≤ j' → slice l j j' = slice l j j2 ++ slice l j2 j'.
Proof.
  intros ??. unfold slice.
  replace (j' - j) with ((j2 - j) + (j' - j2)) by lia.
  rewrite <- take_take_drop, drop_drop. do 3 f_equal. lia.
Qed.

Lemma slice_length {X} (l : list X) j j' :
  j' ≤ length l → length (slice l j j') = j' - j.
Proof. intros ?. unfold slice. rewrite length_take, length_drop. lia. Qed.

Lemma slice_all {X} (l : list X) : slice l 0 (length l) = l.
Proof. unfold slice. rewrite Nat.sub_0_r. simpl. apply firstn_all. Qed.

Lemma changed_of_opcodes_concat b ops :
  changed_of_opcodes b ops
  = concat ((λ op, if is_equal op then [] else slice b (j1 op) (j2 op)) <$> ops).
Proof.
  unfold changed_of_opcodes.
  enough (∀ acc, fold_left (extend_changed b) ops acc
    = acc ++ concat ((λ op, if is_equal op then []
                            else slice b (j1 op) (j2 op)) <$> ops)) as -> by done.
  induction ops as [|op ops IH]; intros acc; simpl.
  - by rewrite app_nil_r.
  - rewrite IH. unfold extend_changed, is_equal.
    destruct (op_tag op); by rewrite <- ?app_assoc.
Qed.

(** The spans of a tiling start at or after its start. *)
Lemma tiles_after ops : ∀ i j i' j' p (f : opcode → bool),
  tiles i j ops i' j' → p < j →
  existsb (λ op, f op && covers p op) ops = false.
Proof.
  induction ops as [|op ops IH]; intros i j i' j' p f; [done|].
  simpl. intros (_ & Hj1 & _ & Hj2 & Ht) Hp.
  rewrite (IH _ _ _ _ p f Ht) by lia. unfold covers.
  destruct (Nat.leb_spec (j1 op) p); [lia|]. simpl. by rewrite andb_false_r.
Qed.

Lemma tiles_end ops : ∀ i j i' j', tiles i j ops i' j' → j ≤ j'.
Proof.
  induction ops as [|op ops IH]; intros i j i' j'; simpl.
  - intros [_ ->]. done.
  - intros (_ & _ & _ & ? & Ht). apply IH in Ht. lia.
Qed.

Lemma tiles_select b ops : ∀ i j i' j',
  tiles i j ops i' j' → j' ≤ length b →
  select_from (λ p, negb (in_equal_span ops p)) j (slice b j j')
  = changed_of_opcodes b ops.
Proof.
  rewrite changed_of_opcodes_concat.
  induction ops as [|op ops IH]; intros i j i' j'.
  - simpl. intros [_ ->] _. unfold slice. by rewrite Nat.sub_diag.
  - intros (Hi1 & Hj1 & Hi2 & Hj2 & Ht) Hlen.
    pose proof (tiles_end _ _ _ _ _ Ht) as Hend.
    rewrite (slice_split b j (j2 op) j') by done.
    rewrite select_from_app, slice_length by lia.
    replace (j + (j2 op - j)) with (j2 op) by lia.
    rewrite fmap_cons, concat_cons. f_equal.
    + rewrite (select_from_ext _ (λ _, negb (is_equal op))).
      * rewrite Hj1. destruct (is_equal op); simpl.
        -- apply select_from_none.
        -- apply select_from_all.
      * intros q Hq. rewrite slice_length in Hq by lia.
        unfold in_equal_span. simpl.
        rewrite (tiles_after _ _ _ _ _ q is_equal Ht) by lia.
        unfold covers. rewrite Hj1.
        destruct (Nat.leb_spec j q), (Nat.ltb_spec q (j2 op)); try lia.
        by rewrite orb_false_r, andb_true_r.
    + rewrite <- (IH _ _ _ _ Ht Hlen). apply select_from_ext.
      intros q Hq. unfold in_equal_span. simpl. unfold covers at 1.
      destruct (Nat.ltb_spec q (j2 op)); [lia|].
      by rewrite !andb_false_r.
Qed.

(** The spans of a tiling are the positions between its ends, each once. *)
Lemma tiles_spans ops : ∀ i j i' j',
  tiles i j ops i' j' → concat (b_span <$> ops) = seq j (j' - j).
Proof.
  induction ops as [|op ops IH]; intros i j i' j'.
  - simpl. intros [_ ->]. by rewrite Nat.sub_diag.
  - intros (Hi1 & Hj1 & Hi2 & Hj2 & Ht).
    pose proof (tiles_end _ _ _ _ _ Ht) as Hend.
    rewrite fmap_cons, concat_cons, (IH _ _ _ _ Ht). unfold b_span.
    rewrite Hj1. replace (j' - j) with ((j2 op - j) + (j' - j2 op)) by lia.
    rewrite seq_app. do 2 f_equal. lia.
Qed.

(** Inside a tiling every position lies in exactly one span. *)
Lemma tiles_once ops : ∀ i j i' j' p,
  tiles i j ops i' j' → j ≤ p < j' →
  length (List.filter (covers p) ops) = 1
  ∧ in_changed_span ops p = negb (in_equal_span ops p).
Proof.
  induction ops as [|op ops IH]; intros i j i' j' p.
  - simpl. intros [_ ->] ?. lia.
  - intros (Hi1 & Hj1 & Hi2 & Hj2 & Ht) Hp.
    unfold in_changed_span, in_equal_span. simpl.
    destruct (covers p op) eqn:Hc.
    + unfold covers in Hc. apply andb_prop in Hc as [_ Hc%Nat.ltb_lt].
      rewrite !(tiles_after _ _ _ _ _ p _ Ht) by lia.
      pose proof (tiles_after _ _ _ _ _ p (λ _, true) Ht ltac:(lia)) as Hnone.
      split.
      * simpl. f_equal. clear -Hnone.
        induction ops as [|o ops IH]; [done|]. simpl in *.
        apply orb_false_elim in Hnone as [-> ?]. by apply IH.
      * rewrite !andb_true_r, !orb_false_r. done.
    + unfold covers in Hc. rewrite Hj1 in Hc.
      destruct (Nat.leb_spec j p); [|lia]. simpl in Hc.
      apply Nat.ltb_ge in Hc.
      destruct (IH _ _ _ _ p Ht ltac:(lia)) as [IH1 IH2].
      split; [done|]. rewrite !andb_false_r. simpl. exact IH2.
Qed.

(** ** The index [b2j] *)

Section chain_b.
Context `{Countable A}.

Lemma index_elements_snoc (b : list A) y :
  index_elements (b ++ [y])
  = <[y := default [] (index_elements b !! y) ++ [length b]]> (index_elements b).
Proof.
  unfold index_elements. rewrite imap_app, fold_left_app. simpl.
  by rewrite Nat.add_0_r.
Qed.

Lemma index_elements_ok (b : list A) :
  b2j_ok b (index_elements b)
  ∧ ∀ x j, b !! j = Some x → is_Some (index_elements b !! x).
Proof.
  induction b as [|y b [IH1 IH2]] using rev_ind.
  { split; [|done]. intros x js. unfold index_elements. simpl.
    by rewrite lookup_empty. }
  rewrite index_elements_snoc. set (m := index_elements b) in *. split.
  - intros x js. rewrite lookup_insert. case_decide as Hxy.
    + subst x. intros [= <-].
      assert (Hjs : StronglySorted lt (default [] (m !! y))
                    ∧ ∀ j, j ∈ default [] (m !! y) ↔ b !! j = Some y).
      { destruct (m !! y) as [js|] eqn:Hy; simpl; [by apply IH1|].
        split; [constructor|]. intros j. split; [by intros ?%elem_of_nil|].
        intros Hj. apply IH2 in Hj as [? Hj]. congruence. }
      destruct Hjs as [Hs Hin]. split.
      * apply StronglySorted_app_2; [|done|repeat constructor].
        intros j ? Hj ->%list_elem_of_singleton.
        apply Hin in Hj. by apply lookup_lt_Some in Hj.
      * intros j. rewrite elem_of_app, list_elem_of_singleton, Hin.
        destruct (lt_eq_lt_dec j (length b)) as [[Hlt| ->]|Hgt].
        -- rewrite lookup_app_l by done. split; [intros [?|?]; [done|lia]|by left].
        -- rewrite list_lookup_middle by done. split; [done|by right].
        -- rewrite (lookup_ge_None_2 (b ++ [y])) by (rewrite length_app; simpl; lia).
           split; [|done]. intros [Hj%lookup_lt_Some| ->]; lia.
    + intros Hx. destruct (IH1 _ _ Hx) as [Hs Hin]. split; [done|].
      intros j. rewrite Hin.
      destruct (lt_eq_lt_dec j (length b)) as [[Hlt| ->]|Hgt].
      * by rewrite lookup_app_l.
      * rewrite list_lookup_middle by done.
        rewrite (lookup_ge_None_2 b) by done. split; [done|]. congruence.
      * rewrite (lookup_ge_None_2 b) by lia.
        by rewrite (lookup_ge_None_2 (b ++ [y])) by (rewrite length_app; simpl; lia).
  - intros x j Hj. rewrite lookup_insert. case_decide; [done|].
    apply lookup_app_Some in Hj as [Hj|[_ Hj]]; [by eapply IH2|].
    apply list_lookup_singleton_Some in Hj as [_ ?]. congruence.
Qed.

(** The matcher [new a b] holds the two sequences, no junk, and an
    index of [b] (without the popular elements, when there are some). *)
Lemma new_spec (a b : list A) :
  seq_a (new a b) = a ∧ seq_b (new a b) = b
  ∧ bjunk (new a b) = ∅ ∧ b2j_ok b (b2j (new a b)).
Proof.
  unfold new. destruct (index_elements_ok b) as [Hok _].
  case_bool_decide; simpl; split_and!; try done.
  intros x js [Hx _]%map_lookup_filter_Some. by apply Hok.
Qed.
End chain_b.

(** ** A sequence compared with itself *)

Lemma run_length_0 ok : ok 0 = true → run_length ok 0 = 1.
Proof. simpl. by intros ->. Qed.

Lemma run_length_S ok j : ok (S j) = true → run_length ok (S j) = S (run_length ok j).
Proof. simpl. by intros ->. Qed.

Lemma run_length_not ok j : ok j = false → run_length ok j = 0.
Proof. destruct j; simpl; by intros ->. Qed.

Lemma run_length_pos ok j : ok j = true → 1 ≤ run_length ok j.
Proof. destruct j; simpl; intros ->; lia. Qed.

Lemma scan_row_app i blo bhi j2len (l1 l2 : list nat) :
  ∀ newj2len best,
  Forall (λ j, j < bhi) l1 →
  scan_row i blo bhi j2len (l1 ++ l2) newj2len best
  = scan_row i blo bhi j2len l2
      (scan_row i blo bhi j2len l1 newj2len best).1
      (scan_row i blo bhi j2len l1 newj2len best).2.
Proof.
  induction l1 as [|j l1 IH]; intros newj2len best Hl1; [done|].
  apply Forall_cons in Hl1 as [Hj Hl1]. simpl.
  destruct (j <? blo); [by apply IH|].
  destruct (Nat.leb_spec bhi j); [lia|]. by apply IH.
Qed.

Section identical.
Variable ok : nat → bool.
Variable n : nat.

Lemma k_bound i j (j2len : gmap Z nat) :
  (∀ z v, j2len !! z = Some v →
    ∃ i0, i = S i0 ∧ ∃ j0, z = Z.of_nat j0 ∧ v ≤ run_length ok j0 ∧ v ≤ run_length ok i0) →
  ok i = true → ok j = true →
  default 0 (j2len !! (Z.of_nat j - 1)%Z) + 1 ≤ run_length ok j
  ∧ default 0 (j2len !! (Z.of_nat j - 1)%Z) + 1 ≤ run_length ok i.
Proof.
  intros Hrow Hi Hj.
  destruct (j2len !! (Z.of_nat j - 1)%Z) as [v|] eqn:Hv; simpl.
  - destruct (Hrow _ _ Hv) as (i0 & -> & j0 & Hz & ? & ?).
    assert (j = S j0) as -> by lia. rewrite !run_length_S by done. lia.
  - apply run_length_pos in Hi, Hj. lia.
Qed.

(** Away from the diagonal no match is longer than the best one. *)
Lemma scan_row_off_diag i (j2len : gmap Z nat) js : ∀ newj2len best,
  (∀ z v, j2len !! z = Some v →
    ∃ i0, i = S i0 ∧ ∃ j0, z = Z.of_nat j0 ∧ v ≤ run_length ok j0 ∧ v ≤ run_length ok i0) →
  ok i = true →
  Forall (λ j, j < n ∧ j ≠ i ∧ ok j = true
               ∧ (run_length ok j ≤ best.2 ∨ run_length ok i ≤ best.2)) js →
  j2len_runs ok i newj2len →
  ∃ m, scan_row i 0 n j2len js newj2len best = (m, best)
    ∧ j2len_runs ok i m
    ∧ m !! Z.of_nat i = newj2len !! Z.of_nat i.
Proof.
  induction js as [|j js IH]; intros newj2len best Hrow Hi Hjs Hnew.
  { by exists newj2len. }
  apply Forall_cons in Hjs as [(Hjn & Hji & Hj & Hbest) Hjs]. simpl.
  destruct (Nat.leb_spec n j); [lia|].
  destruct (k_bound i j j2len Hrow Hi Hj) as [Hk1 Hk2].
  set (k := default 0 (j2len !! (Z.of_nat j - 1)%Z) + 1) in *.
  destruct (Nat.ltb_spec best.2 k); [lia|].
  destruct (IH (<[Z.of_nat j := k]> newj2len) best Hrow Hi Hjs) as (m & -> & Hm & Hmi).
  - intros z v. rewrite lookup_insert. case_decide as Hz.
    + intros [= <-]. by exists j.
    + apply Hnew.
  - exists m. split_and!; [done..|].
    rewrite Hmi, lookup_insert_ne; [done|lia].
Qed.

(** On the diagonal the match is the run that ends there. *)
Lemma k_diag i (st : gmap Z nat * Match) :
  row_inv ok i st → ok i = true →
  default 0 (st.1 !! (Z.of_nat i - 1)%Z) + 1 = run_length ok i.
Proof.
  intros [_ _ Hrow Hlast] Hi. destruct i as [|i0].
  - rewrite run_length_0 by done.
    destruct (st.1 !! (Z.of_nat 0 - 1)%Z) as [v|] eqn:Hv; [|done].
    destruct (Hrow _ _ Hv) as (? & ? & _). lia.
  - rewrite run_length_S by done.
    replace (Z.of_nat (S i0) - 1)%Z with (Z.of_nat i0) by lia.
    destruct (ok i0) eqn:Hi0.
    + rewrite (Hlast i0 eq_refl Hi0). simpl. lia.
    + rewrite (run_length_not _ _ Hi0).
      destruct (st.1 !! Z.of_nat i0) as [v|] eqn:Hv; [|done].
      destruct (Hrow _ _ Hv) as (i1 & [= <-] & j & Hz & _ & Hle).
      assert (j = i0) as -> by lia.
      rewrite (run_length_not _ _ Hi0) in Hle. simpl. lia.
Qed.

(** One row, given the positions [js] of the element of that row. *)
Lemma scan_row_inv i st js :
  row_inv ok i st → i < n → ok i = true →
  StronglySorted lt js → i ∈ js →
  Forall (λ j, j < n ∧ ok j = true) js →
  row_inv ok (S i) (scan_row i 0 n st.1 js ∅ st.2).
Proof.
  intros Hinv Hin Hi Hsorted Hmem Hjs.
  apply list_elem_of_split in Hmem as (l1 & l2 & ->).
  apply StronglySorted_app in Hsorted as (Hl12 & _ & Hl2).
  apply StronglySorted_cons in Hl2 as [Hl2 _].
  apply Forall_app in Hjs as [Hjs1 Hjs2].
  apply Forall_cons in Hjs2 as [_ Hjs2].
  rewrite scan_row_app by (eapply Forall_impl; [exact Hjs1|]; by intros ? [? _]).
  destruct (scan_row_off_diag i st.1 l1 ∅ st.2 (row_j2len _ _ _ Hinv) Hi)
    as (m1 & -> & Hm1 & Hm1i).
  { apply Forall_forall. intros j Hj.
    rewrite Forall_forall in Hjs1. destruct (Hjs1 j Hj) as [? ?].
    assert (j < i) by (apply Hl12; [done|by left]).
    split_and!; [done|lia|done|]. left. by apply (row_best _ _ _ Hinv). }
  { intros z v. by rewrite lookup_empty. }
  cbn [fst snd scan_row].
  destruct (Nat.leb_spec n i); [lia|].
  rewrite (k_diag i st Hinv Hi).
  set (best := if st.2.2 <? run_length ok i then _ else _).
  assert (Hbest : best.1.1 = best.1.2 ∧ st.2.2 ≤ best.2 ∧ run_length ok i ≤ best.2).
  { unfold best. destruct (Nat.ltb_spec st.2.2 (run_length ok i)); simpl.
    - lia.
    - split; [by apply (row_diag _ _ _ Hinv)|lia]. }
  clearbody best. destruct Hbest as (Hd & Hge & Hrun).
  destruct (scan_row_off_diag i st.1 l2 (<[Z.of_nat i := run_length ok i]> m1) best
              (row_j2len _ _ _ Hinv) Hi) as (m & -> & Hm & Hmi).
  { apply Forall_forall. intros j Hj.
    rewrite Forall_forall in Hjs2, Hl2. destruct (Hjs2 j Hj) as [? ?].
    specialize (Hl2 j Hj). split_and!; [done|lia|done|]. by right. }
  { intros z v. rewrite lookup_insert. case_decide as Hz.
    - intros [= <-]. by exists i.
    - apply Hm1. }
  split; simpl.
  - done.
  - intros i' Hi'. destruct (decide (i' = i)) as [->|]; [done|].
    pose proof (row_best _ _ _ Hinv i'). lia.
  - intros z v Hv. exists i. split; [done|]. by apply Hm.
  - intros i0 [= <-] _. by rewrite Hmi, lookup_insert_eq.
Qed.
End identical.

Section identical_matcher.
Context `{Countable A}.
Variable self : SequenceMatcher A.
Variable a : list A.
Hypothesis Ha : seq_a self = a.
Hypothesis Hb : seq_b self = a.
Hypothesis Hjunk : bjunk self = ∅.
Hypothesis Hb2j : b2j_ok a (b2j self).

Lemma scan_step_inv i st :
  row_inv (indexed self) i st → i < length a →
  row_inv (indexed self) (S i) (scan_step self 0 (length a) st i).
Proof.
  intros Hinv Hi. unfold scan_step. rewrite Ha.
  destruct (lookup_lt_is_Some_2 a i Hi) as [x Hx]. rewrite Hx.
  assert (Hok : ∀ j, a !! j = Some x →
            indexed self j = bool_decide (is_Some (b2j self !! x))).
  { intros j Hj. unfold indexed. by rewrite Ha, Hj. }
  destruct (b2j self !! x) as [js|] eqn:Hjs; simpl.
  - destruct (Hb2j _ _ Hjs) as [Hsorted Hmem].
    apply (scan_row_inv _ (length a)); try done.
    + rewrite (Hok i Hx). by apply bool_decide_eq_true_2.
    + by apply Hmem.
    + apply Forall_forall. intros j Hj%Hmem. split.
      * by apply lookup_lt_Some in Hj.
      * rewrite (Hok j Hj). by apply bool_decide_eq_true_2.
  - assert (Hnot : indexed self i = false).
    { rewrite (Hok i Hx). apply bool_decide_eq_false_2. by intros [? ?]. }
    destruct Hinv as [Hd Hbest _ _]. split; simpl.
    + done.
    + intros i' Hi'. destruct (decide (i' = i)) as [->|].
      * rewrite (run_length_not _ _ Hnot). lia.
      * apply Hbest. lia.
    + intros z v. by rewrite lookup_empty.
    + intros i0 [= <-]. congruence.
Qed.

Lemma scan_inv i :
  i ≤ length a →
  row_inv (indexed self) i
    (fold_left (scan_step self 0 (length a)) (seq 0 i) (∅, (0, 0, 0))).
Proof.
  induction i as [|i IH]; intros Hi.
  - split; simpl; [done|lia| |done]. intros z v. by rewrite lookup_empty.
  - rewrite seq_S, fold_left_app. simpl. apply scan_step_inv; [|lia].
    apply IH. lia.
Qed.

Lemma extend_left_diag (P : A → bool) d : ∀ k,
  (∀ x, P x = true) → d ≤ length a →
  extend_left P a a 0 0 d d k = (0, 0, k + d).
Proof.
  induction d as [|d IH]; intros k HP Hd; simpl.
  { by rewrite Nat.add_0_r. }
  rewrite Nat.sub_0_r. unfold same_at.
  destruct (lookup_lt_is_Some_2 a d ltac:(lia)) as [x ->].
  rewrite HP, bool_decide_eq_true_2 by done. simpl.
  rewrite IH by (done || lia). f_equal. lia.
Qed.

Lemma extend_right_diag (P : A → bool) fuel : ∀ k,
  (∀ x, P x = true) → k + fuel = length a →
  extend_right fuel P a a (length a) (length a) 0 0 k = (0, 0, length a).
Proof.
  induction fuel as [|fuel IH]; intros k HP Hk; simpl.
  { f_equal. lia. }
  destruct (Nat.ltb_spec k (length a)); [|lia]. simpl. unfold same_at.
  destruct (lookup_lt_is_Some_2 a k ltac:(lia)) as [x ->].
  rewrite HP, bool_decide_eq_true_2 by done. simpl.
  apply IH; [done|lia].
Qed.

Lemma extend_none (P : A → bool) alo ahi blo bhi best :
  (∀ x, P x = false) → extend P a a alo ahi blo bhi best = best.
Proof.
  intros HP. destruct best as [[i j] k]. unfold extend.
  assert (Hsame : ∀ p q, same_at P a a p q = false).
  { intros p q. unfold same_at. destruct (a !! p), (a !! q); try done.
    by rewrite HP. }
  assert (extend_left P a a alo blo i j k = (i, j, k)) as ->.
  { destruct i; simpl; [done|]. by rewrite Hsame, andb_false_r. }
  destruct (ahi - (i + k)); simpl; [done|]. by rewrite Hsame, andb_false_r.
Qed.

(** The longest match of a sequence with itself is the whole sequence. *)
Lemma find_longest_match_identical :
  find_longest_match self 0 (length a) 0 (length a) = (0, 0, length a).
Proof.
  unfold find_longest_match. rewrite Ha, Hb, Hjunk, Nat.sub_0_r.
  pose proof (scan_inv (length a) ltac:(lia)) as Hinv.
  destruct (scan_bounds self 0 (length a) 0 (length a) (length a)) as [_ Hin];
    [lia..|].
  destruct (fold_left _ _ _) as [j2len [[i j] k]].
  destruct Hinv as [Hd _ _ _]. simpl in Hd, Hin. subst j.
  rewrite extend_none.
  2:{ intros x. apply bool_decide_eq_false_2, not_elem_of_empty. }
  unfold extend. simpl.
  rewrite extend_left_diag; [|intros x|lia].
  2:{ by rewrite bool_decide_eq_false_2 by apply not_elem_of_empty. }
  apply extend_right_diag; [intros x|lia].
  by rewrite bool_decide_eq_false_2 by apply not_elem_of_empty.
Qed.
End identical_matcher.

Section identical_opcodes.
Context `{Countable A}.

Lemma merge_sort_singleton (x : Match) : merge_sort Match_le [x] = [x].
Proof. apply Permutation_singleton_r. apply merge_sort_Permutation. Qed.

Lemma matching_loop_done (self : SequenceMatcher A) fuel blocks :
  matching_loop self fuel [] blocks = Some blocks.
Proof. by destruct fuel. Qed.

(** A sequence compared with itself gives one ["equal"] opcode over all
    of it, or no opcode when it is empty. *)
Lemma get_opcodes_identical (a : list A) :
  get_opcodes (new a a)
  = Some (if length a =? 0 then []
          else [Opcode equal 0 (length a) 0 (length a)]).
Proof.
  destruct (new_spec a a) as (Ha & Hb & Hjunk & Hb2j).
  pose proof (find_longest_match_identical (new a a) a Ha Hb Hjunk Hb2j) as Hflm.
  unfold get_opcodes, get_matching_blocks. rewrite Ha, Hb.
  replace (2 * length a + 1) with (S (2 * length a)) by lia.
  cbn [matching_loop]. rewrite Hflm.
  destruct (Nat.eqb_spec (length a) 0) as [Hn|Hn].
  - rewrite matching_loop_done, Hn. reflexivity.
  - simpl. rewrite Nat.ltb_irrefl. simpl.
    rewrite matching_loop_done. cbn [mbind option_bind].
    rewrite merge_sort_singleton. simpl.
    destruct (Nat.eqb_spec (length a) 0); [done|]. simpl.
    rewrite Nat.ltb_irrefl.
    destruct (Nat.eqb_spec (length a) 0); [done|]. done.
Qed.
End identical_opcodes.

(** ** The changed sentences *)

Lemma changed_sentences_select (orig polished : list str) :
  ∃ opcodes,
    get_opcodes (new orig polished) = Some opcodes
    ∧ tiles 0 0 opcodes (length orig) (length polished)
    ∧ changed_sentences orig polished
      = Some (select (λ p, negb (in_equal_span opcodes p)) polished).
Proof.
  destruct (new_spec orig polished) as (Ha & Hb & _ & _).
  destruct (get_opcodes_tiles (new orig polished)) as (ops & Hops & Ht).
  rewrite Ha, Hb in Ht. exists ops. split_and!; [done..|].
  unfold changed_sentences. rewrite Hops. simpl. f_equal.
  rewrite <- (tiles_select polished ops _ _ _ _ Ht) by done.
  unfold select. by rewrite slice_all.
Qed.

Lemma changed_sentences_identical (sentences : list str) :
  changed_sentences sentences sentences = Some [].
Proof.
  unfold changed_sentences. rewrite get_opcodes_identical.
  by destruct (length sentences =? 0).
Qed.

(** ** The blocks are common runs *)

Section matches.
Context `{Countable A}.
Variable self : SequenceMatcher A.
Hypothesis Hb2j : b2j_ok (seq_b self) (b2j self).

Lemma scan_row_matches i blo bhi j2len js : ∀ newj2len best,
  j2len_matches (seq_a self) (seq_b self) i j2len →
  j2len_matches (seq_a self) (seq_b self) (S i) newj2len →
  matches (seq_a self) (seq_b self) best →
  Forall (λ j, seq_a self !! i = seq_b self !! j) js →
  j2len_matches (seq_a self) (seq_b self) (S i)
    (scan_row i blo bhi j2len js newj2len best).1
  ∧ matches (seq_a self) (seq_b self)
      (scan_row i blo bhi j2len js newj2len best).2.
Proof.
  induction js as [|j js IH]; intros newj2len best Hold Hnew Hbest Hjs; [done|].
  apply Forall_cons in Hjs as [Hj Hjs]. simpl.
  destruct (j <? blo); [by apply IH|].
  destruct (bhi <=? j); [done|].
  set (k := default 0 (j2len !! (Z.of_nat j - 1)%Z) + 1).
  assert (Hk : 1 ≤ k ∧ k ≤ S i ∧ k ≤ j + 1
               ∧ ∀ d, d < k → seq_a self !! (i - d) = seq_b self !! (j - d)).
  { unfold k. destruct (j2len !! (Z.of_nat j - 1)%Z) as [v|] eqn:Hv; simpl.
    - destruct (Hold _ _ Hv) as (j0 & Hz & ? & ? & ? & Hrun).
      assert (j = S j0) as -> by lia. split_and!; [lia..|].
      intros [|d] Hd.
      + by rewrite !Nat.sub_0_r.
      + replace (i - S d) with (i - 1 - d) by lia.
        replace (S j0 - S d) with (j0 - d) by lia. apply Hrun. lia.
    - split_and!; [lia..|]. intros d Hd. assert (d = 0) as -> by lia.
      by rewrite !Nat.sub_0_r. }
  destruct Hk as (Hk1 & Hk2 & Hk3 & Hrun).
  apply IH; [done| | |done].
  - intros z v. rewrite lookup_insert. case_decide as Hz.
    + intros [= <-]. exists j. split_and!; [done|lia..|].
      intros d Hd. replace (S i - 1 - d) with (i - d) by lia. by apply Hrun.
    + apply Hnew.
  - destruct best as [[bi bj] bk]. simpl.
    destruct (bk <? k); [|done]. intros d Hd.
    replace (i + 1 - k + d) with (i - (k - 1 - d)) by lia.
    replace (j + 1 - k + d) with (j - (k - 1 - d)) by lia.
    apply Hrun. lia.
Qed.

Lemma scan_matches alo blo bhi n :
  j2len_matches (seq_a self) (seq_b self) (alo + n)
    (fold_left (scan_step self blo bhi) (seq alo n) (∅, (alo, blo, 0))).1
  ∧ matches (seq_a self) (seq_b self)
    (fold_left (scan_step self blo bhi) (seq alo n) (∅, (alo, blo, 0))).2.
Proof.
  induction n as [|n [IH1 IH2]].
  - simpl. split; [|intros d; lia]. intros z v. by rewrite lookup_empty.
  - rewrite seq_S, fold_left_app. simpl. unfold scan_step at 1 3.
    replace (alo + S n) with (S (alo + n)) by lia.
    apply scan_row_matches; [done| |done|].
    + intros z v. by rewrite lookup_empty.
    + destruct (seq_a self !! (alo + n)) as [x|] eqn:Hx; [|constructor].
      destruct (b2j self !! x) as [js|] eqn:Hjs; [|constructor]. simpl.
      destruct (Hb2j _ _ Hjs) as [_ Hmem].
      apply Forall_forall. intros j Hj%Hmem. by rewrite Hj.
Qed.

Lemma same_at_eq (P : A → bool) (a b : list A) i j :
  same_at P a b i j = true → a !! i = b !! j.
Proof.
  unfold same_at. destruct (a !! i), (b !! j); try done.
  intros [_ ->%bool_decide_eq_true]%andb_prop. done.
Qed.

Lemma extend_left_matches (P : A → bool) (a b : list A) alo blo besti :
  ∀ bestj bestsize,
  matches a b (besti, bestj, bestsize) →
  matches a b (extend_left P a b alo blo besti bestj bestsize).
Proof.
  induction besti as [|i IH]; intros bestj bestsize Hm; [done|]. simpl.
  destruct (_ && _) eqn:Hc; [|done].
  apply andb_prop in Hc as [[_ Hj%Nat.ltb_lt]%andb_prop Hsame%same_at_eq].
  apply IH. intros [|d] Hd.
  - by rewrite !Nat.add_0_r.
  - replace (i + S d) with (S i + d) by lia.
    replace (bestj - 1 + S d) with (bestj + d) by lia. apply Hm. lia.
Qed.

Lemma extend_right_matches (P : A → bool) (a b : list A) ahi bhi besti bestj n :
  ∀ bestsize,
  matches a b (besti, bestj, bestsize) →
  matches a b (extend_right n P a b ahi bhi besti bestj bestsize).
Proof.
  induction n as [|n IH]; intros bestsize Hm; [done|]. simpl.
  destruct (_ && _) eqn:Hc; [|done].
  apply andb_prop in Hc as [_ Hsame%same_at_eq].
  apply IH. intros d Hd. destruct (decide (d = bestsize)) as [->|]; [done|].
  apply Hm. lia.
Qed.

Lemma extend_matches (P : A → bool) (a b : list A) alo ahi blo bhi best :
  matches a b best → matches a b (extend P a b alo ahi blo bhi best).
Proof.
  destruct best as [[i j] k]. intros Hm. unfold extend.
  pose proof (extend_left_matches P a b alo blo i j k Hm) as Hl.
  destruct (extend_left P a b alo blo i j k) as [[i' j'] k'].
  by apply extend_right_matches.
Qed.

Lemma find_longest_match_matches alo ahi blo bhi :
  matches (seq_a self) (seq_b self) (find_longest_match self alo ahi blo bhi).
Proof.
  unfold find_longest_match. do 2 apply extend_matches. apply scan_matches.
Qed.

Lemma matching_loop_matches fuel : ∀ queue blocks result,
  Forall (matches (seq_a self) (seq_b self)) blocks →
  matching_loop self fuel queue blocks = Some result →
  Forall (matches (seq_a self) (seq_b self)) result.
Proof.
  induction fuel as [|fuel IH]; intros queue blocks result Hblocks.
  { destruct queue as [|[[[??]?]?] ?]; [|done]. by intros [= <-]. }
  destruct queue as [|[[[alo ahi] blo] bhi] queue]; [by intros [= <-]|].
  simpl. pose proof (find_longest_match_matches alo ahi blo bhi) as Hm.
  destruct (find_longest_match self alo ahi blo bhi) as [[i j] k].
  destruct (k =? 0); [by apply IH|].
  apply IH. apply Forall_app. split; [done|]. by constructor.
Qed.

Lemma collapse_matches (a b : list A) rest : ∀ cur acc cur' acc',
  matches a b cur → Forall (matches a b) acc → Forall (matches a b) rest →
  fold_left collapse_step rest (cur, acc) = (cur', acc') →
  matches a b cur' ∧ Forall (matches a b) acc'.
Proof.
  induction rest as [|[[i2 j2] k2] rest IH];
    intros [[i1 j1] k1] acc cur' acc' Hcur Hacc Hrest.
  { by intros [= <- <-]. }
  apply Forall_cons in Hrest as [Hm Hrest]. cbn [fold_left collapse_step].
  destruct (bool_decide (i1 + k1 = i2) && bool_decide (j1 + k1 = j2)) eqn:Hadj.
  - apply andb_prop in Hadj as [<-%bool_decide_eq_true <-%bool_decide_eq_true].
    apply IH; [|done..]. intros d Hd.
    destruct (decide (d < k1)) as [?|?]; [by apply Hcur|].
    replace (i1 + d) with (i1 + k1 + (d - k1)) by lia.
    replace (j1 + d) with (j1 + k1 + (d - k1)) by lia. apply Hm. lia.
  - apply IH; [done| |done]. destruct (k1 =? 0); [done|].
    apply Forall_app. split; [done|]. by constructor.
Qed.

Lemma get_matching_blocks_matches blocks :
  get_matching_blocks self = Some blocks →
  Forall (matches (seq_a self) (seq_b self)) blocks.
Proof.
  unfold get_matching_blocks.
  destruct (matching_loop self _ _ _) as [found|] eqn:Hloop; [|done].
  apply matching_loop_matches in Hloop; [|constructor].
  cbn [mbind option_bind].
  destruct (fold_left collapse_step _ _) as [[[i1 j1] k1] acc] eqn:Hfold.
  apply collapse_matches with (a := seq_a self) (b := seq_b self) in Hfold
    as [Hcur Hacc]; [|by intros d; lia|constructor|].
  - intros [= <-]. apply Forall_app. split; [|constructor; [intros d; lia|done]].
    destruct (k1 =? 0); [done|]. apply Forall_app. split; [done|]. by constructor.
  - by rewrite merge_sort_Permutation.
Qed.
End matches.

(** ** The opcodes fit their tags, and the equal ones are equal *)

Section opcode_facts.
Context `{Countable A}.

Lemma opcode_step_sound (a b : list A) i j answer ai bj size :
  Forall well_tagged answer → Forall (equal_ok a b) answer →
  i ≤ ai → j ≤ bj → matches a b (ai, bj, size) →
  Forall well_tagged (opcode_step (i, j, answer) (ai, bj, size)).2
  ∧ Forall (equal_ok a b) (opcode_step (i, j, answer) (ai, bj, size)).2.
Proof.
  intros Htag Heq Hi Hj Hm. unfold opcode_step.
  set (answer1 := if (i <? ai) && (j <? bj) then _ else _).
  assert (H1 : Forall well_tagged answer1 ∧ Forall (equal_ok a b) answer1).
  { unfold answer1.
    destruct (Nat.ltb_spec i ai), (Nat.ltb_spec j bj); simpl;
      rewrite ?Forall_app, ?Forall_singleton; unfold well_tagged, equal_ok;
      simpl; split_and!; try done; lia. }
  clearbody answer1. destruct H1 as [Htag1 Heq1]. simpl.
  destruct (Nat.eqb_spec size 0); [done|].
  rewrite !Forall_app, !Forall_singleton. split_and!; try done.
  - unfold well_tagged. simpl. lia.
  - unfold equal_ok. simpl. intros _ d Hd. apply Hm. lia.
Qed.

Lemma opcode_step_state i j (answer : list opcode) ai bj size :
  opcode_step (i, j, answer) (ai, bj, size)
  = (ai + size, bj + size, (opcode_step (i, j, answer) (ai, bj, size)).2).
Proof. reflexivity. Qed.

Lemma opcodes_sound (a b : list A) blocks : ∀ i j answer,
  monotone i j blocks → Forall (matches a b) blocks →
  Forall well_tagged answer → Forall (equal_ok a b) answer →
  Forall well_tagged (fold_left opcode_step blocks (i, j, answer)).2
  ∧ Forall (equal_ok a b) (fold_left opcode_step blocks (i, j, answer)).2.
Proof.
  induction blocks as [|[[ai bj] size] blocks IH]; intros i j answer Hmono Hm Htag Heq.
  { done. }
  destruct Hmono as (Hi & Hj & Hmono). apply Forall_cons in Hm as [Hm1 Hm].
  destruct (opcode_step_sound a b i j answer ai bj size) as [Htag' Heq']; [done..|].
  cbn [fold_left]. rewrite opcode_step_state. by apply IH.
Qed.

(** The opcodes of [get_opcodes]: each has the spans its tag asks for, and
    the two spans of an ["equal"] opcode hold the same elements. *)
Lemma get_opcodes_sound (a b : list A) ops :
  get_opcodes (new a b) = Some ops →
  Forall well_tagged ops ∧ Forall (equal_ok a b) ops.
Proof.
  destruct (new_spec a b) as (Ha & Hb & _ & Hb2j).
  destruct (get_matching_blocks_chain (new a b)) as (blocks & Hblocks & Hsorted & Hok).
  assert (Hm : Forall (matches (seq_a (new a b)) (seq_b (new a b)))
            (blocks ++ [(length (seq_a (new a b)), length (seq_b (new a b)), 0)])).
  { apply get_matching_blocks_matches; [by rewrite Hb|done]. }
  unfold get_opcodes. rewrite Hblocks. cbn [mbind option_bind]. intros [= <-].
  revert Hm Hok. rewrite !Ha, !Hb. intros Hm Hok.
  apply opcodes_sound; [|done|constructor..].
  apply (chain_monotone (new a b)); [|apply Forall_forall; intros; lia].
  apply StronglySorted_app_2; [|done|repeat constructor].
  intros x y Hx ->%list_elem_of_singleton.
  rewrite Forall_forall in Hok. specialize (Hok x Hx).
  destruct x as [[??]?]. unfold block_ok, item_ok, block_before, item_before in *.
  simpl in *. lia.
Qed.
End opcode_facts.

(** ** From the opcodes to the sentences *)

Lemma slice_lookup {X} (l : list X) j j' d :
  slice l j j' !! d = if decide (d < j' - j) then l !! (j + d) else None.
Proof.
  unfold slice. case_decide.
  - by rewrite lookup_take_lt, lookup_drop.
  - apply lookup_take_ge. lia.
Qed.

Lemma equal_ok_slice {X} (a b : list X) op :
  well_tagged op → equal_ok a b op → is_equal op = true →
  slice a (i1 op) (i2 op) = slice b (j1 op) (j2 op).
Proof.
  intros Htag Heq Hop. specialize (Heq Hop).
  unfold well_tagged, is_equal in *. destruct (op_tag op); try done.
  destruct Htag as [_ Hlen]. apply list_eq. intros d.
  rewrite !slice_lookup, Hlen. case_decide; [by apply Heq|done].
Qed.

Lemma in_equal_span_original {X} (a b : list X) ops p x :
  Forall (equal_ok a b) ops →
  b !! p = Some x → in_equal_span ops p = true →
  ∃ i, a !! i = Some x.
Proof.
  intros Heq Hp Hin. unfold in_equal_span in Hin.
  apply existsb_exists in Hin as (op & Hop & Hc).
  apply andb_prop in Hc as [Hequal Hc]. unfold covers in Hc.
  apply andb_prop in Hc as [H1%Nat.leb_le H2%Nat.ltb_lt].
  rewrite Forall_forall in Heq.
  specialize (Heq op (proj2 (list_elem_of_In _ _) Hop) Hequal (p - j1 op) ltac:(lia)).
  exists (i1 op + (p - j1 op)). rewrite Heq, <- Hp. f_equal. lia.
Qed.

Lemma elem_of_select_from {X} keep (l : list X) : ∀ q p x,
  l !! p = Some x → keep (q + p) = true → x ∈ select_from keep q l.
Proof.
  induction l as [|y l IH]; intros q p x Hp Hk; [done|].
  destruct p as [|p]; simpl in *.
  - injection Hp as ->. rewrite Nat.add_0_r in Hk. rewrite Hk. by left.
  - specialize (IH (S q) p x Hp). rewrite Nat.add_succ_r in Hk.
    specialize (IH Hk). destruct (keep q); [by right|done].
Qed.

Lemma select_from_sublist {X} keep (l : list X) q :
  select_from keep q l `sublist_of` l.
Proof.
  revert q. induction l as [|y l IH]; intros q; simpl; [done|].
  destruct (keep q); [by apply sublist_skip|by apply sublist_cons].
Qed.

Lemma tiles_end_a ops : ∀ i j i' j', tiles i j ops i' j' → i ≤ i'.
Proof.
  induction ops as [|op ops IH]; intros i j i' j'; simpl.
  - intros [-> _]. done.
  - intros (_ & _ & ? & _ & Ht). apply IH in Ht. lia.
Qed.

(** The slices of a tiling, end to end, are the two sequences. *)
Lemma tiles_concat {X} (a b : list X) ops : ∀ i j i' j',
  tiles i j ops i' j' →
  slice a i i' = concat ((λ op, slice a (i1 op) (i2 op)) <$> ops)
  ∧ slice b j j' = concat ((λ op, slice b (j1 op) (j2 op)) <$> ops).
Proof.
  induction ops as [|op ops IH]; intros i j i' j'.
  - simpl. intros [-> ->]. unfold slice. by rewrite !Nat.sub_diag.
  - intros (Hi1 & Hj1 & Hi2 & Hj2 & Ht).
    pose proof (tiles_end _ _ _ _ _ Ht). pose proof (tiles_end_a _ _ _ _ _ Ht).
    destruct (IH _ _ _ _ Ht) as [IHa IHb].
    rewrite !fmap_cons, !concat_cons, <- IHa, <- IHb, Hi1, Hj1.
    split; by apply slice_split.
Qed.

Lemma tiles_a_spans ops : ∀ i j i' j',
  tiles i j ops i' j' → concat (a_span <$> ops) = seq i (i' - i).
Proof.
  induction ops as [|op ops IH]; intros i j i' j'.
  - simpl. intros [-> _]. by rewrite Nat.sub_diag.
  - intros (Hi1 & Hj1 & Hi2 & Hj2 & Ht).
    pose proof (tiles_end_a _ _ _ _ _ Ht) as Hend.
    rewrite fmap_cons, concat_cons, (IH _ _ _ _ Ht). unfold a_span.
    rewrite Hi1. replace (i' - i) with ((i2 op - i) + (i' - i2 op)) by lia.
    rewrite seq_app. do 2 f_equal. lia.
Qed.

(** When no opcode adds a changed element, the second sequence is the
    first one with some elements left out. *)
Lemma unchanged_sublist {X} (a b : list X) ops :
  Forall well_tagged ops → Forall (equal_ok a b) ops →
  concat ((λ op, if is_equal op then [] else slice b (j1 op) (j2 op)) <$> ops) = [] →
  concat ((λ op, slice b (j1 op) (j2 op)) <$> ops)
    `sublist_of` concat ((λ op, slice a (i1 op) (i2 op)) <$> ops).
Proof.
  induction ops as [|op ops IH]; intros Htag Heq Hnil; [done|].
  apply Forall_cons in Htag as [Htag1 Htag], Heq as [Heq1 Heq].
  rewrite fmap_cons, concat_cons in Hnil. apply app_eq_nil in Hnil as [Hop Hnil].
  rewrite !fmap_cons, !concat_cons. apply sublist_app; [|by apply IH].
  destruct (is_equal op) eqn:Hequal.
  - by rewrite (equal_ok_slice a b op).
  - rewrite Hop. apply sublist_nil_l.
Qed.

(** ** An element common to the two sequences is found *)

Section hit.
Context `{Countable A}.
Variable self : SequenceMatcher A.
Hypothesis Hb2j : b2j_ok (seq_b self) (b2j self).

Lemma scan_row_grows i blo bhi j2len js : ∀ newj2len best,
  best.2 ≤ (scan_row i blo bhi j2len js newj2len best).2.2.
Proof.
  induction js as [|j js IH]; intros newj2len best; [done|].
  simpl. destruct (j <? blo); [apply IH|].
  destruct (bhi <=? j); [done|].
  etrans; [|apply IH]. destruct (Nat.ltb_spec best.2 (default 0 (j2len !! (Z.of_nat j - 1)%Z) + 1));
    simpl; lia.
Qed.

Lemma scan_row_hit i blo bhi j2len js : ∀ newj2len best j,
  StronglySorted lt js → j ∈ js → blo ≤ j < bhi →
  1 ≤ (scan_row i blo bhi j2len js newj2len best).2.2.
Proof.
  induction js as [|j0 js IH]; intros newj2len best j Hsorted Hj Hin.
  { by apply elem_of_nil in Hj. }
  apply StronglySorted_inv in Hsorted as [Hsorted Hlt].
  rewrite Forall_forall in Hlt.
  simpl. destruct (Nat.ltb_spec j0 blo).
  { apply elem_of_cons in Hj as [->|Hj]; [lia|]. by apply (IH _ _ j). }
  destruct (Nat.leb_spec bhi j0).
  { apply elem_of_cons in Hj as [->|Hj]; [lia|]. specialize (Hlt j Hj). lia. }
  etrans; [|apply scan_row_grows].
  destruct (Nat.ltb_spec best.2 (default 0 (j2len !! (Z.of_nat j0 - 1)%Z) + 1));
    simpl; lia.
Qed.

Lemma scan_step_grows blo bhi st i :
  st.2.2 ≤ (scan_step self blo bhi st i).2.2.
Proof. apply scan_row_grows. Qed.

Lemma scan_step_hit blo bhi st i j x :
  seq_a self !! i = Some x → seq_b self !! j = Some x →
  is_Some (b2j self !! x) → blo ≤ j < bhi →
  1 ≤ (scan_step self blo bhi st i).2.2.
Proof.
  intros Hi Hj [js Hjs] Hin. unfold scan_step. rewrite Hi, Hjs. simpl.
  destruct (Hb2j x js Hjs) as [Hsorted Hmem].
  apply (scan_row_hit _ _ _ _ _ _ _ j); [done| |done]. by apply Hmem.
Qed.

Lemma scan_grows blo bhi rows : ∀ st,
  st.2.2 ≤ (fold_left (scan_step self blo bhi) rows st).2.2.
Proof.
  induction rows as [|i rows IH]; intros st; [done|].
  simpl. etrans; [apply (scan_step_grows blo bhi st i)|apply IH].
Qed.

Lemma scan_hit blo bhi rows i j x : ∀ st,
  i ∈ rows →
  seq_a self !! i = Some x → seq_b self !! j = Some x →
  is_Some (b2j self !! x) → blo ≤ j < bhi →
  1 ≤ (fold_left (scan_step self blo bhi) rows st).2.2.
Proof.
  induction rows as [|i0 rows IH]; intros st Hi Ha Hb Hkey Hj.
  { by apply elem_of_nil in Hi. }
  simpl. apply elem_of_cons in Hi as [->|Hi]; [|by apply IH].
  etrans; [|apply scan_grows]. by eapply scan_step_hit.
Qed.

Lemma extend_left_grows P (a b : list A) alo blo besti : ∀ bestj bestsize,
  bestsize ≤ (extend_left P a b alo blo besti bestj bestsize).2.
Proof.
  induction besti as [|i IH]; intros bestj bestsize; simpl; [done|].
  destruct (_ && _); [|done]. etrans; [|apply IH]. lia.
Qed.

Lemma extend_right_grows P (a b : list A) ahi bhi besti bestj n : ∀ bestsize,
  bestsize ≤ (extend_right n P a b ahi bhi besti bestj bestsize).2.
Proof.
  induction n as [|n IH]; intros bestsize; simpl; [done|].
  destruct (_ && _); [|done]. etrans; [|apply IH]. lia.
Qed.

Lemma extend_grows P (a b : list A) alo ahi blo bhi best :
  best.2 ≤ (extend P a b alo ahi blo bhi best).2.
Proof.
  destruct best as [[i j] k]. unfold extend.
  pose proof (extend_left_grows P a b alo blo i j k) as Hl.
  destruct (extend_left P a b alo blo i j k) as [[i' j'] k']. simpl in *.
  etrans; [exact Hl|]. apply extend_right_grows.
Qed.

(** When an element of [a] in the rectangle is an element of [b] in the
    rectangle, and a key of [b2j], the block that is found is not empty. *)
Lemma find_longest_match_hit alo ahi blo bhi i j x :
  alo ≤ i < ahi → blo ≤ j < bhi →
  seq_a self !! i = Some x → seq_b self !! j = Some x →
  is_Some (b2j self !! x) →
  1 ≤ (find_longest_match self alo ahi blo bhi).2.
Proof.
  intros Hi Hj Ha Hb Hkey. unfold find_longest_match.
  etrans; [|apply extend_grows]. etrans; [|apply extend_grows].
  apply (scan_hit _ _ _ i j x); [|done..].
  apply elem_of_seq. lia.
Qed.

Lemma matching_loop_positive fuel : ∀ queue acc blocks,
  Forall (λ m : Match, 0 < m.2) acc →
  matching_loop self fuel queue acc = Some blocks →
  Forall (λ m : Match, 0 < m.2) blocks.
Proof.
  induction fuel as [|fuel IH]; intros queue acc blocks Hacc.
  { destruct queue as [|[[[??]?]?] ?]; simpl; [by intros [= <-]|done]. }
  destruct queue as [|[[[alo ahi] blo] bhi] queue]; simpl; [by intros [= <-]|].
  destruct (find_longest_match self alo ahi blo bhi) as [[i j] k].
  destruct (Nat.eqb_spec k 0); [by apply IH|].
  apply IH. apply Forall_app. split; [done|]. constructor; [simpl; lia|constructor].
Qed.

Lemma matching_loop_prefix fuel : ∀ queue acc blocks,
  matching_loop self fuel queue acc = Some blocks → acc `prefix_of` blocks.
Proof.
  induction fuel as [|fuel IH]; intros queue acc blocks.
  { destruct queue as [|[[[??]?]?] ?]; simpl; [by intros [= <-]|done]. }
  destruct queue as [|[[[alo ahi] blo] bhi] queue]; simpl; [by intros [= <-]|].
  destruct (find_longest_match self alo ahi blo bhi) as [[i j] k].
  destruct (Nat.eqb_spec k 0); [by apply IH|].
  intros Hpre%IH. etrans; [|exact Hpre]. by apply prefix_app_r.
Qed.

End hit.

Lemma collapse_positive rest : ∀ (st : Match * list Match),
  Forall (λ m : Match, 0 < m.2) rest →
  rest ≠ [] ∨ 0 < st.1.2 →
  0 < (fold_left collapse_step rest st).1.2.
Proof.
  induction rest as [|m rest IH]; intros st Hpos Hst.
  { by destruct Hst. }
  apply Forall_cons in Hpos as [Hm Hpos]. simpl. apply IH; [done|]. right.
  destruct st as [[[i1 j1] k1] acc], m as [[i2 j2] k2]. simpl in *.
  destruct (_ && _); simpl; lia.
Qed.

Lemma opcode_step_prefix st m : st.2 `prefix_of` (opcode_step st m).2.
Proof.
  destruct st as [[i j] answer], m as [[ai bj] size]. simpl.
  repeat match goal with |- context [if ?c then _ else _] => destruct c end;
    simpl; rewrite <- ?app_assoc; first [reflexivity|apply prefix_app_r; reflexivity].
Qed.

Lemma opcodes_prefix blocks : ∀ st,
  st.2 `prefix_of` (fold_left opcode_step blocks st).2.
Proof.
  induction blocks as [|m blocks IH]; intros st; [done|].
  simpl. etrans; [apply (opcode_step_prefix st m)|apply IH].
Qed.

Lemma opcode_step_equal st m :
  0 < m.2 → ∃ op, op ∈ (opcode_step st m).2 ∧ is_equal op = true.
Proof.
  destruct st as [[i j] answer], m as [[ai bj] size]. simpl. intros Hsize.
  destruct (Nat.eqb_spec size 0); [lia|].
  eexists. split; [apply elem_of_app; right; by apply list_elem_of_singleton|done].
Qed.

Lemma opcodes_equal blocks : ∀ st m,
  m ∈ blocks → 0 < m.2 →
  ∃ op, op ∈ (fold_left opcode_step blocks st).2 ∧ is_equal op = true.
Proof.
  induction blocks as [|m0 blocks IH]; intros st m Hm Hsize.
  { by apply elem_of_nil in Hm. }
  simpl. apply elem_of_cons in Hm as [->|Hm]; [|by eapply IH].
  destruct (opcode_step_equal st m0 Hsize) as (op & Hop & Hequal).
  exists op. split; [|done].
  by eapply elem_of_prefix; [|apply opcodes_prefix].
Qed.

Lemma select_from_shorter {X} keep (l : list X) : ∀ p q,
  p ≤ q < p + length l → keep q = false →
  length (select_from keep p l) < length l.
Proof.
  induction l as [|x l IH]; intros p q Hq Hkeep; simpl in *; [lia|].
  destruct (decide (q = p)) as [->|Hne].
  - rewrite Hkeep. pose proof (sublist_length _ _ (select_from_sublist keep l (S p))).
    lia.
  - specialize (IH (S p) q ltac:(lia) Hkeep).
    destruct (keep p); simpl; lia.
Qed.

Section shared.
Context `{Countable A}.

Lemma get_matching_blocks_shared (self : SequenceMatcher A) i j x :
  b2j_ok (seq_b self) (b2j self) →
  seq_a self !! i = Some x → seq_b self !! j = Some x →
  is_Some (b2j self !! x) →
  ∃ blocks m, get_matching_blocks self = Some blocks ∧ m ∈ blocks ∧ 0 < m.2.
Proof.
  intros Hb2j Ha Hb Hkey.
  destruct (get_matching_blocks_chain self) as (bl & Hget & _ & _).
  revert Hget. unfold get_matching_blocks.
  set (la := length (seq_a self)). set (lb := length (seq_b self)).
  destruct (matching_loop self (2 * la + 1) [(0, la, 0, lb)] []) as [mb|] eqn:Hloop;
    [|done].
  intros _. cbn [mbind option_bind].
  assert (Hpos : Forall (λ m : Match, 0 < m.2) mb).
  { eapply matching_loop_positive; [|exact Hloop]. constructor. }
  assert (Hne : mb ≠ []).
  { replace (2 * la + 1) with (S (2 * la)) in Hloop by lia.
    cbn [matching_loop] in Hloop.
    pose proof (find_longest_match_hit self Hb2j 0 la 0 lb i j x) as Hk.
    destruct (find_longest_match self 0 la 0 lb) as [[i0 j0] k0].
    apply lookup_lt_Some in Ha as Hi. apply lookup_lt_Some in Hb as Hj.
    specialize (Hk ltac:(unfold la; lia) ltac:(unfold lb; lia) Ha Hb Hkey).
    simpl in Hk. destruct (Nat.eqb_spec k0 0); [lia|].
    apply matching_loop_prefix in Hloop. intros ->.
    by apply prefix_nil_inv in Hloop. }
  assert (Hpos' : Forall (λ m : Match, 0 < m.2) (merge_sort Match_le mb)).
  { by rewrite merge_sort_Permutation. }
  assert (Hne' : merge_sort Match_le mb ≠ []).
  { intros Hnil. apply Hne. apply Permutation_nil_r.
    rewrite <- Hnil. by rewrite merge_sort_Permutation. }
  pose proof (collapse_positive _ (0, 0, 0, []) Hpos' (or_introl Hne')) as Hcur.
  destruct (fold_left collapse_step (merge_sort Match_le mb) (0, 0, 0, []))
    as [[[i1 j1] k1] acc].
  simpl in Hcur. destruct (Nat.eqb_spec k1 0); [lia|].
  eexists _, (i1, j1, k1). split; [done|]. split; [|simpl; lia].
  rewrite !elem_of_app, !list_elem_of_singleton. by left; right.
Qed.

(** Fewer than 200 elements: no element is popular, so every element of
    [b] is a key of [b2j]. *)
Lemma new_keys (a b : list A) j x :
  length b < 200 → b !! j = Some x → is_Some (b2j (new a b) !! x).
Proof.
  intros Hlen Hj. unfold new. rewrite bool_decide_eq_false_2 by lia. simpl.
  by eapply index_elements_ok.
Qed.

Lemma get_opcodes_shared (a b : list A) x :
  length b < 200 → x ∈ a → x ∈ b →
  ∃ ops op, get_opcodes (new a b) = Some ops ∧ op ∈ ops ∧ is_equal op = true.
Proof.
  intros Hlen [i Hi]%list_elem_of_lookup_1 [j Hj]%list_elem_of_lookup_1.
  destruct (new_spec a b) as (Ha & Hb & _ & Hb2j).
  destruct (get_matching_blocks_shared (new a b) i j x) as (blocks & m & Hget & Hm & Hsize).
  - by rewrite Hb.
  - by rewrite Ha.
  - by rewrite Hb.
  - by eapply new_keys.
  - unfold get_opcodes. rewrite Hget. cbn [mbind option_bind].
    destruct (opcodes_equal blocks (0, 0, []) m Hm Hsize) as (op & Hop & Hequal).
    by eexists _, op.
Qed.

End shared.

Lemma tiles_within ops : ∀ i j i' j' op,
  tiles i j ops i' j' → op ∈ ops → j ≤ j1 op ∧ j2 op ≤ j'.
Proof.
  induction ops as [|op0 ops IH]; intros i j i' j' op Ht Hop.
  { by apply elem_of_nil in Hop. }
  destruct Ht as (_ & Hj1 & _ & Hj2 & Ht).
  apply elem_of_cons in Hop as [->|Hop].
  - apply tiles_end in Ht. lia.
  - destruct (IH _ _ _ _ op Ht Hop). lia.
Qed.

(** ** The classifier *)

Section app_facts.
Variable lower : str → str.
Variable response_text : list event → option str.

Lemma validate_valid answer : validate lower answer ∈ category_names.
Proof.
  unfold validate. case_bool_decide; [done|].
  unfold category_names. set_solver.
Qed.

Lemma gemini_generate_events prompt max_output_tokens tr :
  (gemini_generate response_text prompt max_output_tokens tr).1
  = tr ++ [generate_content prompt max_output_tokens].
Proof. unfold gemini_generate. by destruct (response_text _). Qed.

(** The loop stores nothing but the five names. *)
Lemma classify_valid changed : ∀ categories tr tr' categories',
  map_Forall (λ _ c, c ∈ category_names) categories →
  classify lower response_text changed categories tr = (tr', inr categories') →
  map_Forall (λ _ c, c ∈ category_names) categories'.
Proof.
  induction changed as [|sent changed IH]; intros categories tr tr' categories' Hok.
  { by intros [= _ <-]. }
  cbn [classify]. unfold mbind, script_bind, gemini_generate.
  destruct (response_text _) as [text|]; [|done].
  apply IH. apply map_Forall_insert_2; [apply validate_valid|done].
Qed.

(** What the loop does, call by call. *)
Lemma classify_snoc changed : ∀ sent categories tr,
  classify lower response_text (changed ++ [sent]) categories tr
  = match classify lower response_text changed categories tr with
    | (tr', inr categories') =>
        match response_text (tr' ++ [generate_content (classify_prompt sent) 5]) with
        | Some text =>
            (tr' ++ [generate_content (classify_prompt sent) 5],
             inr (<[strip sent := validate lower (strip text)]> categories'))
        | None =>
            (tr' ++ [generate_content (classify_prompt sent) 5], inl GenerationFailure)
        end
    | (tr', inl h) => (tr', inl h)
    end.
Proof.
  induction changed as [|s changed IH]; intros sent categories tr.
  - cbn [List.app classify]. unfold mbind, script_bind, gemini_generate, mret, script_ret.
    by destruct (response_text _).
  - cbn [List.app classify]. unfold mbind, script_bind, gemini_generate.
    destruct (response_text _) as [text|]; [|done]. apply IH.
Qed.

Lemma classify_events changed : ∀ categories tr tr' categories',
  classify lower response_text changed categories tr = (tr', inr categories') →
  tr' = tr ++ classification_calls changed.
Proof.
  induction changed as [|sent changed IH]; intros categories tr tr' categories'.
  { intros [= <- _]. by rewrite app_nil_r. }
  cbn [classify]. unfold mbind, script_bind, gemini_generate.
  destruct (response_text _) as [text|]; [|done].
  intros ->%IH. unfold classification_calls. by rewrite fmap_cons, <- app_assoc.
Qed.

Lemma classify_other changed key : ∀ categories tr tr' categories',
  Forall (λ s, strip s ≠ key) changed →
  classify lower response_text changed categories tr = (tr', inr categories') →
  categories' !! key = categories !! key.
Proof.
  induction changed as [|sent changed IH]; intros categories tr tr' categories' Hkey.
  { by intros [= _ <-]. }
  apply Forall_cons in Hkey as [Hsent Hkey].
  cbn [classify]. unfold mbind, script_bind, gemini_generate.
  destruct (response_text _) as [text|]; [|done].
  intros ->%IH; [|done]. by rewrite lookup_insert_ne.
Qed.

Lemma classify_app l1 : ∀ l2 categories tr,
  classify lower response_text (l1 ++ l2) categories tr
  = match classify lower response_text l1 categories tr with
    | (tr', inr categories') => classify lower response_text l2 categories' tr'
    | (tr', inl h) => (tr', inl h)
    end.
Proof.
  induction l1 as [|s l1 IH]; intros l2 categories tr; [done|].
  cbn [List.app classify]. unfold mbind, script_bind, gemini_generate.
  destruct (response_text _) as [text|]; [|done]. apply IH.
Qed.

(** When the model answers every call, the loop comes to its end. *)
Lemma classify_total changed : ∀ categories tr,
  (∀ tr, is_Some (response_text tr)) →
  ∃ categories',
    classify lower response_text changed categories tr
    = (tr ++ classification_calls changed, inr categories').
Proof.
  induction changed as [|sent changed IH]; intros categories tr Hanswers.
  { exists categories. unfold classification_calls. simpl. by rewrite app_nil_r. }
  cbn [classify]. unfold mbind, script_bind, gemini_generate.
  destruct (Hanswers (tr ++ [generate_content (classify_prompt sent) 5])) as [text ->].
  destruct (IH (<[strip sent := validate lower (strip text)]> categories)
              (tr ++ [generate_content (classify_prompt sent) 5]) Hanswers)
    as (categories' & ->).
  exists categories'. unfold classification_calls.
  by rewrite fmap_cons, <- app_assoc.
Qed.

(** ** The script, from the key to the panel *)

Lemma app_no_key style_choice user_input button :
  run lower response_text None style_choice user_input button
  = ([st_error ([9888%N; 65039%N]
        ++ py " Gemini API key not found. Please set GEMINI_API_KEY as an environment variable.");
      st_stop], inl StopException).
Proof. reflexivity. Qed.

Lemma app_empty_key style_choice user_input button :
  run lower response_text (Some []) style_choice user_input button
  = run lower response_text None style_choice user_input button.
Proof. reflexivity. Qed.

Lemma app_idle key style_choice user_input :
  key ≠ [] →
  run lower response_text (Some key) style_choice user_input false
  = (setup_events key, inr ()).
Proof. destruct key; [done|]. reflexivity. Qed.

Lemma app_warning key style_choice user_input :
  key ≠ [] → strip user_input = [] →
  run lower response_text (Some key) style_choice user_input true
  = (setup_events key ++ [st_warning (py "Please enter some text first.")], inr ()).
Proof.
  destruct key; [done|]. intros _ Hblank. unfold run, app_py.
  rewrite bool_decide_eq_true_2 by done. reflexivity.
Qed.

Lemma app_polish key style_choice user_input :
  key ≠ [] → strip user_input ≠ [] →
  run lower response_text (Some key) style_choice user_input true
  = polish lower response_text style_choice user_input (setup_events key).
Proof.
  destruct key; [done|]. intros _ Hdraft. unfold run, app_py.
  rewrite bool_decide_eq_false_2 by done. reflexivity.
Qed.

Lemma polish_events style_choice user_input tr text :
  (∀ tr, is_Some (response_text tr)) →
  response_text (tr ++ [st_spinner (py "Polishing your text...");
                        generate_content (polish_prompt style_choice user_input) 600])
    = Some text →
  ∃ changed categories,
    changed_sentences (split_sentences user_input) (split_sentences (strip text))
      = Some changed
    ∧ classify lower response_text changed ∅
        (tr ++ [st_spinner (py "Polishing your text...");
                generate_content (polish_prompt style_choice user_input) 600])
      = ((tr ++ [st_spinner (py "Polishing your text...");
                 generate_content (polish_prompt style_choice user_input) 600])
           ++ classification_calls changed, inr categories)
    ∧ polish lower response_text style_choice user_input tr
      = ((tr ++ [st_spinner (py "Polishing your text...");
                 generate_content (polish_prompt style_choice user_input) 600])
           ++ classification_calls changed
           ++ panel_events
                (highlight_sentences (split_sentences (strip text)) categories),
         inr ()).
Proof.
  intros Hanswers Htext.
  destruct (changed_sentences_select (split_sentences user_input)
              (split_sentences (strip text))) as (ops & _ & _ & Hchanged).
  set (changed := select _ _) in Hchanged.
  destruct (classify_total changed ∅
              (tr ++ [st_spinner (py "Polishing your text...");
                      generate_content (polish_prompt style_choice user_input) 600])
              Hanswers) as (categories & Hclassify).
  exists changed, categories. split_and!; [done|exact Hclassify|].
  unfold polish, mbind, script_bind, emit, gemini_generate.
  rewrite <- app_assoc. cbn [List.app]. rewrite Htext, Hchanged.
  rewrite <- app_assoc in Hclassify. cbn [List.app] in Hclassify. rewrite Hclassify.
  unfold panel_events. by rewrite <- !app_assoc.
Qed.
End app_facts.

Lemma llm_calls_app tr1 tr2 : llm_calls (tr1 ++ tr2) = llm_calls tr1 ++ llm_calls tr2.
Proof. apply List.filter_app. Qed.

Lemma llm_calls_classification sentences :
  llm_calls (classification_calls sentences) = classification_calls sentences.
Proof. induction sentences as [|s l IH]; [done|]. simpl. by rewrite IH. Qed.

Lemma distinct_le sentences : distinct sentences ≤ length sentences.
Proof.
  unfold distinct. rewrite <- (length_fmap strip sentences).
  generalize (strip <$> sentences). intros l.
  induction l as [|x l IH]; [done|]. simpl. case_decide; simpl; lia.
Qed.

Lemma distinct_NoDup sentences :
  NoDup (strip <$> sentences) → distinct sentences = length sentences.
Proof.
  intros Hnd. unfold distinct. rewrite <- (length_fmap strip sentences).
  revert Hnd. generalize (strip <$> sentences). intros l.
  induction 1 as [|x l Hx Hl IH]; [done|]. simpl.
  case_decide; [done|]. simpl. by rewrite IH.
Qed.

(** ** The highlighter *)

Lemma highlight_one_valid (categories : gmap str str) sent category :
  categories !! strip sent = Some category →
  category ∈ category_names →
  ∃ color, (category, color) ∈ category_colors
    ∧ highlight_one categories sent = styled color sent.
Proof.
  intros Hc Hin. unfold highlight_one. rewrite Hc.
  unfold category_names in Hin.
  repeat (apply elem_of_cons in Hin as [->|Hin]); [..|by apply elem_of_nil in Hin].
  - exists (py "#ffcccc"). split; [unfold category_colors; set_solver|reflexivity].
  - exists (py "#cce5ff"). split; [unfold category_colors; set_solver|reflexivity].
  - exists (py "#fff3cd"). split; [unfold category_colors; set_solver|reflexivity].
  - exists (py "#d5f5e3"). split; [unfold category_colors; set_solver|reflexivity].
  - exists (py "#e8d4f8"). split; [unfold category_colors; set_solver|reflexivity].
Qed.

Lemma highlight_one_missing (categories : gmap str str) sent :
  categories !! strip sent = None → highlight_one categories sent = sent.
Proof. intros Hc. unfold highlight_one. by rewrite Hc. Qed.

(** ** The diff of two sentence sequences, all facts together *)

Lemma changed_sentences_sound (orig polished : list str) :
  ∃ opcodes,
    get_opcodes (new orig polished) = Some opcodes
    ∧ tiles 0 0 opcodes (length orig) (length polished)
    ∧ Forall well_tagged opcodes
    ∧ Forall (equal_ok orig polished) opcodes
    ∧ changed_sentences orig polished
      = Some (select (λ p, negb (in_equal_span opcodes p)) polished)
    ∧ select (λ p, negb (in_equal_span opcodes p)) polished
      = changed_of_opcodes polished opcodes.
Proof.
  destruct (changed_sentences_select orig polished) as (opcodes & Hops & Ht & Hch).
  destruct (get_opcodes_sound orig polished opcodes Hops) as [Htag Heq].
  exists opcodes. split_and!; try done.
  unfold changed_sentences in Hch. rewrite Hops in Hch. simpl in Hch. congruence.
Qed.

Lemma list_to_set_size_remove_dups (l : list str) :
  size (list_to_set l : gset str) = length (remove_dups l).
Proof.
  rewrite <- (size_list_to_set (C:=gset str) (remove_dups l)) by apply NoDup_remove_dups.
  f_equal. apply set_eq. intros x.
  by rewrite !elem_of_list_to_set, elem_of_remove_dups.
Qed.

Lemma highlight_sentences_empty (polished_sentences : list str) :
  highlight_sentences polished_sentences ∅ = join (py " ") polished_sentences.
Proof.
  unfold highlight_sentences, highlight_output. f_equal.
  induction polished_sentences as [|s l IH]; [done|].
  rewrite fmap_cons, IH. f_equal.
Qed.

Section app_more.
Variable lower : str → str.
Variable response_text : list event → option str.

(** The keys of the mapping: the trimmed texts of the sentences the loop
    has gone through. *)
Lemma classify_dom changed : ∀ (categories : gmap str str) tr tr' categories',
  classify lower response_text changed categories tr = (tr', inr categories') →
  dom categories' = dom categories ∪ list_to_set (strip <$> changed).
Proof.
  induction changed as [|sent changed IH]; intros categories tr tr' categories'.
  { intros [= _ <-]. simpl. set_solver. }
  cbn [classify]. unfold mbind, script_bind, gemini_generate.
  destruct (response_text _) as [text|]; [|done].
  intros ->%IH. rewrite dom_insert_L, fmap_cons. set_solver.
Qed.

(** A call without an answer ends the loop there and then. *)
Lemma classify_failure changed : ∀ (categories : gmap str str) tr tr' h,
  classify lower response_text changed categories tr = (tr', inl h) →
  h = GenerationFailure
  ∧ response_text tr' = None
  ∧ ∃ answered sent rest,
      changed = answered ++ sent :: rest
      ∧ tr' = tr ++ classification_calls (answered ++ [sent]).
Proof.
  induction changed as [|sent changed IH]; intros categories tr tr' h; [done|].
  cbn [classify]. unfold mbind, script_bind, gemini_generate.
  destruct (response_text _) as [text|] eqn:Htext.
  - intros (-> & Hnone & answered & s & rest & -> & ->)%IH.
    split_and!; [done|done|].
    exists (sent :: answered), s, rest. split; [done|].
    unfold classification_calls. by rewrite <- app_assoc.
  - intros [= <- <-]. split_and!; [done|done|].
    by exists [], sent, changed.
Qed.

(** [polish], step by step. *)
Lemma polish_unfold style_choice user_input tr :
  polish lower response_text style_choice user_input tr
  = let tr1 := tr ++ [st_spinner (py "Polishing your text...");
                      generate_content (polish_prompt style_choice user_input) 600] in
    match response_text tr1 with
    | None => (tr1, inl GenerationFailure)
    | Some text =>
        match changed_sentences (split_sentences user_input)
                (split_sentences (strip text)) with
        | None => (tr1, inl GenerationFailure)
        | Some changed =>
            match classify lower response_text changed ∅ tr1 with
            | (tr2, inr categories) =>
                (tr2 ++ panel_events
                          (highlight_sentences (split_sentences (strip text)) categories),
                 inr ())
            | (tr2, inl h) => (tr2, inl h)
            end
        end
    end.
Proof.
  unfold polish, mbind, script_bind, emit, gemini_generate.
  rewrite <- app_assoc. cbn [List.app].
  destruct (response_text _) as [text|]; [|done].
  destruct (changed_sentences _ _) as [changed|]; [|done].
  destruct (classify _ _ _ _ _) as [tr2 [h|categories]]; [done|].
  unfold panel_events. by rewrite <- !app_assoc.
Qed.

(** The events of the loop are model calls, whether it comes to its end
    or not. *)
Lemma classify_calls changed : ∀ (categories : gmap str str) tr,
  ∃ asked, asked `prefix_of` changed
    ∧ (classify lower response_text changed categories tr).1
      = tr ++ classification_calls asked.
Proof.
  induction changed as [|sent changed IH]; intros categories tr.
  { exists []. simpl. by rewrite app_nil_r. }
  cbn [classify]. unfold mbind, script_bind, gemini_generate.
  destruct (response_text _) as [text|] eqn:Htext.
  - destruct (IH (<[strip sent := validate lower (strip text)]> categories)
                (tr ++ [generate_content (classify_prompt sent) 5]))
      as (asked & Hpre & Heq).
    exists (sent :: asked). split; [by apply prefix_cons|].
    destruct (classify _ _ _ _ _) as [tr2 [h|c]]; simpl in *;
      rewrite Heq; unfold classification_calls; by rewrite <- app_assoc.
  - exists [sent]. split; [|done]. by apply prefix_cons, prefix_nil.
Qed.

End app_more.

Lemma markdown_classification sentences :
  List.filter is_st_markdown (classification_calls sentences) = [].
Proof. induction sentences as [|s l IH]; [done|]. simpl. by rewrite IH. Qed.

Section outcomes.
Variable lower : str → str.
Variable response_text : list event → option str.

(** The three ways [polish] can go: the polish request fails; a
    classification request fails; every request is answered. *)
Lemma polish_outcome style_choice user_input tr :
  (response_text (tr ++ polish_call style_choice user_input) = None
   ∧ polish lower response_text style_choice user_input tr
     = (tr ++ polish_call style_choice user_input, inl GenerationFailure))
  ∨ ∃ text changed,
      response_text (tr ++ polish_call style_choice user_input) = Some text
      ∧ changed_sentences (split_sentences user_input) (split_sentences (strip text))
        = Some changed
      ∧ ((∃ answered sent rest,
            changed = answered ++ sent :: rest
            ∧ response_text (tr ++ polish_call style_choice user_input
                               ++ classification_calls (answered ++ [sent])) = None
            ∧ polish lower response_text style_choice user_input tr
              = (tr ++ polish_call style_choice user_input
                    ++ classification_calls (answered ++ [sent]),
                 inl GenerationFailure))
         ∨ (∃ categories,
              classify lower response_text changed ∅
                (tr ++ polish_call style_choice user_input)
              = ((tr ++ polish_call style_choice user_input)
                   ++ classification_calls changed, inr categories)
              ∧ polish lower response_text style_choice user_input tr
                = (tr ++ polish_call style_choice user_input
                      ++ classification_calls changed
                      ++ panel_events
                           (highlight_sentences (split_sentences (strip text))
                              categories),
                   inr ()))).
Proof.
  rewrite polish_unfold. cbn zeta. fold (polish_call style_choice user_input).
  destruct (response_text (tr ++ polish_call style_choice user_input))
    as [text|] eqn:Htext; [right|by left].
  destruct (changed_sentences_select (split_sentences user_input)
              (split_sentences (strip text))) as (ops & _ & _ & Hchanged).
  set (changed := select _ _) in Hchanged. rewrite Hchanged.
  exists text, changed. split_and!; [done..|].
  destruct (classify _ _ _ _ _) as [tr2 [h|categories]] eqn:Hc.
  - left. apply classify_failure in Hc
      as (-> & Hnone & answered & sent & rest & Hsplit & ->).
    exists answered, sent, rest. by rewrite <- !app_assoc in *.
  - right. pose proof (classify_events _ _ _ _ _ _ _ Hc) as ->.
    exists categories. by rewrite <- !app_assoc.
Qed.

End outcomes.

Lemma changed_sentences_sublist_of (orig polished changed : list str) :
  changed_sentences orig polished = Some changed → changed `sublist_of` polished.
Proof.
  destruct (changed_sentences_select orig polished) as (opcodes & _ & _ & Hchanged).
  rewrite Hchanged. intros [= <-]. apply select_from_sublist.
Qed.

(** A name that is not one of the five has no style. *)
Lemma highlights_unknown (category : str) :
  category ∉ category_names → highlights !! category = None.
Proof.
  intros Hnot. unfold highlights. apply not_elem_of_list_to_map_1.
  intros Hin. apply Hnot. exact Hin.
Qed.

Section calls.
Variable lower : str → str.
Variable response_text : list event → option str.

(** The model calls of [polish]: the polish request, then classification
    requests for polished sentences. *)
Lemma polish_calls style_choice user_input tr :
  ∃ asked,
    llm_calls (polish lower response_text style_choice user_input tr).1
    = llm_calls tr
      ++ generate_content (polish_prompt style_choice user_input) 600
         :: classification_calls asked
    ∧ ∀ text,
        response_text (tr ++ polish_call style_choice user_input) = Some text →
        asked `sublist_of` split_sentences (strip text).
Proof.
  destruct (polish_outcome lower response_text style_choice user_input tr)
    as [[Hnone ->]|(text & changed & Htext & Hchanged
                    & [(answered & sent & rest & Hsplit & Hnone & ->)
                      |(categories & _ & ->)])].
  - exists []. split; [cbn [fst]; by rewrite llm_calls_app|].
    intros text. by rewrite Hnone.
  - exists (answered ++ [sent]). split.
    + cbn [fst]. by rewrite !llm_calls_app, llm_calls_classification.
    + intros text'. rewrite Htext. intros [= <-]. apply changed_sentences_sublist_of in Hchanged.
      etrans; [|exact Hchanged]. rewrite Hsplit.
      replace (answered ++ sent :: rest) with ((answered ++ [sent]) ++ rest)
        by (by rewrite <- app_assoc).
      by apply sublist_inserts_r.
  - exists changed. split.
    + cbn [fst]. rewrite !llm_calls_app, llm_calls_classification. simpl.
      by rewrite app_nil_r.
    + intros text'. rewrite Htext. intros [= <-]. by eapply changed_sentences_sublist_of.
Qed.

End calls.

(** * The claims *)

(** C1.  For every pair of sentence sequences the change detector returns
    exactly the polished sentences whose position lies in no span of an
    opcode tagged "equal", which are those in the span of a replace, insert
    or delete opcode, in the order of the polished sequence and with its
    repetitions; two sequences that are equal element for element give no
    changed sentence. *)
Theorem changed_sentences_spec (orig_sentences polished_sentences : list str) :
  ∃ opcodes,
    get_opcodes (new orig_sentences polished_sentences) = Some opcodes
    ∧ changed_sentences orig_sentences polished_sentences
      = Some (select (λ p, negb (in_equal_span opcodes p)) polished_sentences)
    ∧ select (λ p, negb (in_equal_span opcodes p)) polished_sentences
      = select (in_changed_span opcodes) polished_sentences
    ∧ changed_sentences orig_sentences orig_sentences = Some [].
Proof.
  destruct (changed_sentences_select orig_sentences polished_sentences)
    as (opcodes & Hops & Ht & Hchanged).
  exists opcodes. split_and!; [done..| |apply changed_sentences_identical].
  unfold select. apply select_from_ext. intros q Hq.
  destruct (tiles_once _ _ _ _ _ q Ht) as [_ ->]; [simpl in Hq; lia|].
  done.
Qed.

(** C9.  For every pair of sentence sequences the diff returns opcodes
    whose spans on the polished side, put end to end, are the positions of
    the polished sequence, each once: every position lies in the span of
    exactly one opcode, so it is changed or unchanged, never both and never
    neither. *)
Theorem opcodes_partition (orig_sentences polished_sentences : list str) :
  ∃ opcodes,
    get_opcodes (new orig_sentences polished_sentences) = Some opcodes
    ∧ concat (b_span <$> opcodes) = seq 0 (length polished_sentences)
    ∧ Forall (λ p, length (List.filter (covers p) opcodes) = 1
                   ∧ in_changed_span opcodes p = negb (in_equal_span opcodes p))
        (seq 0 (length polished_sentences)).
Proof.
  destruct (changed_sentences_select orig_sentences polished_sentences)
    as (opcodes & Hops & Ht & _).
  exists opcodes. split_and!; [done| |].
  - rewrite (tiles_spans _ _ _ _ _ Ht). by rewrite Nat.sub_0_r.
  - apply Forall_forall. intros p Hp%elem_of_seq.
    apply (tiles_once _ _ _ _ _ p Ht). lia.
Qed.

(** C2.  Whatever the model answers to a classification request, the
    category the classifier keeps is one of the five names: it is the
    answer, trimmed and in lower case, when that is one of the five, and
    ["other"] in every other case, such as an empty answer, several words
    or ["Grammar!!"]; every value the loop stores in the mapping is one of
    the five names. *)
Theorem classifier_category (lower : str → str)
    (response_text : list event → option str) (text : str)
    (changed : list str) (tr : list event) :
  validate lower (strip text) ∈ category_names
  ∧ validate lower (strip text)
    = (if bool_decide (lower (strip text) ∈ category_names)
       then lower (strip text) else py "other")
  ∧ match (classify lower response_text changed ∅ tr).2 with
    | inr categories => map_Forall (λ _ category, category ∈ category_names) categories
    | inl _ => True
    end
  ∧ category_names
    = [py "grammar"; py "spelling"; py "tone"; py "formatting"; py "other"]
  ∧ validate ascii_lower (strip (py "Grammar!!")) = py "other"
  ∧ validate ascii_lower (strip []) = py "other"
  ∧ validate ascii_lower (strip (py "grammar and tone")) = py "other"
  ∧ validate ascii_lower (strip (py " Grammar ")) = py "grammar".
Proof.
  split_and!; try reflexivity.
  - apply validate_valid.
  - destruct (classify lower response_text changed ∅ tr) as [tr' [h|categories]] eqn:Hc;
      [done|].
    simpl. eapply classify_valid; [|exact Hc]. apply map_Forall_empty.
Qed.

(** C3.  For every sentence sequence and every mapping from sentences to
    categories, the highlighter puts a sentence whose trimmed text is a key
    of the mapping in a span with the colour of its category (grammar
    #ffcccc, spelling #cce5ff, tone #fff3cd, formatting #d5f5e3, other
    #e8d4f8), leaves every other sentence as it is, joins the results with
    one space, and has as many results as there are sentences. *)
Theorem highlight_sentences_spec (polished_sentences : list str)
    (categories : gmap str str) :
  map_Forall (λ _ category, category ∈ category_names) categories →
  highlight_sentences polished_sentences categories
    = interleave (highlight_output polished_sentences categories)
        (replicate (length polished_sentences - 1) (py " "))
  ∧ (∀ sent, highlight_sentences [sent] categories = highlight_one categories sent)
  ∧ (∀ sent rest,
       rest ≠ [] →
       highlight_sentences (sent :: rest) categories
       = highlight_one categories sent ++ [32%N]
           ++ highlight_sentences rest categories)
  ∧ length (highlight_output polished_sentences categories)
    = length polished_sentences
  ∧ Forall2 (λ sent out,
      match categories !! strip sent with
      | Some category =>
          ∃ color, (category, color) ∈ category_colors ∧ out = styled color sent
      | None => out = sent
      end) polished_sentences (highlight_output polished_sentences categories)
  ∧ category_colors
    = [ (py "grammar", py "#ffcccc"); (py "spelling", py "#cce5ff");
        (py "tone", py "#fff3cd"); (py "formatting", py "#d5f5e3");
        (py "other", py "#e8d4f8") ].
Proof.
  intros Hvalid. split_and!; [| | | | |done].
  - unfold highlight_sentences. rewrite join_replicate.
    unfold highlight_output. by rewrite length_fmap.
  - reflexivity.
  - intros sent rest Hrest. destruct rest as [|next rest]; [done|]. reflexivity.
  - unfold highlight_output. apply length_fmap.
  - unfold highlight_output. apply Forall2_fmap_r, Forall_Forall2_diag.
    apply Forall_forall. intros sent _.
    destruct (categories !! strip sent) as [category|] eqn:Hc.
    + apply highlight_one_valid; [done|]. by apply (Hvalid _ _ Hc).
    + by apply highlight_one_missing.
Qed.

Lemma highlight_sentences_spec_witness :
  map_Forall (λ _ category, category ∈ category_names)
    ({[ py "It has errors." := py "grammar" ]} : gmap str str)
  ∧ highlight_sentences [py "This is a test."; py "It has errors."]
      {[ py "It has errors." := py "grammar" ]}
    = interleave
        (highlight_output [py "This is a test."; py "It has errors."]
           {[ py "It has errors." := py "grammar" ]})
        (replicate (length [py "This is a test."; py "It has errors."] - 1) (py " "))
  ∧ Forall2 (λ sent out,
      match ({[ py "It has errors." := py "grammar" ]} : gmap str str) !! strip sent with
      | Some category =>
          ∃ color, (category, color) ∈ category_colors ∧ out = styled color sent
      | None => out = sent
      end) [py "This is a test."; py "It has errors."]
      (highlight_output [py "This is a test."; py "It has errors."]
         {[ py "It has errors." := py "grammar" ]}).
Proof.
  assert (Hvalid : map_Forall (λ _ category, category ∈ category_names)
            ({[ py "It has errors." := py "grammar" ]} : gmap str str)).
  { apply map_Forall_singleton. apply list_elem_of_In. simpl. tauto. }
  split; [exact Hvalid|].
  destruct (highlight_sentences_spec [py "This is a test."; py "It has errors."]
              {[ py "It has errors." := py "grammar" ]} Hvalid)
    as (Hjoined & _ & _ & _ & Hwrapped & _).
  split; [exact Hjoined|exact Hwrapped].
Defined.

Example highlight_test_sentence :
  highlight_sentences [py "This is a test."; py "It has errors."]
      {[ py "It has errors." := py "grammar" ]}
  = py "This is a test. <span style='background-color:#ffcccc;'>It has errors.</span>".
Proof. vm_compute. reflexivity. Qed.

(** C4.  For every text, [split_sentences] cuts the trimmed text at every
    run of whitespace that follows a [.], [!] or [?]: the segments, in
    order and with those runs between them, are the trimmed text; every
    segment but the last ends with one of the three characters; no segment
    contains one of them followed by whitespace; no segment starts or ends
    with whitespace.  The empty text gives one empty segment, and a text in
    which none of the three characters is followed by whitespace gives one
    segment. *)
Theorem split_sentences_spec (text : str) :
  (∃ seps,
      strip text = interleave (split_sentences text) seps
      ∧ length (split_sentences text) = S (length seps)
      ∧ Forall separator seps)
  ∧ Forall ends_term (removelast (split_sentences text))
  ∧ Forall (λ s, no_break s = true) (split_sentences text)
  ∧ Forall (λ s, strip s = s) (split_sentences text)
  ∧ split_sentences [] = [[]]
  ∧ (no_break text = true → split_sentences text = [strip text]).
Proof.
  destruct (re_split_nonempty false false (strip text)) as (s & r & Hr).
  split_and!.
  - apply split_sentences_interleave.
  - unfold split_sentences.
    rewrite Hr. destruct (re_split_ends _ _ _ _ _ Hr) as [H1 H2].
    destruct (snoc_cases r) as [->|(r' & x & ->)]; [constructor|].
    rewrite app_comm_cons, removelast_last. constructor.
    + destruct H1 as [?|(_ & ? & _)]; [by destruct r'|done|done].
    + by apply (H2 r' x).
  - unfold split_sentences.
    rewrite Hr. destruct (re_split_no_break _ _ _ _ _ Hr) as (_ & H2 & H3).
    by constructor.
  - eapply Forall_impl; [apply (split_sentences_trimmed text)|].
    intros x. apply strip_trimmed.
  - reflexivity.
  - intros Hnb. unfold split_sentences. apply re_split_single; [|done].
    destruct (strip_spec text) as (lead & trail & Htext & _).
    rewrite Htext in Hnb. apply no_break_app in Hnb as [_ Hnb].
    by apply no_break_app in Hnb as [Hnb _].
Qed.

Lemma split_sentences_spec_witness :
  no_break (py "v1.2 is out") = true
  ∧ split_sentences (py "v1.2 is out") = [strip (py "v1.2 is out")].
Proof.
  split; [reflexivity|].
  apply (split_sentences_spec (py "v1.2 is out")). reflexivity.
Defined.

(** C5.  For every text that is not empty, [split_sentences] gives at
    least one segment, and the segments joined with single spaces are the
    text with the whitespace at its two ends removed and each run of
    whitespace between two segments replaced by one space; the characters
    that are not whitespace are the same, in the same order. *)
Theorem split_sentences_join (text : str) :
  text ≠ [] →
  split_sentences text ≠ []
  ∧ ∃ lead seps trail,
      blank lead ∧ blank trail ∧ Forall separator seps
      ∧ length (split_sentences text) = S (length seps)
      ∧ text = lead ++ interleave (split_sentences text) seps ++ trail
      ∧ join (py " ") (split_sentences text)
        = interleave (split_sentences text) ((λ _, py " ") <$> seps)
      ∧ content (join (py " ") (split_sentences text)) = content text.
Proof.
  intros _.
  destruct (split_sentences_interleave text) as (seps & Ht & Hlen & Hseps).
  destruct (strip_spec text) as (lead & trail & Htext & Hlead & Htrail & _).
  split.
  { intros Hnil. rewrite Hnil in Hlen. discriminate. }
  exists lead, seps, trail. split_and!; try done.
  - by rewrite <- Ht.
  - by apply join_interleave.
  - rewrite (join_interleave _ _ seps) by done.
    rewrite Htext at 2. rewrite !content_app, (content_blank lead),
      (content_blank trail), app_nil_r, Ht by done. simpl.
    destruct (content_interleave (split_sentences text) seps) as [->|Hne];
      [eapply Forall_impl; [exact Hseps|]; by intros ? [_ ?]| |done].
    destruct (content_interleave (split_sentences text) ((λ _, py " ") <$> seps))
      as [->|Hne]; [|done|].
    + apply Forall_fmap, Forall_forall. intros ? _. by repeat constructor.
    + by rewrite length_fmap in Hne.
Qed.

Lemma split_sentences_join_witness :
  py "Hi there!   How are you?  " ≠ []
  ∧ content (join (py " ") (split_sentences (py "Hi there!   How are you?  ")))
    = content (py "Hi there!   How are you?  ").
Proof.
  split; [discriminate|].
  destruct (split_sentences_join (py "Hi there!   How are you?  "))
    as (_ & lead & seps & trail & _ & _ & _ & _ & _ & _ & Hcontent);
    [discriminate|exact Hcontent].
Defined.

Example join_test_sentences :
  join (py " ") (split_sentences (py "Hi there!   How are you?  "))
  = py "Hi there! How are you?".
Proof. vm_compute. reflexivity. Qed.

(** C6, as the script has it.  For every user action with a draft that is
    not blank, when the model answers every call, the script issues the
    polish request and then one classification request for each changed
    sentence, repeated sentences included: the number of model calls is
    one more than the number of changed sentences.  It is one more than
    the number of distinct changed sentences when no two changed sentences
    have the same trimmed text. *)
Theorem llm_calls_per_action (lower : str → str)
    (response_text : list event → option str) (key style_choice user_input : str) :
  (∀ tr, is_Some (response_text tr)) → key ≠ [] → strip user_input ≠ [] →
  ∃ text changed,
    response_text
      (setup_events key
         ++ [st_spinner (py "Polishing your text...");
             generate_content (polish_prompt style_choice user_input) 600])
      = Some text
    ∧ changed_sentences (split_sentences user_input) (split_sentences (strip text))
      = Some changed
    ∧ llm_calls (run lower response_text (Some key) style_choice user_input true).1
      = generate_content (polish_prompt style_choice user_input) 600
        :: classification_calls changed
    ∧ length (llm_calls
                (run lower response_text (Some key) style_choice user_input true).1)
      = S (length changed)
    ∧ distinct changed ≤ length changed
    ∧ (NoDup (strip <$> changed) →
       length (llm_calls
                 (run lower response_text (Some key) style_choice user_input true).1)
       = S (distinct changed)).
Proof.
  intros Hanswers Hkey Hdraft.
  destruct (Hanswers
    (setup_events key
       ++ [st_spinner (py "Polishing your text...");
           generate_content (polish_prompt style_choice user_input) 600]))
    as [text Htext].
  destruct (polish_events lower response_text style_choice user_input
              (setup_events key) text Hanswers Htext)
    as (changed & categories & Hchanged & _ & Hpolish).
  rewrite (app_polish _ _ _ _ _ Hkey Hdraft), Hpolish.
  assert (Hcalls : llm_calls
    ((setup_events key
        ++ [st_spinner (py "Polishing your text...");
            generate_content (polish_prompt style_choice user_input) 600])
       ++ classification_calls changed
       ++ panel_events (highlight_sentences (split_sentences (strip text)) categories))
    = generate_content (polish_prompt style_choice user_input) 600
      :: classification_calls changed).
  { rewrite !llm_calls_app, llm_calls_classification. simpl.
    by rewrite app_nil_r. }
  exists text, changed. cbn [fst]. rewrite Hcalls.
  split_and!; [done..| | |].
  - simpl. unfold classification_calls. by rewrite length_fmap.
  - apply distinct_le.
  - intros Hnd. simpl. unfold classification_calls.
    by rewrite length_fmap, distinct_NoDup.
Qed.

Lemma llm_calls_per_action_witness :
  (∀ tr, is_Some (constant_model (py "B. B.") tr))
  ∧ py "key" ≠ [] ∧ strip (py "A.") ≠ []
  ∧ ∃ text changed,
      constant_model (py "B. B.")
        (setup_events (py "key")
           ++ [st_spinner (py "Polishing your text...");
               generate_content (polish_prompt (py "Friendly") (py "A.")) 600])
        = Some text
      ∧ changed_sentences (split_sentences (py "A.")) (split_sentences (strip text))
        = Some changed
      ∧ llm_calls (run ascii_lower (constant_model (py "B. B.")) (Some (py "key"))
                     (py "Friendly") (py "A.") true).1
        = generate_content (polish_prompt (py "Friendly") (py "A.")) 600
          :: classification_calls changed
      ∧ length (llm_calls
                  (run ascii_lower (constant_model (py "B. B.")) (Some (py "key"))
                     (py "Friendly") (py "A.") true).1)
        = S (length changed)
      ∧ distinct changed ≤ length changed
      ∧ (NoDup (strip <$> changed) →
         length (llm_calls
                   (run ascii_lower (constant_model (py "B. B.")) (Some (py "key"))
                      (py "Friendly") (py "A.") true).1)
         = S (distinct changed)).
Proof.
  assert (H1 : ∀ tr, is_Some (constant_model (py "B. B.") tr)).
  { intros tr. exists (py "B. B."). reflexivity. }
  assert (H2 : py "key" ≠ []) by discriminate.
  assert (H3 : strip (py "A.") ≠ []) by (vm_compute; discriminate).
  split_and!; [exact H1|exact H2|exact H3|].
  exact (llm_calls_per_action ascii_lower (constant_model (py "B. B."))
           (py "key") (py "Friendly") (py "A.") H1 H2 H3).
Defined.

(** C6, as the claim has it, fails: the draft ["A."] polished into
    ["B. B."] has the two changed sentences ["B."] and ["B."], one distinct
    changed sentence, and three model calls, not two. *)
Lemma llm_calls_counterexample :
  changed_sentences (split_sentences (py "A.")) (split_sentences (py "B. B."))
    = Some [py "B."; py "B."]
  ∧ distinct [py "B."; py "B."] = 1
  ∧ length (llm_calls
              (run ascii_lower (two_answer_model (py "B. B.") (py "tone"))
                 (Some (py "key")) (py "Friendly") (py "A.") true).1)
    = 3
  ∧ ¬ (length (llm_calls
                 (run ascii_lower (two_answer_model (py "B. B.") (py "tone"))
                    (Some (py "key")) (py "Friendly") (py "A.") true).1)
       = distinct [py "B."; py "B."] + 1).
Proof.
  split_and!; [vm_compute; reflexivity..|].
  vm_compute. discriminate.
Qed.

(** C7.  For every submit with an empty draft (or one of whitespace only)
    the script shows the warning and does nothing after it: the run ends
    normally, no model call is issued and nothing is rendered with
    [st.markdown]. *)
Theorem empty_input_warning (lower : str → str)
    (response_text : list event → option str) (key style_choice user_input : str) :
  key ≠ [] → strip user_input = [] →
  run lower response_text (Some key) style_choice user_input true
    = (setup_events key ++ [st_warning (py "Please enter some text first.")], inr ())
  ∧ llm_calls (run lower response_text (Some key) style_choice user_input true).1 = []
  ∧ List.filter is_st_markdown
      (run lower response_text (Some key) style_choice user_input true).1 = [].
Proof.
  intros Hkey Hblank. rewrite (app_warning _ _ _ _ _ Hkey Hblank).
  split_and!; reflexivity.
Qed.

Lemma empty_input_warning_witness :
  py "key" ≠ [] ∧ strip [] = []
  ∧ run ascii_lower (constant_model (py "ignored")) (Some (py "key"))
      (py "Professional") [] true
    = (setup_events (py "key") ++ [st_warning (py "Please enter some text first.")],
       inr ()).
Proof.
  split_and!; [discriminate|reflexivity|].
  apply (empty_input_warning ascii_lower (constant_model (py "ignored"))
           (py "key") (py "Professional") []); [discriminate|reflexivity].
Defined.

(** C8.  When the key is not in the environment the script shows an error
    and stops: the error and the stop are its only events, so there is no
    model configuration, no page and no model call.  A key that is the
    empty string has the same effect. *)
Theorem missing_key_halts (lower : str → str)
    (response_text : list event → option str)
    (style_choice user_input : str) (button : bool) :
  run lower response_text None style_choice user_input button
    = ([st_error ([9888%N; 65039%N]
          ++ py " Gemini API key not found. Please set GEMINI_API_KEY as an environment variable.");
        st_stop], inl StopException)
  ∧ llm_calls (run lower response_text None style_choice user_input button).1 = []
  ∧ run lower response_text (Some []) style_choice user_input button
    = run lower response_text None style_choice user_input button.
Proof. split_and!; reflexivity. Qed.

(** C10.  When several changed sentences have the same trimmed text, each
    of them has its own classification request, and the entry of the
    mapping under that text is the category of the last of these requests:
    every sentence with that trimmed text is rendered in the span of that
    category. *)
Theorem duplicate_sentences_last_wins (lower : str → str)
    (response_text : list event → option str)
    (before after : list str) (sent : str)
    (tr tr' : list event) (categories : gmap str str) :
  Forall (λ s, strip s ≠ strip sent) after →
  classify lower response_text (before ++ sent :: after) ∅ tr = (tr', inr categories) →
  tr' = tr ++ classification_calls (before ++ sent :: after)
  ∧ ∃ text,
      response_text
        (tr ++ classification_calls before
            ++ [generate_content (classify_prompt sent) 5]) = Some text
      ∧ categories !! strip sent = Some (validate lower (strip text))
      ∧ ∀ occurrence, strip occurrence = strip sent →
          ∃ color, (validate lower (strip text), color) ∈ category_colors
            ∧ highlight_one categories occurrence = styled color occurrence.
Proof.
  intros Hafter Hclassify. split; [by eapply classify_events|].
  rewrite (classify_app lower response_text before (sent :: after)) in Hclassify.
  destruct (classify lower response_text before ∅ tr) as [tr1 [h|categories1]] eqn:H1;
    [done|].
  apply classify_events in H1 as ->.
  cbn [classify] in Hclassify. unfold mbind, script_bind, gemini_generate in Hclassify.
  rewrite <- app_assoc in Hclassify.
  destruct (response_text _) as [text|] eqn:Htext; [|done].
  exists text. split; [done|].
  assert (Hkey : categories !! strip sent = Some (validate lower (strip text))).
  { rewrite (classify_other _ _ _ _ _ _ _ _ Hafter Hclassify).
    apply lookup_insert_eq. }
  split; [done|]. intros occurrence Hocc.
  apply highlight_one_valid; [by rewrite Hocc|apply validate_valid].
Qed.

Lemma duplicate_sentences_last_wins_witness :
  Forall (λ s, strip s ≠ strip (py "B.")) []
  ∧ classify ascii_lower (switching_model 1 (py "tone") (py "grammar"))
      ([py "B."] ++ py "B." :: []) ∅ []
    = ([] ++ classification_calls ([py "B."] ++ py "B." :: []),
       inr {[ py "B." := py "grammar" ]})
  ∧ ∃ text,
      switching_model 1 (py "tone") (py "grammar")
        ([] ++ classification_calls [py "B."]
            ++ [generate_content (classify_prompt (py "B.")) 5]) = Some text
      ∧ ({[ py "B." := py "grammar" ]} : gmap str str) !! strip (py "B.")
        = Some (validate ascii_lower (strip text))
      ∧ ∀ occurrence, strip occurrence = strip (py "B.") →
          ∃ color, (validate ascii_lower (strip text), color) ∈ category_colors
            ∧ highlight_one {[ py "B." := py "grammar" ]} occurrence
              = styled color occurrence.
Proof.
  assert (H1 : Forall (λ s, strip s ≠ strip (py "B.")) []) by constructor.
  assert (H2 : classify ascii_lower (switching_model 1 (py "tone") (py "grammar"))
      ([py "B."] ++ py "B." :: []) ∅ []
    = ([] ++ classification_calls ([py "B."] ++ py "B." :: []),
       inr {[ py "B." := py "grammar" ]})) by (vm_compute; reflexivity).
  split_and!; [exact H1|exact H2|].
  apply (duplicate_sentences_last_wins ascii_lower
           (switching_model 1 (py "tone") (py "grammar"))
           [py "B."] [] (py "B.") [] _ _ H1 H2).
Defined.

(** ** Two runs of the whole script *)

Example end_to_end :
  let tr :=
    (run ascii_lower
       (two_answer_model (py "This is a test. It has errors.") (py "grammar"))
       (Some (py "key")) (py "Friendly")
       (py "This is a test. It have errors.") true).1 in
  llm_calls tr
    = [ generate_content
          (polish_prompt (py "Friendly") (py "This is a test. It have errors.")) 600;
        generate_content (classify_prompt (py "It has errors.")) 5 ]
  ∧ List.filter is_st_markdown tr
    = [ st_markdown
          (box_html
             (py "This is a test. <span style='background-color:#ffcccc;'>It has errors.</span>"))
          true;
        st_markdown (py "---") false;
        st_markdown legend true ].
Proof. vm_compute. split; reflexivity. Qed.

Example malformed_category :
  let tr :=
    (run ascii_lower
       (two_answer_model (py "This is a test. It has errors.") (py "Grammar!!"))
       (Some (py "key")) (py "Friendly")
       (py "This is a test. It have errors.") true).1 in
  List.filter is_st_markdown tr
    = [ st_markdown
          (box_html
             (py "This is a test. <span style='background-color:#e8d4f8;'>It has errors.</span>"))
          true;
        st_markdown (py "---") false;
        st_markdown legend true ].
Proof. vm_compute. reflexivity. Qed.

(** * Further properties of the script

    ** The sentence splitter *)

(** X1.  Trimming a text before it is split changes nothing: the split of
    the trimmed text is the split of the text, and trimming twice is
    trimming once.  The [strip()] of [gemini_generate] therefore does not
    change the sentences of the polished text. *)
Theorem split_sentences_strip (text : str) :
  strip (strip text) = strip text
  ∧ split_sentences (strip text) = split_sentences text.
Proof.
  split; [apply strip_strip|].
  unfold split_sentences. by rewrite strip_strip.
Qed.

(** X2.  The splitter finds the sentences a text was built from: segments
    that are not empty, have no whitespace at their ends and no [.], [!]
    or [?] followed by whitespace inside, and of which every one but the
    last ends with one of the three characters, put together with runs of
    whitespace between them, are split into exactly these segments. *)
Theorem split_sentences_unique (segs seps : list str) :
  length segs = S (length seps) →
  Forall separator seps →
  Forall (λ s, s ≠ [] ∧ strip s = s ∧ no_break s = true) segs →
  Forall ends_term (removelast segs) →
  split_sentences (interleave segs seps) = segs.
Proof. apply split_sentences_interleave_inv. Qed.

Lemma split_sentences_unique_witness :
  length [py "Hi there!"; py "How are you?"] = S (length [[32%N; 10%N; 9%N]])
  ∧ Forall separator [[32%N; 10%N; 9%N]]
  ∧ Forall (λ s, s ≠ [] ∧ strip s = s ∧ no_break s = true)
      [py "Hi there!"; py "How are you?"]
  ∧ Forall ends_term (removelast [py "Hi there!"; py "How are you?"])
  ∧ split_sentences (interleave [py "Hi there!"; py "How are you?"] [[32%N; 10%N; 9%N]])
    = [py "Hi there!"; py "How are you?"].
Proof.
  assert (H1 : length [py "Hi there!"; py "How are you?"]
               = S (length [[32%N; 10%N; 9%N]])) by reflexivity.
  assert (H2 : Forall separator [[32%N; 10%N; 9%N]]).
  { apply Forall_cons. split; [|constructor].
    split; [discriminate|]. unfold blank. repeat (apply Forall_cons_2; [reflexivity|]). constructor. }
  assert (H3 : Forall (λ s, s ≠ [] ∧ strip s = s ∧ no_break s = true)
                 [py "Hi there!"; py "How are you?"]).
  { repeat apply Forall_cons_2; [..|constructor];
      (split_and!; [discriminate|vm_compute; reflexivity|vm_compute; reflexivity]). }
  assert (H4 : Forall ends_term (removelast [py "Hi there!"; py "How are you?"])).
  { apply Forall_cons_2; [|constructor].
    exists (py "Hi there"), 33%N. split; reflexivity. }
  split_and!; [exact H1|exact H2|exact H3|exact H4|].
  exact (split_sentences_unique _ _ H1 H2 H3 H4).
Defined.

(** X3.  Splitting is stable: the sentences joined with single spaces,
    which is how the script shows them, split into the same sentences
    again, and every sentence on its own splits into itself. *)
Theorem split_sentences_round_trip (text : str) :
  split_sentences (join (py " ") (split_sentences text)) = split_sentences text
  ∧ Forall (λ sent, split_sentences sent = [sent]) (split_sentences text).
Proof.
  split.
  - destruct (decide (strip text = [])) as [Hblank|Hdraft].
    { unfold split_sentences at 2 3. rewrite Hblank. reflexivity. }
    destruct (split_sentences_interleave text) as (seps & _ & Hlen & _).
    rewrite (join_interleave _ _ seps Hlen).
    apply split_sentences_interleave_inv.
    + by rewrite length_fmap.
    + apply Forall_fmap, Forall_forall. intros w _. split; [discriminate|].
      unfold blank. repeat (apply Forall_cons_2; [reflexivity|]). constructor.
    + pose proof (split_sentences_nonempty_segments text) as Hne.
      rewrite <- strip_blank in Hne. specialize (Hne Hdraft).
      pose proof (split_sentences_trimmed text) as Htr.
      pose proof (split_sentences_no_break text) as Hnb.
      rewrite Forall_forall in Hne, Htr, Hnb. apply Forall_forall. intros s Hs.
      split_and!; [by apply Hne|by apply strip_trimmed, Htr|by apply Hnb].
    + apply split_sentences_ends.
  - pose proof (split_sentences_trimmed text) as Htr.
    pose proof (split_sentences_no_break text) as Hnb.
    rewrite Forall_forall in Htr, Hnb. apply Forall_forall. intros s Hs.
    unfold split_sentences. rewrite (strip_trimmed s) by by apply Htr.
    apply re_split_single; [by apply Hnb|done].
Qed.

(** X4.  A draft is blank (whitespace only, or empty) exactly when its
    trimmed text is empty, which is the test of the script before it
    polishes, and exactly when it splits into the one empty sentence; the
    sentences of every other text are all non-empty. *)
Theorem split_sentences_blank (text : str) :
  (strip text = [] ↔ blank text)
  ∧ (split_sentences text = [[]] ↔ blank text)
  ∧ (Forall (λ sent, sent ≠ []) (split_sentences text) ↔ ¬ blank text).
Proof.
  assert (Hempty : blank text → split_sentences text = [[]]).
  { intros Hb%strip_blank. unfold split_sentences. by rewrite Hb. }
  split_and!.
  - apply strip_blank.
  - split; [|done]. intros Hs.
    destruct (split_sentences_interleave text) as (seps & Ht & Hlen & _).
    rewrite Hs in Ht, Hlen. destruct seps; [|done]. by apply strip_blank.
  - split; [|apply split_sentences_nonempty_segments].
    intros Hne Hb. rewrite (Hempty Hb) in Hne.
    by apply Forall_cons in Hne as [? _].
Qed.

(** ** The diff and the changed sentences *)

(** X5.  The opcodes of the diff fit their tags and the two sequences:
    [replace] has a non-empty span on both sides, [delete] only on the
    original side, [insert] only on the polished side, and [equal] has
    spans of the same non-zero length that hold the same sentences; the
    spans on the original side, end to end, are the positions of the
    original sequence, and each sequence is its slices put end to end. *)
Theorem opcodes_fit_sequences (orig_sentences polished_sentences : list str) :
  ∃ opcodes,
    get_opcodes (new orig_sentences polished_sentences) = Some opcodes
    ∧ Forall well_tagged opcodes
    ∧ Forall (λ op, is_equal op = true →
                slice orig_sentences (i1 op) (i2 op)
                = slice polished_sentences (j1 op) (j2 op)) opcodes
    ∧ concat (a_span <$> opcodes) = seq 0 (length orig_sentences)
    ∧ orig_sentences
      = concat ((λ op, slice orig_sentences (i1 op) (i2 op)) <$> opcodes)
    ∧ polished_sentences
      = concat ((λ op, slice polished_sentences (j1 op) (j2 op)) <$> opcodes).
Proof.
  destruct (changed_sentences_sound orig_sentences polished_sentences)
    as (opcodes & Hops & Ht & Htag & Heq & _).
  destruct (tiles_concat orig_sentences polished_sentences _ _ _ _ _ Ht) as [Ha Hb].
  exists opcodes. split_and!; [done|done| | | |].
  - rewrite Forall_forall in Htag, Heq. apply Forall_forall. intros op Hop Hequal.
    apply equal_ok_slice; [by apply Htag|by apply Heq|done].
  - rewrite (tiles_a_spans _ _ _ _ _ Ht). by rewrite Nat.sub_0_r.
  - rewrite <- Ha. unfold slice. by rewrite Nat.sub_0_r, drop_0, firstn_all.
  - rewrite <- Hb. unfold slice. by rewrite Nat.sub_0_r, drop_0, firstn_all.
Qed.

(** X6.  A polished sentence that the diff leaves unchanged is a sentence
    of the original, so every polished sentence is among the changed ones
    or among the original ones: a sentence the model made up is never
    passed over. *)
Theorem unchanged_sentences_are_original (orig_sentences polished_sentences : list str) :
  ∃ opcodes changed,
    get_opcodes (new orig_sentences polished_sentences) = Some opcodes
    ∧ changed_sentences orig_sentences polished_sentences = Some changed
    ∧ (∀ p sent, polished_sentences !! p = Some sent →
         in_equal_span opcodes p = true → sent ∈ orig_sentences)
    ∧ (∀ sent, sent ∈ polished_sentences → sent ∈ changed ∨ sent ∈ orig_sentences).
Proof.
  destruct (changed_sentences_sound orig_sentences polished_sentences)
    as (opcodes & Hops & Ht & Htag & Heq & Hchanged & _).
  assert (Horig : ∀ p sent, polished_sentences !! p = Some sent →
            in_equal_span opcodes p = true → sent ∈ orig_sentences).
  { intros p sent Hp Hin.
    destruct (in_equal_span_original _ _ _ _ _ Heq Hp Hin) as [i Hi].
    by eapply list_elem_of_lookup_2. }
  eexists opcodes, _. split_and!; [done|exact Hchanged|exact Horig|].
  intros sent [p Hp]%list_elem_of_lookup_1.
  destruct (in_equal_span opcodes p) eqn:Hin; [right; by eapply Horig|left].
  apply (elem_of_select_from _ _ 0 p); [done|]. simpl. by rewrite Hin.
Qed.

(** X7.  When no polished sentence is a sentence of the original, every
    polished sentence is changed. *)
Theorem all_new_all_changed (orig_sentences polished_sentences : list str) :
  (∀ sent, sent ∈ polished_sentences → sent ∉ orig_sentences) →
  changed_sentences orig_sentences polished_sentences = Some polished_sentences.
Proof.
  intros Hnew.
  destruct (changed_sentences_sound orig_sentences polished_sentences)
    as (opcodes & Hops & Ht & Htag & Heq & Hchanged & _).
  rewrite Hchanged. f_equal. unfold select.
  rewrite <- (select_from_all polished_sentences 0) at 2.
  apply select_from_ext. intros q [_ Hq]. simpl in Hq.
  destruct (lookup_lt_is_Some_2 polished_sentences q Hq) as [sent Hsent].
  destruct (in_equal_span opcodes q) eqn:Hin; [|done].
  destruct (in_equal_span_original _ _ _ _ _ Heq Hsent Hin) as [i Hi].
  destruct (Hnew sent); by eapply list_elem_of_lookup_2.
Qed.

Lemma all_new_all_changed_witness :
  (∀ sent, sent ∈ [py "B."; py "C."] → sent ∉ [py "A."])
  ∧ changed_sentences [py "A."] [py "B."; py "C."] = Some [py "B."; py "C."].
Proof.
  assert (H1 : ∀ sent : str, sent ∈ [py "B."; py "C."] → sent ∉ [py "A."]).
  { intros sent Hin ->%list_elem_of_singleton.
    apply elem_of_cons in Hin as [Hin|Hin]; [discriminate|].
    apply elem_of_cons in Hin as [Hin|Hin]; [discriminate|].
    by apply elem_of_nil in Hin. }
  split; [exact H1|]. exact (all_new_all_changed _ _ H1).
Defined.

(** X8.  When the diff finds no changed sentence, the polished sentences
    are the original ones with some of them left out: sentences the model
    dropped are not reported. *)
Theorem nothing_changed_sublist (orig_sentences polished_sentences : list str) :
  changed_sentences orig_sentences polished_sentences = Some [] →
  polished_sentences `sublist_of` orig_sentences.
Proof.
  intros Hnone.
  destruct (changed_sentences_sound orig_sentences polished_sentences)
    as (opcodes & Hops & Ht & Htag & Heq & Hchanged & Hsel).
  rewrite Hnone in Hchanged. injection Hchanged as Hchanged.
  rewrite <- Hchanged, changed_of_opcodes_concat in Hsel. symmetry in Hsel.
  destruct (tiles_concat orig_sentences polished_sentences _ _ _ _ _ Ht) as [Ha Hb].
  unfold slice in Ha, Hb. rewrite Nat.sub_0_r, drop_0, firstn_all in Ha, Hb.
  rewrite Ha, Hb. by apply unchanged_sublist.
Qed.

Lemma nothing_changed_sublist_witness :
  changed_sentences [py "A."; py "B."; py "C."] [py "A."; py "C."] = Some []
  ∧ [py "A."; py "C."] `sublist_of` [py "A."; py "B."; py "C."].
Proof.
  assert (H1 : changed_sentences [py "A."; py "B."; py "C."] [py "A."; py "C."]
               = Some []) by (vm_compute; reflexivity).
  split; [exact H1|]. exact (nothing_changed_sublist _ _ H1).
Defined.

(** X9.  The changed sentences are polished sentences, in the order of
    the polished text and no more of them than there are. *)
Theorem changed_sentences_sublist (orig_sentences polished_sentences : list str) :
  ∃ changed,
    changed_sentences orig_sentences polished_sentences = Some changed
    ∧ changed `sublist_of` polished_sentences
    ∧ length changed ≤ length polished_sentences.
Proof.
  destruct (changed_sentences_select orig_sentences polished_sentences)
    as (opcodes & _ & _ & Hchanged).
  eexists. split; [exact Hchanged|].
  assert (Hsub : select (λ p, negb (in_equal_span opcodes p)) polished_sentences
                 `sublist_of` polished_sentences) by apply select_from_sublist.
  split; [done|]. by apply sublist_length.
Qed.

(** ** The classifier, the highlighter and the run *)

(** X10.  When the classification loop comes to its end, the keys of the
    mapping are the trimmed texts of the changed sentences: every changed
    sentence has an entry, and there are as many entries as there are
    distinct trimmed texts. *)
Theorem classify_keys (lower : str → str) (response_text : list event → option str)
    (changed : list str) (tr tr' : list event) (categories : gmap str str) :
  classify lower response_text changed ∅ tr = (tr', inr categories) →
  dom categories = list_to_set (strip <$> changed)
  ∧ size categories = distinct changed
  ∧ Forall (λ sent, is_Some (categories !! strip sent)) changed.
Proof.
  intros Hdom%classify_dom. rewrite dom_empty_L, (left_id_L ∅ (∪)) in Hdom.
  split_and!; [done| |].
  - rewrite <- size_dom, Hdom. apply list_to_set_size_remove_dups.
  - apply Forall_forall. intros sent Hsent. apply elem_of_dom. rewrite Hdom.
    apply elem_of_list_to_set. by apply list_elem_of_fmap_2.
Qed.

Lemma classify_keys_witness :
  classify ascii_lower (constant_model (py "Tone")) [py "B."; py " B. "; py "C."] ∅ []
    = (classification_calls [py "B."; py " B. "; py "C."],
       inr {[ py "B." := py "tone"; py "C." := py "tone" ]})
  ∧ size ({[ py "B." := py "tone"; py "C." := py "tone" ]} : gmap str str)
    = distinct [py "B."; py " B. "; py "C."].
Proof.
  assert (H1 : classify ascii_lower (constant_model (py "Tone"))
                 [py "B."; py " B. "; py "C."] ∅ []
    = (classification_calls [py "B."; py " B. "; py "C."],
       inr {[ py "B." := py "tone"; py "C." := py "tone" ]}))
    by (vm_compute; reflexivity).
  split; [exact H1|].
  exact (proj1 (proj2 (classify_keys _ _ _ _ _ _ H1))).
Defined.

(** X11.  A run with a key, the button pressed and a draft that is not
    blank goes one of three ways, whatever the model does: the polish
    request fails, or a classification request fails, or every request is
    answered and the panel and the legend are shown.  A failure is not
    caught: the run ends with it right after the request that failed, and
    nothing has been rendered with [st.markdown]. *)
Theorem run_outcomes (lower : str → str) (response_text : list event → option str)
    (key style_choice user_input : str) :
  key ≠ [] → strip user_input ≠ [] →
  ((response_text (setup_events key ++ polish_call style_choice user_input) = None
    ∧ run lower response_text (Some key) style_choice user_input true
      = (setup_events key ++ polish_call style_choice user_input,
         inl GenerationFailure))
   ∨ ∃ text changed,
       response_text (setup_events key ++ polish_call style_choice user_input)
         = Some text
       ∧ changed_sentences (split_sentences user_input) (split_sentences (strip text))
         = Some changed
       ∧ ((∃ answered sent rest,
             changed = answered ++ sent :: rest
             ∧ response_text
                 (setup_events key ++ polish_call style_choice user_input
                    ++ classification_calls (answered ++ [sent])) = None
             ∧ run lower response_text (Some key) style_choice user_input true
               = (setup_events key ++ polish_call style_choice user_input
                    ++ classification_calls (answered ++ [sent]),
                  inl GenerationFailure))
          ∨ (∃ categories,
               run lower response_text (Some key) style_choice user_input true
               = (setup_events key ++ polish_call style_choice user_input
                    ++ classification_calls changed
                    ++ panel_events
                         (highlight_sentences (split_sentences (strip text))
                            categories),
                  inr ()))))
  ∧ (∀ h,
       (run lower response_text (Some key) style_choice user_input true).2 = inl h →
       h = GenerationFailure
       ∧ response_text
           (run lower response_text (Some key) style_choice user_input true).1 = None
       ∧ List.filter is_st_markdown
           (run lower response_text (Some key) style_choice user_input true).1 = []).
Proof.
  intros Hkey Hdraft. rewrite (app_polish _ _ _ _ _ Hkey Hdraft).
  assert (Hsetup : List.filter is_st_markdown (setup_events key) = []) by done.
  destruct (polish_outcome lower response_text style_choice user_input
              (setup_events key))
    as [[Hnone Hrun]|(text & changed & Htext & Hchanged
                      & [(answered & sent & rest & Hsplit & Hnone & Hrun)
                        |(categories & _ & Hrun)])];
    rewrite Hrun; cbn [fst snd].
  - split; [by left|]. intros h [= <-]. split_and!; [done|done|].
    by rewrite List.filter_app, Hsetup.
  - split.
    + right. exists text, changed. split_and!; [done|done|].
      left. by exists answered, sent, rest.
    + intros h [= <-]. split_and!; [done|done|].
      by rewrite !List.filter_app, Hsetup, markdown_classification.
  - split; [|done].
    right. exists text, changed. split_and!; [done|done|].
    right. by exists categories.
Qed.

Lemma run_outcomes_witness :
  py "key" ≠ [] ∧ strip (py "A.") ≠ []
  ∧ ∀ h,
      (run ascii_lower (failing_after 11 (py "B.")) (Some (py "key"))
         (py "Friendly") (py "A.") true).2 = inl h →
      h = GenerationFailure
      ∧ failing_after 11 (py "B.")
          (run ascii_lower (failing_after 11 (py "B.")) (Some (py "key"))
             (py "Friendly") (py "A.") true).1 = None
      ∧ List.filter is_st_markdown
          (run ascii_lower (failing_after 11 (py "B.")) (Some (py "key"))
             (py "Friendly") (py "A.") true).1 = [].
Proof.
  assert (H1 : py "key" ≠ []) by discriminate.
  assert (H2 : strip (py "A.") ≠ []) by (vm_compute; discriminate).
  split_and!; [exact H1|exact H2|].
  exact (proj2 (run_outcomes ascii_lower (failing_after 11 (py "B."))
                  (py "key") (py "Friendly") (py "A.") H1 H2)).
Defined.

Example classification_failure :
  run ascii_lower (failing_after 11 (py "B.")) (Some (py "key"))
    (py "Friendly") (py "A.") true
  = (setup_events (py "key") ++ polish_call (py "Friendly") (py "A.")
       ++ [generate_content (classify_prompt (py "B.")) 5],
     inl GenerationFailure).
Proof. vm_compute. reflexivity. Qed.

(** X12.  After the classification loop, the highlighter wraps a polished
    sentence exactly when its trimmed text is the trimmed text of a changed
    sentence, in the colour of the category stored for it.  The test is on
    the text, not on the position, so an unchanged sentence that repeats a
    changed one is wrapped too. *)
Theorem highlighted_iff_changed_text (lower : str → str)
    (response_text : list event → option str)
    (changed polished_sentences : list str) (tr tr' : list event)
    (categories : gmap str str) :
  classify lower response_text changed ∅ tr = (tr', inr categories) →
  Forall2 (λ sent out,
      if bool_decide (strip sent ∈ strip <$> changed)
      then ∃ category color,
             categories !! strip sent = Some category
             ∧ (category, color) ∈ category_colors
             ∧ out = styled color sent
      else out = sent)
    polished_sentences (highlight_output polished_sentences categories).
Proof.
  intros Hc. pose proof (classify_dom _ _ _ _ _ _ _ Hc) as Hdom.
  rewrite dom_empty_L, (left_id_L ∅ (∪)) in Hdom.
  pose proof (classify_valid _ _ _ _ _ _ _ (map_Forall_empty _) Hc) as Hvalid.
  unfold highlight_output. apply Forall2_fmap_r, Forall_Forall2_diag.
  apply Forall_forall. intros sent _. case_bool_decide as Hin.
  - assert (Hsome : is_Some (categories !! strip sent)).
    { apply elem_of_dom. rewrite Hdom. by apply elem_of_list_to_set. }
    destruct Hsome as [category Hcat].
    destruct (highlight_one_valid categories sent category Hcat) as (color & Hcol & Hout).
    { by apply (Hvalid _ _ Hcat). }
    by exists category, color.
  - apply highlight_one_missing. apply not_elem_of_dom. rewrite Hdom.
    by rewrite elem_of_list_to_set.
Qed.

Lemma highlighted_iff_changed_text_witness :
  classify ascii_lower (constant_model (py "tone")) [py "C."; py "A."] ∅ []
    = (classification_calls [py "C."; py "A."],
       inr {[ py "C." := py "tone"; py "A." := py "tone" ]})
  ∧ Forall2 (λ sent out,
      if bool_decide (strip sent ∈ strip <$> [py "C."; py "A."])
      then ∃ category color,
             ({[ py "C." := py "tone"; py "A." := py "tone" ]} : gmap str str)
               !! strip sent = Some category
             ∧ (category, color) ∈ category_colors
             ∧ out = styled color sent
      else out = sent)
    [py "A."; py "C."; py "A."; py "D."]
    (highlight_output [py "A."; py "C."; py "A."; py "D."]
       {[ py "C." := py "tone"; py "A." := py "tone" ]}).
Proof.
  assert (H1 : classify ascii_lower (constant_model (py "tone")) [py "C."; py "A."] ∅ []
    = (classification_calls [py "C."; py "A."],
       inr {[ py "C." := py "tone"; py "A." := py "tone" ]}))
    by (vm_compute; reflexivity).
  split; [exact H1|].
  exact (highlighted_iff_changed_text _ _ _ [py "A."; py "C."; py "A."; py "D."]
           _ _ _ H1).
Defined.

Example unchanged_repeat_highlighted :
  changed_sentences (split_sentences (py "A. B.")) (split_sentences (py "A. C. A."))
    = Some [py "C."; py "A."]
  ∧ List.filter is_st_markdown
      (run ascii_lower (two_answer_model (py "A. C. A.") (py "tone"))
         (Some (py "key")) (py "Concise") (py "A. B.") true).1
    = [ st_markdown
          (box_html
             (py "<span style='background-color:#fff3cd;'>A.</span> <span style='background-color:#fff3cd;'>C.</span> <span style='background-color:#fff3cd;'>A.</span>"))
          true;
        st_markdown (py "---") false;
        st_markdown legend true ].
Proof. split; vm_compute; reflexivity. Qed.

(** X13.  When the model gives the draft back, up to whitespace between
    and around the sentences, the run makes the polish request and no
    other, and shows the sentences joined with single spaces, none of them
    wrapped. *)
Theorem unchanged_draft_one_call (lower : str → str)
    (response_text : list event → option str)
    (key style_choice user_input text : str) :
  key ≠ [] → strip user_input ≠ [] →
  response_text (setup_events key ++ polish_call style_choice user_input) = Some text →
  split_sentences text = split_sentences user_input →
  run lower response_text (Some key) style_choice user_input true
    = (setup_events key ++ polish_call style_choice user_input
         ++ panel_events (join (py " ") (split_sentences user_input)),
       inr ())
  ∧ llm_calls (run lower response_text (Some key) style_choice user_input true).1
    = [generate_content (polish_prompt style_choice user_input) 600].
Proof.
  intros Hkey Hdraft Htext Hsame.
  assert (Hrun : run lower response_text (Some key) style_choice user_input true
    = (setup_events key ++ polish_call style_choice user_input
         ++ panel_events (join (py " ") (split_sentences user_input)),
       inr ())).
  { rewrite (app_polish _ _ _ _ _ Hkey Hdraft), polish_unfold. cbn zeta.
    fold (polish_call style_choice user_input). rewrite Htext.
    replace (split_sentences (strip text)) with (split_sentences user_input)
      by (rewrite <- Hsame; unfold split_sentences; by rewrite strip_strip).
    rewrite changed_sentences_identical. cbn [classify]. unfold mret, script_ret.
    by rewrite highlight_sentences_empty, <- app_assoc. }
  split; [exact Hrun|]. rewrite Hrun. cbn [fst].
  by rewrite !llm_calls_app.
Qed.

Lemma unchanged_draft_one_call_witness :
  py "key" ≠ [] ∧ strip (py " Hi.   Bye. ") ≠ []
  ∧ constant_model (py "Hi. Bye.")
      (setup_events (py "key") ++ polish_call (py "Concise") (py " Hi.   Bye. "))
    = Some (py "Hi. Bye.")
  ∧ split_sentences (py "Hi. Bye.") = split_sentences (py " Hi.   Bye. ")
  ∧ llm_calls (run ascii_lower (constant_model (py "Hi. Bye.")) (Some (py "key"))
                 (py "Concise") (py " Hi.   Bye. ") true).1
    = [generate_content (polish_prompt (py "Concise") (py " Hi.   Bye. ")) 600].
Proof.
  assert (H1 : py "key" ≠ []) by discriminate.
  assert (H2 : strip (py " Hi.   Bye. ") ≠ []) by (vm_compute; discriminate).
  assert (H3 : constant_model (py "Hi. Bye.")
      (setup_events (py "key") ++ polish_call (py "Concise") (py " Hi.   Bye. "))
    = Some (py "Hi. Bye.")) by reflexivity.
  assert (H4 : split_sentences (py "Hi. Bye.") = split_sentences (py " Hi.   Bye. "))
    by (vm_compute; reflexivity).
  split_and!; [exact H1|exact H2|exact H3|exact H4|].
  exact (proj2 (unchanged_draft_one_call ascii_lower (constant_model (py "Hi. Bye."))
                  (py "key") (py "Concise") (py " Hi.   Bye. ") (py "Hi. Bye.")
                  H1 H2 H3 H4)).
Defined.

(** X14.  The script calls the model in a run exactly when the key is
    present and not empty, the button is pressed and the draft is not
    blank. *)
Theorem llm_called_iff (lower : str → str) (response_text : list event → option str)
    (GEMINI_API_KEY : option str) (style_choice user_input : str) (button : bool) :
  llm_calls
    (run lower response_text GEMINI_API_KEY style_choice user_input button).1 ≠ []
  ↔ (∃ key, GEMINI_API_KEY = Some key ∧ key ≠ [])
    ∧ button = true ∧ ¬ blank user_input.
Proof.
  destruct GEMINI_API_KEY as [[|c key]|].
  - split; [done|]. by intros [(key & [= <-] & Hkey) _].
  - destruct button.
    + destruct (decide (strip user_input = [])) as [Hblank|Hdraft].
      * rewrite (app_warning _ _ (c :: key) _ _ ltac:(done) Hblank).
        split; [done|]. intros (_ & _ & Hnb). destruct Hnb. by apply strip_blank.
      * rewrite (app_polish _ _ (c :: key) _ _ ltac:(done) Hdraft).
        destruct (polish_calls lower response_text style_choice user_input
                    (setup_events (c :: key))) as (asked & -> & _).
        split; [|done]. intros _. split_and!; [by eexists|done|].
        by rewrite <- strip_blank.
    + split; [done|]. by intros (_ & [=] & _).
  - split; [done|]. by intros [(key & [=] & _) _].
Qed.

(** X15.  Once the model has answered the polish request, the model calls
    of the run are that request followed by classification requests for
    polished sentences, taken in their order: at most one call more than
    there are polished sentences, whatever the model answers later. *)
Theorem llm_calls_bound (lower : str → str) (response_text : list event → option str)
    (key style_choice user_input : str) (button : bool) (text : str) :
  response_text (setup_events key ++ polish_call style_choice user_input) = Some text →
  ∃ asked,
    asked `sublist_of` split_sentences (strip text)
    ∧ (llm_calls
         (run lower response_text (Some key) style_choice user_input button).1 = []
       ∨ llm_calls
           (run lower response_text (Some key) style_choice user_input button).1
         = generate_content (polish_prompt style_choice user_input) 600
           :: classification_calls asked)
    ∧ length (llm_calls
                (run lower response_text (Some key) style_choice user_input button).1)
      ≤ S (length (split_sentences (strip text))).
Proof.
  intros Htext.
  assert (Hidle : ∀ tr : list event, llm_calls tr = [] →
    ∃ asked : list str,
      asked `sublist_of` split_sentences (strip text)
      ∧ (llm_calls tr = []
         ∨ llm_calls tr
           = generate_content (polish_prompt style_choice user_input) 600
             :: classification_calls asked)
      ∧ length (llm_calls tr) ≤ S (length (split_sentences (strip text)))).
  { intros tr Htr. exists []. rewrite Htr. split_and!; [apply sublist_nil_l|by left|].
    simpl. lia. }
  destruct key as [|c key]; [by apply Hidle|].
  destruct button; [|by apply Hidle].
  destruct (decide (strip user_input = [])) as [Hblank|Hdraft].
  { rewrite (app_warning _ _ (c :: key) _ _ ltac:(done) Hblank). by apply Hidle. }
  rewrite (app_polish _ _ (c :: key) _ _ ltac:(done) Hdraft).
  destruct (polish_calls lower response_text style_choice user_input
              (setup_events (c :: key))) as (asked & -> & Hasked).
  specialize (Hasked text Htext). exists asked.
  split_and!; [done|by right|].
  apply sublist_length in Hasked. simpl.
  unfold classification_calls. rewrite length_fmap. lia.
Qed.

Lemma llm_calls_bound_witness :
  constant_model (py "B. C.")
    (setup_events (py "key") ++ polish_call (py "Friendly") (py "A."))
    = Some (py "B. C.")
  ∧ length (llm_calls
              (run ascii_lower (constant_model (py "B. C.")) (Some (py "key"))
                 (py "Friendly") (py "A.") true).1)
    ≤ S (length (split_sentences (strip (py "B. C.")))).
Proof.
  assert (H1 : constant_model (py "B. C.")
    (setup_events (py "key") ++ polish_call (py "Friendly") (py "A."))
    = Some (py "B. C.")) by reflexivity.
  split; [exact H1|].
  destruct (llm_calls_bound ascii_lower (constant_model (py "B. C."))
              (py "key") (py "Friendly") (py "A.") true (py "B. C.") H1)
    as (asked & _ & _ & Hle).
  exact Hle.
Defined.

(** X16.  The highlighter on a mapping that holds something else than
    one of the five names: a sentence whose entry is the empty string is
    not wrapped, and a sentence whose entry is any other unknown name is
    wrapped in a span with an empty style. *)
Theorem highlight_unknown_category (categories : gmap str str) (sent category : str) :
  categories !! strip sent = Some category →
  category ∉ category_names →
  highlight_one categories sent
  = if truthy category then py "<span style=''>" ++ sent ++ py "</span>" else sent.
Proof.
  intros Hcat Hnot. unfold highlight_one. rewrite Hcat.
  destruct (truthy category); [|done].
  pose proof (highlights_unknown category Hnot) as Hstyle.
  cbn zeta. unfold str in *. by rewrite Hstyle.
Qed.

Lemma highlight_unknown_category_witness :
  ({[ py "Hi." := py "style" ]} : gmap str str) !! strip (py "Hi.") = Some (py "style")
  ∧ (py "style" ∉ category_names)
  ∧ highlight_one {[ py "Hi." := py "style" ]} (py "Hi.")
    = py "<span style=''>Hi.</span>".
Proof.
  assert (H1 : (({[ py "Hi." := py "style" ]} : gmap str str) !! strip (py "Hi."))
               = Some (py "style")) by (vm_compute; reflexivity).
  assert (H2 : py "style" ∉ category_names).
  { intros Hin. unfold category_names in Hin.
    repeat (apply elem_of_cons in Hin as [Hin|Hin]; [discriminate|]).
    by apply elem_of_nil in Hin. }
  split_and!; [exact H1|exact H2|].
  exact (highlight_unknown_category _ _ _ H1 H2).
Defined.

(** X17.  Whatever the mapping, the highlighter puts every sentence in
    the output as it is, with nothing escaped or replaced: each output
    holds its sentence, with the span around it or nothing. *)
Theorem highlight_keeps_text (polished_sentences : list str)
    (categories : gmap str str) :
  Forall2 (λ sent out,
      out = sent ∨ ∃ style, out = py "<span style='" ++ style ++ py "'>" ++ sent ++ py "</span>")
    polished_sentences (highlight_output polished_sentences categories).
Proof.
  unfold highlight_output. apply Forall2_fmap_r, Forall_Forall2_diag.
  apply Forall_forall. intros sent _. unfold highlight_one, compose.
  destruct (categories !! strip sent) as [category|]; [|by left].
  destruct (truthy category); [|by left].
  right. by eexists.
Qed.

(** ** More on the diff *)

(** X18.  With fewer than 200 polished sentences, below which the diff
    treats no sentence as popular, a sentence that the original and the
    polished text share makes the diff leave at least one polished
    sentence unchanged: fewer sentences are reported than there are. *)
Theorem shared_sentence_unchanged (orig_sentences polished_sentences : list str)
    (sent : str) :
  length polished_sentences < 200 →
  sent ∈ orig_sentences → sent ∈ polished_sentences →
  ∃ changed,
    changed_sentences orig_sentences polished_sentences = Some changed
    ∧ length changed < length polished_sentences.
Proof.
  intros Hlen Ho Hp.
  destruct (changed_sentences_sound orig_sentences polished_sentences)
    as (ops & Hops & Ht & Htag & _ & Hchanged & _).
  destruct (get_opcodes_shared orig_sentences polished_sentences sent Hlen Ho Hp)
    as (ops' & op & Hops' & Hop & Hequal).
  rewrite Hops in Hops'. injection Hops' as <-.
  eexists. split; [exact Hchanged|].
  rewrite Forall_forall in Htag. specialize (Htag op Hop).
  destruct (tiles_within _ _ _ _ _ op Ht Hop) as [_ Hj2].
  assert (Hspan : j1 op < j2 op).
  { unfold well_tagged, is_equal in *. destruct (op_tag op); try done. lia. }
  apply (select_from_shorter _ _ 0 (j1 op)); [simpl; lia|].
  apply negb_false_iff. unfold in_equal_span. apply existsb_exists.
  exists op. split; [by apply list_elem_of_In|].
  rewrite Hequal. unfold covers. simpl.
  apply andb_true_intro. split; [by apply Nat.leb_le|by apply Nat.ltb_lt].
Qed.

Lemma shared_sentence_unchanged_witness :
  length [py "C."; py "A."] < 200
  ∧ py "A." ∈ [py "A."; py "B."] ∧ py "A." ∈ [py "C."; py "A."]
  ∧ ∃ changed,
      changed_sentences [py "A."; py "B."] [py "C."; py "A."] = Some changed
      ∧ length changed < length [py "C."; py "A."].
Proof.
  assert (H1 : length [py "C."; py "A."] < 200) by (simpl; lia).
  assert (H2 : py "A." ∈ [py "A."; py "B."]) by (apply elem_of_cons; by left).
  assert (H3 : py "A." ∈ [py "C."; py "A."]).
  { apply elem_of_cons. right. apply elem_of_cons. by left. }
  split_and!; [exact H1|exact H2|exact H3|].
  exact (shared_sentence_unchanged _ _ _ H1 H2 H3).
Defined.

(** From 200 polished sentences on, a sentence that occurs too often is
    popular and is not looked up: 200 times the same sentence are all
    reported as changed although the original has that sentence. *)
Example popular_sentence_changed :
  changed_sentences [py "y."; py "x."] (replicate 200 (py "x."))
  = Some (replicate 200 (py "x.")).
Proof. vm_compute. reflexivity. Qed.

(** X19.  The matching blocks of two sequences end with the block
    [(len(a), len(b), 0)]; the blocks before it are not empty, lie inside
    the two sequences, go forward in both without overlap, and each is a
    run of elements common to the two sequences. *)
Theorem matching_blocks_spec (a b : list str) :
  ∃ blocks,
    get_matching_blocks (new a b) = Some (blocks ++ [(length a, length b, 0)])
    ∧ monotone 0 0 blocks
    ∧ Forall (λ m : Match,
        0 < m.2 ∧ m.1.1 + m.2 ≤ length a ∧ m.1.2 + m.2 ≤ length b
        ∧ slice a m.1.1 (m.1.1 + m.2) = slice b m.1.2 (m.1.2 + m.2)) blocks.
Proof.
  destruct (new_spec a b) as (Ha & Hb & _ & Hb2j). rewrite <- Hb in Hb2j at 1.
  destruct (get_matching_blocks_chain (new a b)) as (blocks & Hget & Hsorted & Hok).
  pose proof (get_matching_blocks_matches (new a b) Hb2j _ Hget) as Hm.
  rewrite Ha, Hb in *. apply Forall_app in Hm as [Hm _].
  exists blocks. split_and!; [done| |].
  - apply (chain_monotone (new a b)); [done|]. apply Forall_forall. intros; lia.
  - rewrite Forall_forall in Hok, Hm. apply Forall_forall.
    intros [[i j] k] Hin. specialize (Hok _ Hin). specialize (Hm _ Hin).
    destruct Hok as [Hc Hk]. simpl in *. split_and!; [lia..|].
    apply list_eq. intros d. rewrite !slice_lookup.
    replace (i + k - i) with k by lia. replace (j + k - j) with k by lia.
    case_decide; [by apply Hm|done].
Qed.

(** X20.  [find_longest_match] on a rectangle inside the two sequences
    gives a block inside that rectangle which is a run of elements common
    to the two sequences, whatever the sequences; with fewer than 200
    elements in [b], the block is empty exactly when the two sides of the
    rectangle have no element in common. *)
Theorem find_longest_match_sound (a b : list str) (alo ahi blo bhi : nat) :
  alo ≤ ahi ≤ length a → blo ≤ bhi ≤ length b →
  ∃ i j k,
    find_longest_match (new a b) alo ahi blo bhi = (i, j, k)
    ∧ alo ≤ i ∧ i + k ≤ ahi ∧ blo ≤ j ∧ j + k ≤ bhi
    ∧ slice a i (i + k) = slice b j (j + k)
    ∧ (length b < 200 →
       (k = 0 ↔ ∀ p q, alo ≤ p < ahi → blo ≤ q < bhi → a !! p ≠ b !! q)).
Proof.
  intros Hahi Hbhi.
  destruct (new_spec a b) as (Ha & Hb & _ & Hb2j). rewrite <- Hb in Hb2j at 1.
  pose proof (find_longest_match_inside (new a b) alo ahi blo bhi
                ltac:(lia) ltac:(lia)) as Hin.
  pose proof (find_longest_match_matches (new a b) Hb2j alo ahi blo bhi) as Hm.
  pose proof (find_longest_match_hit (new a b) Hb2j alo ahi blo bhi) as Hhit.
  rewrite Ha, Hb in *.
  destruct (find_longest_match (new a b) alo ahi blo bhi) as [[i j] k].
  simpl in Hin, Hm, Hhit. exists i, j, k. split_and!; [done|lia..| |].
  - apply list_eq. intros d. rewrite !slice_lookup.
    replace (i + k - i) with k by lia. replace (j + k - j) with k by lia.
    case_decide; [by apply Hm|done].
  - intros Hlen. split.
    + intros -> p q Hp Hq Heq.
      destruct (lookup_lt_is_Some_2 a p ltac:(lia)) as [x Hx].
      specialize (Hhit p q x Hp Hq Hx ltac:(by rewrite <- Heq)).
      assert (is_Some (b2j (new a b) !! x)) as Hkey.
      { apply (new_keys a b q); [done|by rewrite <- Heq]. }
      specialize (Hhit Hkey). lia.
    + intros Hnone. destruct k as [|k]; [done|].
      destruct (Hnone i j ltac:(lia) ltac:(lia)).
      specialize (Hm 0 ltac:(lia)). by rewrite !Nat.add_0_r in Hm.
Qed.

Lemma find_longest_match_sound_witness :
  0 ≤ 3 ≤ length [py "A."; py "B."; py "C."]
  ∧ 0 ≤ 3 ≤ length [py "B."; py "C."; py "D."]
  ∧ length [py "B."; py "C."; py "D."] < 200
  ∧ ∃ i j k,
      find_longest_match (new [py "A."; py "B."; py "C."] [py "B."; py "C."; py "D."])
        0 3 0 3 = (i, j, k)
      ∧ 0 ≤ i ∧ i + k ≤ 3 ∧ 0 ≤ j ∧ j + k ≤ 3
      ∧ slice [py "A."; py "B."; py "C."] i (i + k)
        = slice [py "B."; py "C."; py "D."] j (j + k)
      ∧ (k = 0 ↔ ∀ p q, 0 ≤ p < 3 → 0 ≤ q < 3 →
           [py "A."; py "B."; py "C."] !! p ≠ [py "B."; py "C."; py "D."] !! q).
Proof.
  assert (H1 : 0 ≤ 3 ≤ length [py "A."; py "B."; py "C."]) by (simpl; lia).
  assert (H2 : 0 ≤ 3 ≤ length [py "B."; py "C."; py "D."]) by (simpl; lia).
  assert (H3 : length [py "B."; py "C."; py "D."] < 200) by (simpl; lia).
  split; [exact H1|]. split; [exact H2|]. split; [exact H3|].
  destruct (find_longest_match_sound _ _ 0 3 0 3 H1 H2)
    as (i & j & k & Hflm & Hi & Hik & Hj & Hjk & Hrun & Hempty).
  exists i, j, k. split_and!; [exact Hflm|exact Hi|exact Hik|exact Hj|exact Hjk|exact Hrun|].
  exact (Hempty H3).
Defined.

(** From 200 elements on, a popular element is not looked up: the block
    is inside the rectangle and a common run, here the empty one, although
    the two sides share an element. *)
Example find_longest_match_popular :
  find_longest_match (new [py "y."; py "x."] (replicate 200 (py "x."))) 0 2 0 200
  = (0, 0, 0).
Proof. vm_compute. reflexivity. Qed.

Example find_longest_match_run :
  find_longest_match (new [py "A."; py "B."; py "C."] [py "B."; py "C."; py "D."])
    0 3 0 3 = (1, 0, 2).
Proof. vm_compute. reflexivity. Qed.

(** ** The page *)

(** X21.  With a key, every run starts with the same nine steps, from
    the configuration of the client to the button, whatever the draft, the
    style, the button and the model; when the button is not pressed the
    run is these steps and ends normally. *)
Theorem setup_always_first (lower : str → str)
    (response_text : list event → option str)
    (key style_choice user_input : str) (button : bool) :
  key ≠ [] →
  setup_events key
    `prefix_of` (run lower response_text (Some key) style_choice user_input button).1
  ∧ run lower response_text (Some key) style_choice user_input false
    = (setup_events key, inr ()).
Proof.
  intros Hkey. split; [|by apply app_idle].
  destruct button; [|by rewrite app_idle].
  destruct (decide (strip user_input = [])) as [Hblank|Hdraft].
  { rewrite (app_warning _ _ _ _ _ Hkey Hblank). by apply prefix_app_r. }
  rewrite (app_polish _ _ _ _ _ Hkey Hdraft).
  destruct (polish_outcome lower response_text style_choice user_input
              (setup_events key))
    as [[_ ->]|(text & changed & _ & _
                & [(answered & sent & rest & _ & _ & ->)|(categories & _ & ->)])];
    by apply prefix_app_r.
Qed.

Lemma setup_always_first_witness :
  py "key" ≠ []
  ∧ setup_events (py "key")
      `prefix_of` (run ascii_lower (constant_model (py "Hi.")) (Some (py "key"))
                     (py "Concise") (py "Hi") true).1.
Proof.
  assert (H1 : py "key" ≠ []) by discriminate.
  split; [exact H1|].
  exact (proj1 (setup_always_first ascii_lower (constant_model (py "Hi."))
                  (py "key") (py "Concise") (py "Hi") true H1)).
Defined.
